(** * Geo identity, alias merging and matching: a verification development

    A shallow embedding of [intertwine/geos/models.py]: the key derivation
    of [Geo.create_key], the level taxonomy of [GeoLevel], the alias graph
    operations of [Geo] and the re-keying cascade of the [human_id] setter.

    Python objects live in a store indexed by handles (the [id] column);
    the two association tables of the source are lists of rows; methods
    that mutate and raise are computations in a state-and-exception monad
    whose state survives an exception, as a Python heap does. *)

From Stdlib Require Import ZArith String Ascii.
From stdpp Require Import base option list sorting strings.

Local Open Scope string_scope.
Local Open Scope Z_scope.
Local Open Scope nat_scope.
Local Open Scope list_scope.

(** ** Python strings *)

Module PyStr.

(** [str.lower] on ASCII text: the letters [A] to [Z] are lowered and
    every other character of the range is kept. Python lowers letters
    beyond the range as well; the theorems that depend on the lowering
    take ASCII texts. *)
Definition lower_ascii (c : ascii) : ascii :=
  let n := nat_of_ascii c in
  if (65 <=? n) && (n <=? 90) then ascii_of_nat (n + 32) else c.

Fixpoint lower (s : string) : string :=
  match s with
  | EmptyString => EmptyString
  | String c s' => String (lower_ascii c) (lower s')
  end.

(** [s.replace(old, new)] for a non-empty [old]: occurrences are taken
    left to right and do not overlap.  [skip] counts the characters of a
    matched occurrence that are still to be dropped. *)
Fixpoint replace_from (old new : string) (skip : nat) (s : string) : string :=
  match s with
  | EmptyString => EmptyString
  | String c s' =>
      match skip with
      | S k => replace_from old new k s'
      | O =>
          if String.prefix old s
          then new +:+ replace_from old new (String.length old - 1) s'
          else String c (replace_from old new 0 s')
      end
  end.

Definition replace (old new s : string) : string := replace_from old new 0 s.

(** Truthiness of an optional string: [None] and [''] are false. *)
Definition truthy (o : option string) : option string :=
  match o with
  | Some EmptyString => None
  | _ => o
  end.

End PyStr.

(** ** [Geo.create_key] *)

Definition PATH_DELIMITER : string := "/".

(** [u'{abbrev_or_name}{qualifier}'.format(...)] *)
Definition nametag (name : string) (abbrev qualifier : option string) : string :=
  (match PyStr.truthy abbrev with Some a => a | None => name end)
  +:+ (match PyStr.truthy qualifier with Some q => " " +:+ q | None => "" end).

(** [nametag.replace('.', '').replace(', ', '_').replace(' ', '_')
           .lower().replace('/', '-')] *)
Definition transform_nametag (tag : string) : string :=
  PyStr.replace "/" "-"
    (PyStr.lower
       (PyStr.replace " " "_"
          (PyStr.replace ", " "_"
             (PyStr.replace "." "" tag)))).

(** [path_parent] is the [human_id] of the path-parent, when there is one
    (a [Geo] object is always true). The result is the [human_id] held by
    the one-field [GeoKey]. *)
Definition create_key (human_id : option string) (name : string)
    (abbrev qualifier : option string) (path_parent : option string) : string :=
  match PyStr.truthy human_id with
  | Some h => h
  | None =>
      let path := match path_parent with
                  | Some pk => pk +:+ PATH_DELIMITER
                  | None => ""
                  end in
      path +:+ transform_nametag (nametag name abbrev qualifier)
  end.

(** The transforms in the order the specification and the class docstring
    give them: remove ['.'], [', '] and ['/'] to ['-'], [' '] to ['_'],
    lowercase. *)
Definition documented_transform (tag : string) : string :=
  PyStr.lower
    (PyStr.replace " " "_"
       (PyStr.replace "/" "-"
          (PyStr.replace ", " "-"
             (PyStr.replace "." "" tag)))).

Definition documented_key (name : string) (abbrev qualifier : option string)
    (path_parent : option string) : string :=
  (match path_parent with Some pk => pk +:+ PATH_DELIMITER | None => "" end)
  +:+ documented_transform (nametag name abbrev qualifier).




(** ** The level taxonomy of [GeoLevel] *)

Inductive Level :=
  | COUNTRY | SUBDIVISION1 | SUBDIVISION2 | SUBDIVISION3
  | COMBINED_AREA | CORE_AREA | PLACE | SUBPLACE.

Global Instance Level_eq_dec : EqDecision Level.
Proof. solve_decision. Defined.

Definition all_levels : list Level :=
  [COUNTRY; SUBDIVISION1; COMBINED_AREA; CORE_AREA;
   SUBDIVISION2; SUBDIVISION3; PLACE; SUBPLACE].

Definition DOWN (l : Level) : list Level :=
  match l with
  | COUNTRY => [SUBDIVISION1]
  | SUBDIVISION1 => [COMBINED_AREA; CORE_AREA; SUBDIVISION2; PLACE]
  | COMBINED_AREA => [CORE_AREA; SUBDIVISION2; PLACE]
  | CORE_AREA => [SUBDIVISION2; PLACE]
  | SUBDIVISION2 => [SUBDIVISION3; PLACE]
  | SUBDIVISION3 => [PLACE]
  | PLACE => [SUBPLACE]
  | SUBPLACE => []
  end.

Definition UP (l : Level) : list Level :=
  match l with
  | SUBPLACE => [PLACE; SUBDIVISION3; SUBDIVISION2; CORE_AREA;
                 COMBINED_AREA; SUBDIVISION1]
  | PLACE => [SUBDIVISION2; CORE_AREA; COMBINED_AREA; SUBDIVISION1]
  | SUBDIVISION3 => [SUBDIVISION2; CORE_AREA; COMBINED_AREA; SUBDIVISION1]
  | SUBDIVISION2 => [CORE_AREA; COMBINED_AREA; SUBDIVISION1]
  | CORE_AREA => [COMBINED_AREA; SUBDIVISION1]
  | COMBINED_AREA => [SUBDIVISION1]
  | SUBDIVISION1 => [COUNTRY]
  | COUNTRY => []
  end.

(** [walk adj n a b]: [b] is reached from [a] by at least one and at most
    [n] edges of the adjacency [adj]. *)
Fixpoint walk (adj : Level -> list Level) (n : nat) (a b : Level) : bool :=
  match n with
  | O => false
  | S k =>
      existsb (fun c => bool_decide (c = b) || walk adj k c b) (adj a)
  end.

(** The longest DOWN path from a level, in edges. *)
Fixpoint down_height (fuel : nat) (l : Level) : nat :=
  match fuel with
  | O => 0
  | S k => foldr (fun c acc => Nat.max (S (down_height k c)) acc) 0 (DOWN l)
  end.

Definition taxonomy_depth : nat := down_height (length all_levels) COUNTRY.

Definition is_root (l : Level) : bool :=
  match UP l with [] => true | _ => false end.

(** [a] is an ancestor of [l] in DOWN. *)
Definition down_ancestor (a l : Level) : bool := walk DOWN (length all_levels) a l.

(** A numbering of the levels that goes up along DOWN. *)
Definition level_rank (l : Level) : nat :=
  match l with
  | COUNTRY => 0 | SUBDIVISION1 => 1 | COMBINED_AREA => 2 | CORE_AREA => 3
  | SUBDIVISION2 => 4 | SUBDIVISION3 => 5 | PLACE => 6 | SUBPLACE => 7
  end.

(** ** The store

    A [Geo] is referred to by its handle, the index of its record in
    [geos]. [alias_assoc] is [geo_alias_association] with rows
    [(alias_id, alias_target_id)], [parent_child_assoc] is
    [geo_parent_child_association] with rows [(parent_id, child_id)]; the
    relationships [_alias_targets], [_aliases], [parents], [children] and
    [path_children] are the views of these rows that the ORM gives.
    [uses_the] and the JSON properties play no part here and are left out. *)

Abbreviation handle := nat.

Inductive Standard :=
  | FIPS | ANSI | ISO_A2 | ISO_A3 | ISO_N3 | CSA_2010 | CBSA_2010.

Record GeoData := mkGeoData {
  total_pop : option Z;
  urban_pop : option Z;
  latitude : option Z;
  longitude : option Z;
  land_area : option Z;
  water_area : option Z
}.

Record GeoLevel := mkGeoLevel {
  level : Level;
  designation : option string;
  ids : list (Standard * string)
}.

Record Geo := mkGeo {
  name : string;
  abbrev : option string;
  qualifier : option string;
  human_id : option string;
  path_parent : option handle;
  data : option GeoData;
  levels : list GeoLevel
}.

Record Store := mkStore {
  geos : list Geo;
  alias_assoc : list (handle * handle);
  parent_child_assoc : list (handle * handle)
}.

Definition with_geos (f : list Geo -> list Geo) (s : Store) : Store :=
  mkStore (f (geos s)) (alias_assoc s) (parent_child_assoc s).

Definition with_alias_assoc
    (f : list (handle * handle) -> list (handle * handle)) (s : Store) : Store :=
  mkStore (geos s) (f (alias_assoc s)) (parent_child_assoc s).

Definition with_parent_child_assoc
    (f : list (handle * handle) -> list (handle * handle)) (s : Store) : Store :=
  mkStore (geos s) (alias_assoc s) (f (parent_child_assoc s)).

Definition set_name (v : string) (g : Geo) : Geo :=
  mkGeo v (abbrev g) (qualifier g) (human_id g) (path_parent g) (data g) (levels g).
Definition set_human_id (v : option string) (g : Geo) : Geo :=
  mkGeo (name g) (abbrev g) (qualifier g) v (path_parent g) (data g) (levels g).
Definition set_data (v : option GeoData) (g : Geo) : Geo :=
  mkGeo (name g) (abbrev g) (qualifier g) (human_id g) (path_parent g) v (levels g).
Definition set_levels (v : list GeoLevel) (g : Geo) : Geo :=
  mkGeo (name g) (abbrev g) (qualifier g) (human_id g) (path_parent g) (data g) v.

(** ** Computations that mutate the store and may raise

    The store that comes with [Raise] is the store at the moment of the
    exception: nothing is rolled back. [OutOfFuel] is not a Python outcome;
    it marks a recursion cut by the fuel of the model. [DanglingHandle]
    marks a handle with no record, which no Python reference is. *)

Inductive exn :=
  | CircularReference | AttributeConflict | ValueError | AssertionError
  | TypeError | DuplicateKeyError | DanglingHandle.

Inductive outcome (A : Type) :=
  | Ok (a : A)
  | Raise (e : exn)
  | OutOfFuel.
Arguments Ok {A} a.
Arguments Raise {A} e.
Arguments OutOfFuel {A}.

Definition M (A : Type) : Type := Store -> Store * outcome A.

Global Instance M_ret : MRet M := fun A a s => (s, Ok a).

Global Instance M_bind : MBind M := fun A B f m s =>
  match m s with
  | (s', Ok a) => f a s'
  | (s', Raise e) => (s', Raise e)
  | (s', OutOfFuel) => (s', OutOfFuel)
  end.

Definition raise {A} (e : exn) : M A := fun s => (s, Raise e).
Definition out_of_fuel {A} : M A := fun s => (s, OutOfFuel).
Definition gets {A} (f : Store -> A) : M A := fun s => (s, Ok (f s)).
Definition modify (f : Store -> Store) : M unit := fun s => (f s, Ok tt).

(** [for x in l: f(x)], over a list evaluated before the loop. *)
Fixpoint for_each {A} (l : list A) (f : A -> M unit) : M unit :=
  match l with
  | [] => mret tt
  | x :: l' => f x ;; for_each l' f
  end.

Definition get_geo (h : handle) : M Geo := fun s =>
  match geos s !! h with
  | Some g => (s, Ok g)
  | None => (s, Raise DanglingHandle)
  end.

Definition update_geo (h : handle) (f : Geo -> Geo) : M unit :=
  modify (with_geos (alter f h)).

(** Truth value of a list. *)
Definition nonempty {A} (l : list A) : bool :=
  match l with [] => false | _ :: _ => true end.

(** ** Stable sorting

    [sorted] keeps the order of equal elements, also with [reverse=True];
    insertion from the right with [le x y] read as "x may stay before y"
    does the same. *)

Fixpoint insert_sorted {A} (le : A -> A -> bool) (x : A) (l : list A) : list A :=
  match l with
  | [] => [x]
  | y :: l' => if le x y then x :: y :: l' else y :: insert_sorted le x l'
  end.

Definition stable_sort {A} (le : A -> A -> bool) (l : list A) : list A :=
  foldr (insert_sorted le) [] l.

(** [list.remove(x)]: the first occurrence goes. *)
Fixpoint remove_first {A} `{EqDecision A} (x : A) (l : list A) : list A :=
  match l with
  | [] => []
  | y :: l' => if decide (x = y) then l' else y :: remove_first x l'
  end.

(** ** Relationships of a geo *)

Definition geo_name (s : Store) (g : handle) : string :=
  from_option name "" (geos s !! g).

Definition geo_data (s : Store) (g : handle) : option GeoData :=
  geos s !! g ≫= data.

Definition geo_levels (s : Store) (g : handle) : list GeoLevel :=
  from_option levels [] (geos s !! g).

(** [self._alias_targets]: the targets of the rows of [self], in row order. *)
Definition _alias_targets (s : Store) (self : handle) : list handle :=
  (filter (fun e : handle * handle => e.1 = self) (alias_assoc s)).*2.

(** The aliases of the rows that point at [self], in row order. *)
Definition _aliases (s : Store) (self : handle) : list handle :=
  (filter (fun e : handle * handle => e.2 = self) (alias_assoc s)).*1.

(** [lambda g: g.data.total_pop if g.data else -1] *)
Definition pop_key (s : Store) (g : handle) : option Z :=
  match geo_data s g with
  | Some d => total_pop d
  | None => Some (-1)%Z
  end.

(** Order of the sort keys. A [total_pop] may be [None]: Python 3 raises
    [TypeError] when a comparison meets such a key, and the sort stops
    there (see [sortable] and [get_alias_targets] below). The clauses for
    [None] make the order total and are those of Python 2, where [None] is
    below every integer; they decide nothing in a sort that returns under
    Python 3. *)
Definition key_le (a b : option Z) : bool :=
  match a, b with
  | None, _ => true
  | Some _, None => false
  | Some x, Some y => (x <=? y)%Z
  end.

(** [Geo.sorted]: [sorted(geos, reverse=True, key=...)] *)
Definition Geo_sorted (s : Store) (l : list handle) : list handle :=
  stable_sort (fun x y => key_le (pop_key s y) (pop_key s x)) l.

(** The list that the [alias_targets] property returns when its sort
    returns. *)
Definition alias_targets (s : Store) (self : handle) : list handle :=
  Geo_sorted s (_alias_targets s self).

(** Whether [sorted] gets through the geos [l] under Python 3. A list of
    fewer than two elements is not compared at all; in a longer one every
    element is compared at least once, and [<] raises [TypeError] as soon
    as one of its two keys is [None]. *)
Definition sortable (s : Store) (l : list handle) : bool :=
  (length l <=? 1) || forallb (fun g => bool_decide (is_Some (pop_key s g))) l.

(** [self.aliases.all()]: the backref is ordered by [Geo.name]. *)
Definition aliases (s : Store) (self : handle) : list handle :=
  stable_sort (fun x y => String.leb (geo_name s x) (geo_name s y)) (_aliases s self).

(** [self.parents.all()] and [self.children.all()] *)
Definition parents (s : Store) (self : handle) : list handle :=
  (filter (fun e : handle * handle => e.2 = self) (parent_child_assoc s)).*1.

Definition children (s : Store) (self : handle) : list handle :=
  (filter (fun e : handle * handle => e.1 = self) (parent_child_assoc s)).*2.

(** [self.path_children]: the geos whose [_path_parent] is [self], in the
    order of their handles (the relationship has no [order_by]). *)
Definition path_children (s : Store) (self : handle) : list handle :=
  filter (fun h => geos s !! h ≫= path_parent = Some self) (seq 0 (length (geos s))).

(** Assigning a list to [parents] or [children] replaces the rows. *)
Definition set_parents (self : handle) (ps : list handle) : Store -> Store :=
  with_parent_child_assoc (fun t =>
    filter (fun e : handle * handle => e.2 <> self) t ++ map (fun p => (p, self)) ps).

Definition set_children (self : handle) (cs : list handle) : Store -> Store :=
  with_parent_child_assoc (fun t =>
    filter (fun e : handle * handle => e.1 <> self) t ++ map (fun c => (self, c)) cs).

(** Reading the [alias_targets] property, as the methods do: the sorted
    targets, or the [TypeError] of the sort. *)
Definition get_alias_targets (self : handle) : M (list handle) := fun s =>
  if sortable s (_alias_targets s self)
  then (s, Ok (alias_targets s self))
  else (s, Raise TypeError).

(** ** [Geo.transfer_references] *)

Inductive RefAttr := PARENTS | CHILDREN | DATA | LEVELS.

Global Instance RefAttr_eq_dec : EqDecision RefAttr.
Proof. solve_decision. Defined.

(** The keys of the [attributes] dict, in the order they are written,
    which is the order of the loop from Python 3.7 on (CPython 2.7 walks
    them as data, levels, parents, children). The theorems below hold for
    any order without repetition; only the evaluations on example stores
    follow this one. *)
Definition attributes : list RefAttr := [PARENTS; CHILDREN; DATA; LEVELS].

(** Truth value of [getattr(g, attr)], after [.all()] for the dynamic ones. *)
Definition attr_held (s : Store) (g : handle) (attr : RefAttr) : bool :=
  match attr with
  | PARENTS => nonempty (parents s g)
  | CHILDREN => nonempty (children s g)
  | DATA => match geo_data s g with Some _ => true | None => false end
  | LEVELS => nonempty (geo_levels s g)
  end.

(** [setattr(geo, attr, self_attr_val); setattr(self, attr, empty)].
    A data record or a level that is given another geo leaves its owner. *)
Definition move_attr (attr : RefAttr) (self geo : handle) (s : Store) : Store :=
  match attr with
  | PARENTS => set_parents self [] (set_parents geo (parents s self) s)
  | CHILDREN => set_children self [] (set_children geo (children s self) s)
  | DATA =>
      with_geos (alter (set_data None) self)
        (with_geos (alter (set_data (geo_data s self)) geo) s)
  | LEVELS =>
      with_geos (alter (set_levels []) self)
        (with_geos (alter (set_levels (geo_levels s self)) geo) s)
  end.

Definition transfer_attr (self geo : handle) (attr : RefAttr) : M unit :=
  self_attr_val ← gets (fun s => attr_held s self attr);
  if (self_attr_val : bool) then
    geo_attr_val ← gets (fun s => attr_held s geo attr);
    if (geo_attr_val : bool) then raise AttributeConflict
    else modify (move_attr attr self geo)
  else mret tt.

Definition transfer_references (self geo : handle) : M unit :=
  for_each attributes (transfer_attr self geo).

(** ** Alias targets *)

Definition remove_alias_target (self target : handle) : M unit :=
  ts ← gets (fun s => _alias_targets s self);
  if decide (target ∈ ts)
  then modify (with_alias_assoc (remove_first (self, target)))
  else raise ValueError.

(** [self._alias_targets.append(target)] *)
Definition append_alias_target (self target : handle) : M unit :=
  modify (with_alias_assoc (fun t => t ++ [(self, target)])).

(** The [alias_targets] setter; the sets are walked in list order. *)
Definition alias_targets_setter (add_alias_target : handle -> handle -> M unit)
    (self : handle) (new_targets : list handle) : M unit :=
  current_targets ← gets (fun s => remove_dups (_alias_targets s self));
  let removed_targets :=
    filter (fun t => t ∉ new_targets) current_targets in
  for_each removed_targets (fun alias_target =>
    remove_alias_target self alias_target) ;;
  let added_targets :=
    filter (fun t => t ∉ current_targets) (remove_dups new_targets) in
  for_each added_targets (fun alias_target =>
    add_alias_target self alias_target).

(** The [aliases] setter. *)
Definition aliases_setter (add_alias_target : handle -> handle -> M unit)
    (self : handle) (new_aliases : list handle) : M unit :=
  current_aliases ← gets (fun s => remove_dups (_aliases s self));
  let removed_aliases :=
    filter (fun a => a ∉ new_aliases) current_aliases in
  for_each removed_aliases (fun alias => remove_alias_target alias self) ;;
  let added_aliases :=
    filter (fun a => a ∉ current_aliases) (remove_dups new_aliases) in
  for_each added_aliases (fun alias => add_alias_target alias self).

(** [Geo.promote_to_alias_target], over the [add_alias_target] it calls. *)
Definition promote_body (add_alias_target : handle -> handle -> M unit)
    (self : handle) : M unit :=
  alias_targets0 ← get_alias_targets self;
  match alias_targets0 with
  | [] => mret tt
  | _ :: _ :: _ => raise ValueError
  | [tgt] =>
      tgt_targets ← get_alias_targets tgt;
      if nonempty tgt_targets then raise AssertionError else
      alias_targets_setter add_alias_target self [] ;;
      tgt_aliases ← gets (fun s => aliases s tgt);
      for_each tgt_aliases (fun alias =>
        remove_alias_target alias tgt ;;
        add_alias_target alias self) ;;
      add_alias_target tgt self
  end.

(** [Geo.add_alias_target]; every call spends one unit of fuel. The two
    [assert] statements are executed (Python without [-O]); the first,
    [assert not aliases], cannot fail where it stands. *)
Fixpoint add_alias_target (fuel : nat) (self target : handle) : M unit :=
  match fuel with
  | O => out_of_fuel
  | S fuel' =>
      if decide (target = self) then raise CircularReference else
      alias_targets0 ← get_alias_targets self;
      if decide (target ∈ alias_targets0) then mret tt else
      aliases0 ← gets (fun s => aliases s self);
      if nonempty aliases0 then
        if decide (target ∈ aliases0)
        then promote_body (add_alias_target fuel') target
        else
          for_each aliases0 (fun alias =>
            remove_alias_target alias self ;;
            add_alias_target fuel' alias target) ;;
          add_alias_target fuel' self target
      else
        target_targets ← get_alias_targets target;
        if nonempty target_targets then raise AssertionError else
        (if nonempty alias_targets0 then mret tt
         else transfer_references self target) ;;
        append_alias_target self target
  end.

Definition promote_to_alias_target (fuel : nat) (self : handle) : M unit :=
  promote_body (add_alias_target fuel) self.

(** ** Matching *)

(** The first two lines of [Geo.find_component_matches]: a parent that is
    an alias is replaced by the first of its alias targets. *)
Definition find_component_matches_parent (s : Store) (parent : option handle)
    : option handle :=
  match parent with
  | None => None
  | Some p =>
      match alias_targets s p with
      | t :: _ => Some t
      | [] => Some p
      end
  end.

(** [Geo.remove_redundant_aliases]. [reversed(matches)] holds an index into
    the list, which it reads again at every step and which ends the
    iteration once it is past the end; [n] is that index plus one. *)
Fixpoint remove_redundant_aliases_from (s : Store) (match_set : list handle)
    (n : nat) (matches : list handle) : list handle :=
  match n with
  | O => matches
  | S index =>
      match matches !! index with
      | None => matches
      | Some geo =>
          let alias_targets0 := alias_targets s geo in
          if nonempty alias_targets0 then
            let redundent :=
              map (fun t => bool_decide (t ∈ match_set)) alias_targets0 in
            if length (filter (fun b => b = true) redundent)
               =? length alias_targets0
            then remove_redundant_aliases_from s match_set index (removelast matches)
            else remove_redundant_aliases_from s match_set index matches
          else remove_redundant_aliases_from s match_set index matches
      end
  end.

Definition remove_redundant_aliases (s : Store) (matches : list handle)
    : list handle :=
  remove_redundant_aliases_from s matches (length matches) matches.

(** The pruning as the specification words it: an alias goes when every
    one of its targets is in the list; everything else stays. *)
Definition redundant_alias (s : Store) (matches : list handle) (g : handle) : bool :=
  nonempty (alias_targets s g)
  && forallb (fun t => bool_decide (t ∈ matches)) (alias_targets s g).

Definition prune_redundant_aliases (s : Store) (matches : list handle)
    : list handle :=
  filter (fun g => redundant_alias s matches g = false) matches.

(** ** Re-keying: the [human_id] setter and the setters that call it *)

(** [Geo.create_key(name=.., abbrev=.., qualifier=.., path_parent=geo)]:
    the path is read from the [human_id] of the path-parent; [None + '/']
    is a [TypeError]. *)
Definition create_key_under (name' : string) (abbrev' qualifier' : option string)
    (path_parent' : option handle) : M string :=
  match path_parent' with
  | None => mret (create_key None name' abbrev' qualifier' None)
  | Some p =>
      pg ← get_geo p;
      match human_id pg with
      | Some k => mret (create_key None name' abbrev' qualifier' (Some k))
      | None => raise TypeError
      end
  end.

(** Modelled from the spec: [Trackable.register_update], which is not in
    the source tree. Section 4.1 has it replace the old key of the instance
    by the new one and fail with DuplicateKeyError when another live
    instance owns the new key; the registry is read off the [human_id]s of
    the store. The result tells the [human_id] setter whether the key
    changed, which is how the setter uses it. *)
Definition register_update (self : handle) (key : string) : M bool :=
  g ← get_geo self;
  if decide (human_id g = Some key) then mret false else
  owned ← gets (fun s =>
    bool_decide (Exists (fun g' => human_id g' = Some key) (geos s)));
  if (owned : bool) then raise DuplicateKeyError else
  update_geo self (set_human_id (Some key)) ;;
  mret true.

Section Rekeying.

(** [validate_against_sub_blueprints(human_id=val, include=False)] is not
    in the source tree either; it is taken as a test on the new key that
    raises when it fails. *)
Variable validate_against_sub_blueprints : string -> bool.

(** The [human_id] setter; every call spends one unit of fuel. The call
    of [create_key] for a path-child has [pc.alias_targets] among its
    arguments, so the property is read, and its list dropped, before the
    key is made. *)
Fixpoint human_id_setter (fuel : nat) (self : handle) (val : option string)
    : M unit :=
  match fuel with
  | O => out_of_fuel
  | S fuel' =>
      match val with
      | None => raise ValueError
      | Some v =>
          (if validate_against_sub_blueprints v then mret tt
           else raise ValueError) ;;
          g ← get_geo self;
          match human_id g with
          | None => update_geo self (set_human_id (Some v))
          | Some _ =>
              changed ← register_update self v;
              if (changed : bool) then
                pcs ← gets (fun s => path_children s self);
                for_each pcs (fun pc =>
                  pcg ← get_geo pc;
                  get_alias_targets pc ;;
                  key ← create_key_under (name pcg) (abbrev pcg)
                                          (qualifier pcg) (Some self);
                  human_id_setter fuel' pc (Some key))
              else mret tt
          end
      end
  end.


(** The [name] setter. Like the three setters after it, it passes
    [self.alias_targets] to [create_key], which reads the property. *)
Definition name_setter (fuel : nat) (self : handle) (val : string) : M unit :=
  g ← get_geo self;
  match human_id g, abbrev g with
  | Some _, None =>
      get_alias_targets self ;;
      key ← create_key_under val None (qualifier g) (path_parent g);
      human_id_setter fuel self (Some key)
  | _, _ => mret tt
  end ;;
  update_geo self (set_name val).




(** [self.levels[lvl] = glvl] on the dict of levels, kept as the list of
    its values: the level under that key is replaced where it stands, a
    new key goes last. *)
Fixpoint levels_setitem (glvl : GeoLevel) (ls : list GeoLevel) : list GeoLevel :=
  match ls with
  | [] => [glvl]
  | x :: ls' =>
      if decide (level x = level glvl) then glvl :: ls'
      else x :: levels_setitem glvl ls'
  end.

(** The loop [for lvl, glvl in levels.items(): self.levels[lvl] = ...] of
    [Geo.__init__] over the levels given, from the levels [ls] that the
    geo has. *)
Definition levels_setitems (given ls : list GeoLevel) : list GeoLevel :=
  foldl (fun ls glvl => levels_setitem glvl ls) ls given.

(** [Geo.__init__]. The new record gets the next handle; its naming
    attributes are plain assignments, the [human_id] being [None] until it
    is derived. [child_data_level] (data summed over the children) is left
    at its default, and the [GeoLevel]s of [levels] are taken as built.
    [self.parents], [self.children] and [self.data] are assigned, which
    replaces what the aliases may have handed over; [self.levels = {}]
    assigns nothing, the setter walking the values of an empty dict, so
    the levels handed over stay and those given are set key by key.
    Registration with Trackable happens outside [__init__]. *)
Definition Geo_init (fuel : nat) (name' : string) (abbrev' qualifier' : option string)
    (path_parent' : option handle) (alias_targets' aliases' : list handle)
    (parents' children' : list handle) (data' : option GeoData)
    (levels' : list GeoLevel) : M handle :=
  self ← gets (fun s => length (geos s));
  modify (with_geos (fun l =>
    l ++ [mkGeo name' abbrev' qualifier' None path_parent' None []])) ;;
  (if nonempty alias_targets' && nonempty aliases'
   then raise ValueError else mret tt) ;;
  alias_targets_setter (add_alias_target fuel) self alias_targets' ;;
  aliases_setter (add_alias_target fuel) self aliases' ;;
  get_alias_targets self ;;
  key ← create_key_under name' abbrev' qualifier' path_parent';
  human_id_setter fuel self (Some key) ;;
  modify (set_parents self parents') ;;
  modify (set_children self children') ;;
  update_geo self (set_data data') ;;
  update_geo self (fun g => set_levels (levels_setitems levels' (levels g)) g) ;;
  mret self.

End Rekeying.

(** ** Invariants of the alias graph *)

(** No geo is at once an alias (has targets) and a target (has aliases). *)
Definition Exclusive (s : Store) : Prop :=
  forall g, alias_targets s g = [] \/ aliases s g = [].

(** A geo that holds none of the transferred attributes. *)
Definition holds_no_references (s : Store) (g : handle) : Prop :=
  forall attr, attr_held s g attr = false.


(** ** The path graph and derived keys *)




(** The key of [h] is the one [create_key] derives from its naming
    attributes and the key of its path-parent. *)
Definition key_derived (s : Store) (h : handle) : Prop :=
  exists g, geos s !! h = Some g /\
    match path_parent g with
    | None =>
        human_id g = Some (create_key None (name g) (abbrev g) (qualifier g) None)
    | Some p =>
        exists pg pk, geos s !! p = Some pg /\ human_id pg = Some pk /\
          human_id g
          = Some (create_key None (name g) (abbrev g) (qualifier g) (Some pk))
    end.

Definition keys_derived (s : Store) : Prop :=
  forall h, h < length (geos s) -> key_derived s h.

Definition forget_key (g : Geo) : Geo := set_human_id None g.

(** Two stores that differ in the keys of their geos at most. *)
Definition same_attrs (s s' : Store) : Prop :=
  forget_key <$> geos s' = forget_key <$> geos s
  /\ alias_assoc s' = alias_assoc s
  /\ parent_child_assoc s' = parent_child_assoc s.



(** [path_to_root s h l]: [l] lists [h], its path-parent, the path-parent
    of that one, and so on up to a geo without path-parent. *)
Inductive path_to_root (s : Store) : handle -> list handle -> Prop :=
  | path_to_root_root h g :
      geos s !! h = Some g -> path_parent g = None -> path_to_root s h [h]
  | path_to_root_link h g p l :
      geos s !! h = Some g -> path_parent g = Some p ->
      path_to_root s p l -> path_to_root s h (h :: l).




(** ** Notions used by the proofs *)

(** [m] keeps [I], whatever its outcome. *)
Definition preserves {A} (I : Store -> Prop) (m : M A) : Prop :=
  forall s, I s -> I (m s).1.

(** What a computation leaves alone. *)
Definition same_alias_rows (s0 : Store) (s : Store) : Prop :=
  alias_assoc s = alias_assoc s0.

(** No handle is at once the alias of one row and the target of another. *)
Definition Excl (t : list (handle * handle)) : Prop :=
  forall a b c, (a, b) ∈ t -> (c, a) ∉ t.

Definition ExclS (s : Store) : Prop := Excl (alias_assoc s).

(** The rows after a promotion. *)
Definition promoted_rows (s s' : Store) (A B : handle) : Prop :=
  forall x y, (x, y) ∈ alias_assoc s' <->
    ((x, y) ∈ alias_assoc s /\ y <> B)
    \/ (y = A /\ x <> A /\ (x, B) ∈ alias_assoc s)
    \/ (x = B /\ y = A).

(** ** Example stores *)

Definition plain_geo (n key : string) : Geo :=
  mkGeo n None None (Some key) None None [].

Definition populated_geo (n key : string) (pop : Z) : Geo :=
  mkGeo n None None (Some key) None
        (Some (mkGeoData (Some pop) None None None None None)) [].

(** A geo whose data record has no total population. *)
Definition unpopulated_geo (n key : string) : Geo :=
  mkGeo n None None (Some key) None
        (Some (mkGeoData None None None None None None)) [].


(** An alias [0] of the target [1], and an unrelated geo [2]. *)
Definition alias_and_target : Store :=
  mkStore [plain_geo "Big Apple" "big_apple"; plain_geo "New York" "new_york";
           plain_geo "Boston" "boston"]
          [(0, 1)] [].

(** The geo [0] is an alias of [1], which has no data record, and of [2],
    whose record has a negative population; [3] and [4] have populations. *)
Definition targets_by_population : Store :=
  mkStore [plain_geo "G" "g"; plain_geo "T1" "t1";
           populated_geo "T2" "t2" (-5); populated_geo "T3" "t3" 100;
           populated_geo "T4" "t4" 7]
          [(0, 1); (0, 2)] [(1,3); (1, 4)].

(** The geo [0] is an alias of [1] (no data), [2] (7) and [3] (100). *)
Definition alias_of_three : Store :=
  mkStore [plain_geo "G" "g"; plain_geo "T1" "t1";
           populated_geo "T2" "t2" 7; populated_geo "T3" "t3" 100]
          [(0, 1); (0, 2); (0, 3)] [].

(** The geo [2] has the parent [0] and the child [1]; the geo [3] has the
    child [4] and no parent. Neither is an alias or a target. *)
Definition parents_then_conflict : Store :=
  mkStore [plain_geo "P" "p"; plain_geo "C" "c"; plain_geo "A" "a";
           plain_geo "B" "b"; plain_geo "D" "d"]
          [] [(0, 2); (2, 1); (3, 4)].

(** The geo [1] and the geo [2] both have children. *)
Definition children_conflict : Store :=
  mkStore [plain_geo "C" "c"; plain_geo "A" "a"; plain_geo "B" "b";
           plain_geo "D" "d"]
          [] [(1, 0); (2, 3)].

(** The alias [2] of the target [3]; both have a parent. *)
Definition promote_conflict : Store :=
  mkStore [plain_geo "P" "p"; plain_geo "Q" "q"; plain_geo "A" "a";
           plain_geo "B" "b"]
          [(2, 3)] [(0, 2); (1, 3)].

(** The target [1] has the aliases [0] and [2], and a parent [3]. *)
Definition two_aliases : Store :=
  mkStore [plain_geo "A" "a"; plain_geo "B" "b"; plain_geo "C" "c";
           plain_geo "P" "p"]
          [(0, 1); (2, 1)] [(3, 1)].

(** The path [us], [us/tx], [us/tx/austin] and [us/tx/travis_county]; the
    county [3] is also a parent of the city [2], which is not below it in
    the path graph. *)
Definition us_tx_austin : Store :=
  mkStore [mkGeo "U.S." None None (Some "us") None None [];
           mkGeo "Texas" (Some "TX") None (Some "us/tx") (Some 0) None [];
           mkGeo "Austin" None None (Some "us/tx/austin") (Some 1) None [];
           mkGeo "Travis County" None None (Some "us/tx/travis_county")
                 (Some 1) None []]
          [] [(0, 1); (1, 2); (1, 3); (3, 2)].


(** ** Reading a geo: more of Python's [str]

    The methods of [str] that [Geo.infer_path_component_names] and
    [Geo.is_known_by] call. *)

Module PyText.

(** [str.isspace] on ASCII text: tab to carriage return, the four
    separators [0x1c] to [0x1f] and the space. Python has white space
    beyond the range as well; the theorems that depend on the stripping
    take ASCII texts. *)
Definition isspace (c : ascii) : bool :=
  let n := nat_of_ascii c in
  ((9 <=? n) && (n <=? 13)) || ((28 <=? n) && (n <=? 32)).

Fixpoint lstrip (s : string) : string :=
  match s with
  | EmptyString => EmptyString
  | String c s' => if isspace c then lstrip s' else s
  end.

Fixpoint rstrip (s : string) : string :=
  match s with
  | EmptyString => EmptyString
  | String c s' =>
      match rstrip s' with
      | EmptyString => if isspace c then EmptyString else String c EmptyString
      | r => String c r
      end
  end.

(** [s.strip()] *)
Definition strip (s : string) : string := rstrip (lstrip s).

(** [s.split(sep)] for a separator of one character: the pieces between
    the separators, empty ones included; there is always one piece. *)
Fixpoint split (sep : ascii) (s : string) : list string :=
  match s with
  | EmptyString => [EmptyString]
  | String c s' =>
      if Ascii.eqb c sep then EmptyString :: split sep s'
      else match split sep s' with
           | piece :: pieces => String c piece :: pieces
           | [] => [String c EmptyString]
           end
  end.

(** [sub in s] *)
Fixpoint contains (sub s : string) : bool :=
  String.prefix sub s
  || match s with
     | EmptyString => false
     | String _ s' => contains sub s'
     end.

End PyText.

(** The characters of a string. *)
Definition chars (s : string) : list ascii := list_ascii_of_string s.

(** An ASCII capital, the characters that [PyStr.lower] changes. *)
Definition is_upper (c : ascii) : bool :=
  let n := nat_of_ascii c in (65 <=? n) && (n <=? 90).

(** A character that a transformed nametag can hold. *)
Definition clean_char (x : ascii) : Prop :=
  x <> "."%char /\ x <> " "%char /\ x <> "/"%char /\ is_upper x = false.

(** A character of the ASCII range, and a text made of such characters.
    On these texts [PyStr.lower] is [str.lower] and [PyText.isspace] is
    [str.isspace]; on others Python lowers and strips more than they do,
    so what is proved of the two is proved of ASCII texts. *)
Definition is_ascii (c : ascii) : bool := nat_of_ascii c <? 128.

Definition ascii_only (s : string) : bool := forallb is_ascii (chars s).

(** ** Matching, continued *)

(** [Geo.infer_path_component_names]:
    [(c.strip() for c in reversed(geo_text.split(',')) if c.strip())] *)
Definition infer_path_component_names (geo_text : string) : list string :=
  map PyText.strip
    (filter (fun c => PyText.strip c <> "") (rev (PyText.split "," geo_text))).

(** A path component as [infer_path_component_names] gives them: not
    empty, with no white space at either end and no comma. *)
Definition is_component (c : string) : Prop :=
  c <> "" /\ PyText.strip c = c /\ ","%char ∉ chars c.

(** The test of [Geo.elevate_exact_matches], on a [match_string] that has
    been lowered:
    [g.name.lower() == match_string or
     (g.abbrev and g.abbrev.lower() == match_string)] *)
Definition is_exact_match (s : Store) (match_string : string) (g : handle) : bool :=
  match geos s !! g with
  | Some r =>
      bool_decide (PyStr.lower (name r) = match_string)
      || match PyStr.truthy (abbrev r) with
         | Some a => bool_decide (PyStr.lower a = match_string)
         | None => false
         end
  | None => false
  end.

(** The loop of [Geo.elevate_exact_matches] over
    [enumerate(reversed(matches), start=1)]. As in
    [remove_redundant_aliases_from], [n] is the index of the reversed
    iterator plus one; the counter [i] of [enumerate] is then
    [len_matches_after - index], the iterator having started at
    [len_matches_after - 1]. *)
Fixpoint elevate_exact_matches_from (s : Store) (match_string : string)
    (len_matches_before len_matches_after : nat)
    (n : nat) (matches : list handle) : list handle :=
  match n with
  | O => matches
  | S index =>
      match matches !! index with
      | None => matches
      | Some g =>
          let i := len_matches_after - index in
          if len_matches_before <? i then matches
          else if is_exact_match s match_string g
               then elevate_exact_matches_from s match_string
                      len_matches_before len_matches_after index
                      (delete (len_matches_after - i) matches)
               else elevate_exact_matches_from s match_string
                      len_matches_before len_matches_after index matches
      end
  end.

(** [Geo.elevate_exact_matches]; the result is the list [matches] after
    the call. The generator [exact_matches] is run by the slice assignment
    [matches[:0] = exact_matches], over the list as it was. *)
Definition elevate_exact_matches (s : Store) (matches : list handle)
    (match_string : string) : list handle :=
  let match_string := PyStr.lower match_string in
  let exact_matches :=
    filter (fun g => is_exact_match s match_string g = true) matches in
  let len_matches_before := length matches in
  let matches := exact_matches ++ matches in
  let len_matches_after := length matches in
  let len_exact_matches := len_matches_after - len_matches_before in
  if len_exact_matches =? 0 then matches
  else elevate_exact_matches_from s match_string
         len_matches_before len_matches_after len_matches_after matches.

(** Exceptions of built-ins that the methods below can meet: [TypeError]
    from [reduce] on an empty sequence, [AttributeError] from an attribute
    of [None], [StopIteration] from [next]. *)
Inductive builtin_error :=
  | BuiltinTypeError | BuiltinAttributeError | BuiltinStopIteration.

(** [(geo, geo.data.total_pop)]; a geo without data record has [data]
    [None]. *)
Definition geo_pop_tuple (s : Store) (geo : handle)
    : builtin_error + (handle * option Z) :=
  match geo_data s geo with
  | Some d => inr (geo, total_pop d)
  | None => inl BuiltinAttributeError
  end.

(** [lambda x, y: x if x[1] > y[1] else y]. Under Python 3 the
    comparison raises [TypeError] when one of the two populations is
    [None]. *)
Definition larger (x y : handle * option Z)
    : builtin_error + (handle * option Z) :=
  match x.2, y.2 with
  | Some px, Some py => inr (if (py <? px)%Z then x else y)
  | _, _ => inl BuiltinTypeError
  end.

(** [reduce] from the accumulator [x] over the rest of the generator:
    the next tuple is made, then compared with the accumulator. *)
Fixpoint reduce_larger (s : Store) (x : handle * option Z) (geos : list handle)
    : builtin_error + (handle * option Z) :=
  match geos with
  | [] => inr x
  | geo :: rest =>
      match geo_pop_tuple s geo with
      | inl e => inl e
      | inr y =>
          match larger x y with
          | inl e => inl e
          | inr x' => reduce_larger s x' rest
          end
      end
  end.

(** [Geo.get_largest_geo]: [reduce] without initial value raises
    [TypeError] on an empty sequence and takes the first tuple as the
    accumulator otherwise. *)
Definition get_largest_geo (s : Store) (geos : list handle)
    : builtin_error + handle :=
  match geos with
  | [] => inl BuiltinTypeError
  | geo :: rest =>
      match geo_pop_tuple s geo with
      | inl e => inl e
      | inr x =>
          match reduce_larger s x rest with
          | inl e => inl e
          | inr largest => inr largest.1
          end
      end
  end.

(** The geo [g] has a data record with the total population [p]. *)
Definition population (s : Store) (g : handle) (p : Z) : Prop :=
  exists d, geo_data s g = Some d /\ total_pop d = Some p.

Definition geo_abbrev (s : Store) (g : handle) : option string :=
  geos s !! g ≫= abbrev.

(** The set [names] that [Geo.is_known_by] builds, as a list: the name,
    the abbreviation, the names of the aliases and their abbreviations.
    The query [self.aliases] is true also when it has no row; an empty one
    adds no name either way. *)
Definition known_names (s : Store) (self : handle)
    (include_abbrev include_aliases : bool) : list string :=
  [geo_name s self]
  ++ (if include_abbrev
      then match PyStr.truthy (geo_abbrev s self) with
           | Some a => [a]
           | None => []
           end
      else [])
  ++ (if include_aliases
      then map (geo_name s) (aliases s self)
           ++ (if include_abbrev
               then omap (fun alias => PyStr.truthy (geo_abbrev s alias))
                         (aliases s self)
               else [])
      else []).

(** [Geo.is_known_by] *)
Definition is_known_by (s : Store) (self : handle) (match_string : string)
    (full_name case_sensitive include_abbrev include_aliases : bool) : bool :=
  let names := known_names s self include_abbrev include_aliases in
  let match_string :=
    if case_sensitive then match_string else PyStr.lower match_string in
  let names := if case_sensitive then names else map PyStr.lower names in
  if full_name then bool_decide (match_string ∈ names)
  else existsb (PyText.contains match_string) names.

(** ** The levels of a geo *)

(** The keys of [GeoLevel.DOWN] and of [GeoLevel.UP], in the order of the
    two [OrderedDict]s. *)
Definition DOWN_keys : list Level :=
  [COUNTRY; SUBDIVISION1; COMBINED_AREA; CORE_AREA;
   SUBDIVISION2; SUBDIVISION3; PLACE; SUBPLACE].

Definition UP_keys : list Level :=
  [SUBPLACE; PLACE; SUBDIVISION3; SUBDIVISION2;
   CORE_AREA; COMBINED_AREA; SUBDIVISION1; COUNTRY].

(** [set(self.levels)]: the keys of the dict of levels of a geo. *)
Definition level_keys (s : Store) (self : handle) : list Level :=
  map level (geo_levels s self).

(** [(lvl for lvl in GeoLevel.DOWN if lvl in set(self.levels))] *)
Definition level_down_keys (s : Store) (self : handle) : list Level :=
  filter (fun lvl => lvl ∈ level_keys s self) DOWN_keys.

(** [(lvl for lvl in GeoLevel.UP if lvl in set(self.levels))] *)
Definition level_up_keys (s : Store) (self : handle) : list Level :=
  filter (fun lvl => lvl ∈ level_keys s self) UP_keys.

(** [next(it)] on a generator that has not been advanced. *)
Definition next {A} (it : list A) : builtin_error + A :=
  match it with
  | x :: _ => inr x
  | [] => inl BuiltinStopIteration
  end.

(** [next(self.level_down_keys) if self.levels else None] *)
Definition top_level_key (s : Store) (self : handle)
    : builtin_error + option Level :=
  if nonempty (geo_levels s self)
  then match next (level_down_keys s self) with
       | inr lvl => inr (Some lvl)
       | inl e => inl e
       end
  else inr None.

(** [next(self.level_up_keys) if self.levels else None] *)
Definition bottom_level_key (s : Store) (self : handle)
    : builtin_error + option Level :=
  if nonempty (geo_levels s self)
  then match next (level_up_keys s self) with
       | inr lvl => inr (Some lvl)
       | inl e => inl e
       end
  else inr None.

(** ** [Geo.display] *)

(** [max_path]: a number of levels, or [float('Inf')], the default. *)
Inductive path_limit := Levels (n : Z) | Inf.

(** [plvl <= max_path] *)
Definition within (plvl : Z) (max_path : path_limit) : bool :=
  match max_path with
  | Inf => true
  | Levels n => (plvl <=? n)%Z
  end.

Section Display.

(** The [uses_the] column, which the records of the store do not carry. *)
Variable uses_the : handle -> bool.

Variables show_the show_The show_abbrev show_qualifier abbrev_path : bool.

(** What one turn of the loop of [Geo.display] appends for the geo [h]
    with record [geo] at path level [plvl]. *)
Definition display_item (h : handle) (geo : Geo) (plvl : Z) : string :=
  let the := if uses_the h && show_The then "The "
             else if uses_the h && show_the then "the " else "" in
  let abbrev' := match PyStr.truthy (abbrev geo) with
                 | Some a => if show_abbrev then " (" +:+ a +:+ ")" else ""
                 | None => ""
                 end in
  let qualifier' := match PyStr.truthy (qualifier geo) with
                    | Some q => if show_qualifier then " " +:+ q else ""
                    | None => ""
                    end in
  if (plvl =? 0)%Z then the +:+ name geo +:+ abbrev' +:+ qualifier'
  else match (if abbrev_path then PyStr.truthy (abbrev geo) else None) with
       | Some a => a
       | None => name geo
       end.

(** The [while] loop of [Geo.display]; every turn spends one unit of
    fuel. *)
Fixpoint display_loop (fuel : nat) (s : Store) (max_path : path_limit)
    (geo : option handle) (plvl : Z) (geostr : list string)
    : outcome (list string) :=
  match geo with
  | None => Ok geostr
  | Some h =>
      if within plvl max_path then
        match fuel with
        | O => OutOfFuel
        | S fuel' =>
            match geos s !! h with
            | None => Raise DanglingHandle
            | Some g =>
                display_loop fuel' s max_path (path_parent g) (plvl + 1)
                             (geostr ++ [display_item h g plvl])
            end
        end
      else Ok geostr
  end.

(** [Geo.display]: [', '.join(geostr)] after the loop. *)
Definition display (fuel : nat) (s : Store) (max_path : path_limit)
    (self : handle) : outcome string :=
  match display_loop fuel s max_path (Some self) 0 [] with
  | Ok geostr => Ok (String.concat ", " geostr)
  | Raise e => Raise e
  | OutOfFuel => OutOfFuel
  end.

(** The items of a display of the path [l], which starts at the geo
    displayed, from the path level [plvl] on. *)
Fixpoint display_items (s : Store) (l : list handle) (plvl : Z) : list string :=
  match l with
  | [] => []
  | h :: l' =>
      match geos s !! h with
      | Some g => display_item h g plvl :: display_items s l' (plvl + 1)
      | None => []
      end
  end.

End Display.

(** ** What the alias operations leave and what a transfer does *)

(** What names a geo and places it in the path graph. *)
Definition identity (g : Geo) : string * option string * option string
                                * option string * option handle :=
  (name g, abbrev g, qualifier g, human_id g, path_parent g).

(** Two stores whose geos have the same names, keys and path-parents. *)
Definition same_identity (s0 s : Store) : Prop :=
  identity <$> geos s = identity <$> geos s0.

(** The alias table has no repeated row. *)
Definition NoDupS (s : Store) : Prop := NoDup (alias_assoc s).

(** Where a link that ended at [self] ends after a transfer to [geo]. *)
Definition redirect (self geo : handle) (x : handle) : handle :=
  if decide (x = self) then geo else x.

(** [self] and [geo] hold no attribute in common. *)
Definition no_conflict (s : Store) (self geo : handle) : Prop :=
  forall attr, attr_held s self attr = true -> attr_held s geo attr = false.

(** One attribute at its turn in the loop of [transfer_references] that
    does not raise: nothing to move, or a move to a [geo] that holds
    none. *)
Definition turn (self geo : handle) (attr : RefAttr) (s s' : Store) : Prop :=
  (attr_held s self attr = false /\ s' = s)
  \/ (attr_held s self attr = true /\ attr_held s geo attr = false
      /\ s' = move_attr attr self geo s).

(** What a transfer from [self] to [geo] that returns leaves: every
    parent and child link of [self] is a link of [geo], [self] has no data
    and no levels, [geo] has those of [self] where [self] had some, and
    nothing else has changed. *)
Definition transferred (s s' : Store) (self geo : handle) : Prop :=
  (forall x y, (x, y) ∈ parent_child_assoc s' <->
     exists x0 y0, (x0, y0) ∈ parent_child_assoc s
                   /\ x = redirect self geo x0 /\ y = redirect self geo y0)
  /\ geo_data s' self = None
  /\ geo_levels s' self = []
  /\ geo_data s' geo = match geo_data s self with
                       | Some d => Some d
                       | None => geo_data s geo
                       end
  /\ geo_levels s' geo = match geo_levels s self with
                         | [] => geo_levels s geo
                         | ls => ls
                         end
  /\ (forall h, h <> self -> h <> geo -> geos s' !! h = geos s !! h)
  /\ alias_assoc s' = alias_assoc s
  /\ same_identity s s'.

(** The part of [transferred] that is about references: what a transfer
    from [self] to [geo] does to the links, data records and levels. *)
Definition references_moved (s s' : Store) (self geo : handle) : Prop :=
  (forall x y, (x, y) ∈ parent_child_assoc s' <->
     exists x0 y0, (x0, y0) ∈ parent_child_assoc s
                   /\ x = redirect self geo x0 /\ y = redirect self geo y0)
  /\ geo_data s' self = None
  /\ geo_levels s' self = []
  /\ geo_data s' geo = match geo_data s self with
                       | Some d => Some d
                       | None => geo_data s geo
                       end
  /\ geo_levels s' geo = match geo_levels s self with
                         | [] => geo_levels s geo
                         | ls => ls
                         end
  /\ (forall h, h <> self -> h <> geo -> geos s' !! h = geos s !! h)
  /\ same_identity s s'.

(** ** What a promotion hands over *)

(** Every alias row of [X] points at [B]: [B] is the one target of [X]. *)
Definition sole_target (s : Store) (B X : handle) : Prop :=
  Forall (fun e : handle * handle => e.1 = X -> e.2 = B) (alias_assoc s).

Global Instance sole_target_dec s B X : Decision (sole_target s B X).
Proof. unfold sole_target. apply _. Defined.

(** The geos whose references a promotion of the alias [A] of [B] hands
    to [A], with [A] itself: the aliases of [B] that have no other target,
    and [B]. *)
Definition hands_over (s : Store) (A B g : handle) : Prop :=
  g = A \/ g = B \/ ((g, B) ∈ alias_assoc s /\ sole_target s B g).

(** No two of these geos hold an attribute of the same kind. *)
Definition no_shared_reference (s : Store) (A B : handle) : Prop :=
  forall g g' attr,
    hands_over s A B g -> hands_over s A B g' -> g <> g' ->
    attr_held s g attr = true -> attr_held s g' attr = false.

(** The transfers of the geos [l], one after the other, to a geo that
    holds the attributes [acc]: each finds none of its attributes held. *)
Fixpoint hand_over_ok (s : Store) (acc : RefAttr -> bool) (l : list handle) : Prop :=
  match l with
  | [] => True
  | g :: l' =>
      (forall attr, attr_held s g attr = true -> acc attr = false)
      /\ hand_over_ok s (fun attr => acc attr || attr_held s g attr) l'
  end.

(** What the loop of [promote_to_alias_target] over the aliases [l] of
    [B] leaves when it returns, [G] being those of [l] that had no target
    but [B] and [acc] what [A] held: the rows of [l] point at [A], [A]
    holds what it held and what the geos of [G] held, these hold nothing,
    and every other geo is as it was. *)
Definition repointed (s s' : Store) (A B : handle) (l G : list handle)
    (acc : RefAttr -> bool) : Prop :=
  NoDup (alias_assoc s')
  /\ (forall x y, (x, y) ∈ alias_assoc s' <->
        ((x, y) ∈ alias_assoc s /\ ~ (y = B /\ x ∈ l)) \/ (y = A /\ x ∈ l))
  /\ same_identity s s'
  /\ (forall attr, attr_held s' A attr
                   = acc attr || existsb (fun g => attr_held s g attr) G)
  /\ (forall Y, Y <> A -> Y ∉ G -> geos s' !! Y = geos s !! Y)
  /\ (forall Y attr, Y <> A -> Y ∉ G -> attr_held s' Y attr = attr_held s Y attr)
  /\ (forall Y, Y ∈ G -> holds_no_references s' Y)
  /\ ((forall Y, Y ∈ G -> holds_no_references s Y) ->
      geos s' = geos s /\ parent_child_assoc s' = parent_child_assoc s).

(** [no_shared_reference], computed: the geos that hand over are walked
    pair by pair. *)
Definition shares_none (s : Store) (A B : handle) : bool :=
  let l := A :: B :: filter (sole_target s B) (_aliases s B) in
  forallb (fun g => forallb (fun g' =>
    bool_decide (g = g')
    || forallb (fun attr => negb (attr_held s g attr && attr_held s g' attr))
               attributes) l) l.

(** No row starts where another ends, computed. *)
Definition exclusive_rows (t : list (handle * handle)) : bool :=
  forallb (fun e => forallb (fun e' => negb (bool_decide (e'.2 = e.1))) t) t.

(** The target [1], with a data record, has the aliases [0], [2] and [3].
    The geo [4] is a parent of [0] and of [3], and a child of [2]; it is
    also a second target of [3]. *)
Definition handing_over : Store :=
  mkStore [plain_geo "A" "a"; populated_geo "B" "b" 10; plain_geo "C" "c";
           plain_geo "X" "x"; plain_geo "T" "t"]
          [(0, 1); (2, 1); (3, 1); (3, 4)] [(4, 0); (4, 3); (2, 4)].

(** The target [1] has the aliases [0] and [2]; [2] is also an alias of
    [3], whose data record has no total population, and of [4]. *)
Definition unsortable_alias : Store :=
  mkStore [plain_geo "A" "a"; plain_geo "B" "b"; plain_geo "C" "c";
           unpopulated_geo "T1" "t1"; populated_geo "T2" "t2" 7]
          [(0, 1); (2, 1); (2, 3); (2, 4)] [].

(** ** Keys that a cascade may take *)














(** * Theorems *)

Section KeyDerivation.

Lemma append_assoc (a b c : string) : (a +:+ b) +:+ c = a +:+ (b +:+ c).
Proof.
  induction a as [|x a IH]; [reflexivity|].
  change (String x ((a +:+ b) +:+ c) = String x (a +:+ (b +:+ c))).
  by rewrite IH.
Qed.



Lemma create_key_derived name abbrev qualifier p :
  create_key None name abbrev qualifier (Some p)
  = p +:+ PATH_DELIMITER +:+ transform_nametag (nametag name abbrev qualifier).
Proof. unfold create_key; cbn [PyStr.truthy]. by rewrite append_assoc. Qed.


End KeyDerivation.

(** C1: on a nametag that holds [', '] the code does not apply the
    documented transforms: [Geo.create_key] turns [', '] into ['_'], where
    the specification and the docstring of [Geo] turn it into ['-']. *)
Theorem create_key_comma_space_underscore :
  create_key None "Washington, D.C." None None None = "washington_dc"
  /\ documented_key "Washington, D.C." None None None = "washington-dc"
  /\ create_key None "Washington, D.C." None None None
     <> documented_key "Washington, D.C." None None None.
Proof. split; [|split]; [reflexivity | reflexivity | discriminate]. Qed.



Section Taxonomy.

(** Reachability by one or more edges of an adjacency. *)
Inductive reaches (adj : Level -> list Level) : Level -> Level -> Prop :=
| reaches_edge a b : b ∈ adj a -> reaches adj a b
| reaches_step a c b : c ∈ adj a -> reaches adj c b -> reaches adj a b.


Lemma DOWN_rank a b : b ∈ DOWN a -> level_rank a < level_rank b.
Proof.
  destruct a; cbn [DOWN]; intros H;
    repeat (apply elem_of_cons in H as [->|H]; [cbn; lia|]);
    by apply elem_of_nil in H.
Qed.

Lemma walk_edge adj n a b : b ∈ adj a -> walk adj (S n) a b = true.
Proof.
  intros H. cbn [walk]. apply existsb_exists. exists b. split.
  - by apply list_elem_of_In.
  - rewrite bool_decide_eq_true_2; done.
Qed.

Lemma walk_step adj n a c b :
  c ∈ adj a -> walk adj n c b = true -> walk adj (S n) a b = true.
Proof.
  intros H Hw. cbn [walk]. apply existsb_exists. exists c. split.
  - by apply list_elem_of_In.
  - rewrite Hw. apply orb_true_r.
Qed.

Lemma walk_mono adj n m a b :
  n <= m -> walk adj n a b = true -> walk adj m a b = true.
Proof.
  revert m a. induction n as [|n IH]; intros m a Hle Hw; [discriminate|].
  destruct m as [|m]; [lia|].
  cbn [walk] in *. apply existsb_exists in Hw as (c & Hin & Hc).
  apply existsb_exists. exists c. split; [done|].
  apply orb_true_iff in Hc as [Hc|Hc]; [by rewrite Hc|].
  rewrite (IH m c); [apply orb_true_r | lia | done].
Qed.

Lemma walk_reaches adj n a b : walk adj n a b = true -> reaches adj a b.
Proof.
  revert a. induction n as [|n IH]; intros a Hw; [discriminate|].
  cbn [walk] in Hw. apply existsb_exists in Hw as (c & Hin & Hc).
  apply list_elem_of_In in Hin.
  apply orb_true_iff in Hc as [Hc|Hc].
  - apply bool_decide_eq_true in Hc as ->. by apply reaches_edge.
  - eapply reaches_step; eauto.
Qed.

Lemma reaches_DOWN_walk a b :
  reaches DOWN a b ->
  level_rank a < level_rank b
  /\ walk DOWN (level_rank b - level_rank a) a b = true.
Proof.
  induction 1 as [a b H | a c b H _ [IHlt IHw]].
  - pose proof (DOWN_rank _ _ H). split; [done|].
    destruct (level_rank b - level_rank a) as [|k] eqn:E; [lia|].
    by apply walk_edge.
  - pose proof (DOWN_rank _ _ H). split; [lia|].
    destruct (level_rank b - level_rank a) as [|k] eqn:E; [lia|].
    eapply walk_step; [done|].
    eapply walk_mono; [|done]. lia.
Qed.

Lemma down_ancestor_reaches a l :
  down_ancestor a l = true <-> reaches DOWN a l.
Proof.
  split; [apply walk_reaches|].
  intros H. apply reaches_DOWN_walk in H as [Hlt Hw].
  eapply walk_mono; [|done].
  cbn. destruct a, l; cbn; lia.
Qed.

(** No UP walk that starts at one of the levels above [place] comes
    to [subdivision3]. *)
Lemma UP_avoids_subdivision3 n l :
  l <> SUBPLACE -> l <> SUBDIVISION3 -> walk UP n l SUBDIVISION3 = false.
Proof.
  revert l. induction n as [|n IH]; intros l H1 H2; [reflexivity|].
  destruct l; try congruence; cbn [walk UP existsb];
    rewrite ?IH by discriminate; reflexivity.
Qed.

End Taxonomy.

(** C8, as stated, fails: [subdivision3] is an ancestor of [place] in
    DOWN, and no walk along UP from [place] reaches it. *)
Lemma place_subdivision3_not_closed :
  is_root PLACE = false
  /\ reaches DOWN SUBDIVISION3 PLACE
  /\ forall n, walk UP n PLACE SUBDIVISION3 = false.
Proof.
  split; [reflexivity|]. split.
  - apply reaches_edge. cbn. constructor.
  - intros n. by apply UP_avoids_subdivision3.
Qed.

(** C8, amended: for every non-root level [l] and every DOWN-ancestor [a]
    of [l] other than [subdivision3] above [place], a walk along UP from
    [l] reaches [a] in at most [taxonomy_depth] steps. *)
Theorem taxonomy_closure (a l : Level) :
  is_root l = false ->
  reaches DOWN a l ->
  (a, l) <> (SUBDIVISION3, PLACE) ->
  walk UP taxonomy_depth l a = true.
Proof.
  intros Hroot Hanc Hne. apply down_ancestor_reaches in Hanc.
  destruct a, l; try reflexivity; try discriminate; congruence.
Qed.

Lemma taxonomy_closure_witness :
  is_root SUBPLACE = false
  /\ reaches DOWN COUNTRY SUBPLACE
  /\ (COUNTRY, SUBPLACE) <> (SUBDIVISION3, PLACE)
  /\ walk UP taxonomy_depth SUBPLACE COUNTRY = true.
Proof.
  assert (H : reaches DOWN COUNTRY SUBPLACE)
    by (apply down_ancestor_reaches; reflexivity).
  split; [reflexivity|]. split; [exact H|]. split; [discriminate|].
  apply (taxonomy_closure COUNTRY SUBPLACE); [reflexivity | exact H | discriminate].
Defined.

(** ** Lists, sorting and the monad *)

Section Sorting.

Context {A : Type} (le : A -> A -> bool).

Lemma insert_sorted_perm (x : A) (l : list A) : insert_sorted le x l ≡ₚ x :: l.
Proof.
  induction l as [|y l IH]; cbn [insert_sorted]; [done|].
  destruct (le x y); [done|]. rewrite IH. apply Permutation_swap.
Qed.

Lemma stable_sort_perm (l : list A) : stable_sort le l ≡ₚ l.
Proof.
  induction l as [|x l IH]; [done|].
  unfold stable_sort in *. cbn [foldr]. by rewrite insert_sorted_perm, IH.
Qed.

Lemma elem_of_stable_sort (x : A) (l : list A) : x ∈ stable_sort le l <-> x ∈ l.
Proof. by rewrite stable_sort_perm. Qed.

Lemma stable_sort_nil (l : list A) : stable_sort le l = [] <-> l = [].
Proof.
  split; [|by intros ->].
  intros H. apply Permutation_nil_r. by rewrite <- H, stable_sort_perm.
Qed.

Lemma stable_sort_singleton (l : list A) (x : A) : stable_sort le l = [x] <-> l = [x].
Proof.
  split; [|by intros ->].
  intros H. apply Permutation_singleton_r. by rewrite <- H, stable_sort_perm.
Qed.

Lemma stable_sort_length (l : list A) : length (stable_sort le l) = length l.
Proof. by rewrite stable_sort_perm. Qed.

Hypothesis le_total : forall x y, le x y = false -> le y x = true.
Hypothesis le_trans : forall x y z, le x y = true -> le y z = true -> le x z = true.

Lemma insert_sorted_sorted (x : A) (l : list A) :
  StronglySorted (fun a b => le a b = true) l ->
  StronglySorted (fun a b => le a b = true) (insert_sorted le x l).
Proof.
  induction 1 as [|y l Hs IH Hall]; cbn [insert_sorted].
  - repeat constructor.
  - destruct (le x y) eqn:E.
    + constructor; [by constructor|]. constructor; [done|].
      eapply Forall_impl; [exact Hall|]. intros z Hz. by eapply le_trans.
    + constructor; [done|]. rewrite insert_sorted_perm.
      constructor; [by apply le_total | done].
Qed.

Lemma stable_sort_sorted (l : list A) :
  StronglySorted (fun a b => le a b = true) (stable_sort le l).
Proof.
  induction l as [|x l IH]; [constructor|].
  unfold stable_sort in *. cbn [foldr]. by apply insert_sorted_sorted.
Qed.

End Sorting.

Lemma StronglySorted_lookup {A} (R : A -> A -> Prop) (l : list A) i j x y :
  StronglySorted R l -> i < j -> l !! i = Some x -> l !! j = Some y -> R x y.
Proof.
  intros Hs. revert i j. induction Hs as [|z l Hs IH Hall]; intros i j Hij Hi Hj.
  - by rewrite lookup_nil in Hi.
  - destruct j as [|j]; [lia|]. cbn in Hj. destruct i as [|i].
    + cbn in Hi. injection Hi as ->.
      rewrite Forall_forall in Hall. apply Hall. by eapply list_elem_of_lookup_2.
    + cbn in Hi. eapply IH; [|done..]. lia.
Qed.

Lemma key_le_total a b : key_le a b = false -> key_le b a = true.
Proof. destruct a, b; cbn; try done. intros H. apply Z.leb_le. apply Z.leb_gt in H. lia. Qed.

Lemma key_le_trans a b c : key_le a b = true -> key_le b c = true -> key_le a c = true.
Proof.
  destruct a, b, c; cbn; try done. rewrite !Z.leb_le. lia.
Qed.

Section AliasViews.

Implicit Types (s : Store) (g t a : handle).

Lemma elem_of_alias_targets_raw s g t :
  t ∈ _alias_targets s g <-> (g, t) ∈ alias_assoc s.
Proof.
  unfold _alias_targets. rewrite list_elem_of_fmap. split.
  - intros ([a' t'] & -> & H). apply list_elem_of_filter in H as [E H].
    cbn in E. by subst.
  - intros H. exists (g, t). split; [done|]. by apply list_elem_of_filter.
Qed.

Lemma elem_of_aliases_raw s g a :
  a ∈ _aliases s g <-> (a, g) ∈ alias_assoc s.
Proof.
  unfold _aliases. rewrite list_elem_of_fmap. split.
  - intros ([a' t'] & -> & H). apply list_elem_of_filter in H as [E H].
    cbn in E. by subst.
  - intros H. exists (a, g). split; [done|]. by apply list_elem_of_filter.
Qed.

Lemma alias_targets_perm s g : alias_targets s g ≡ₚ _alias_targets s g.
Proof. apply stable_sort_perm. Qed.

Lemma elem_of_alias_targets s g t :
  t ∈ alias_targets s g <-> (g, t) ∈ alias_assoc s.
Proof. by rewrite alias_targets_perm, elem_of_alias_targets_raw. Qed.

Lemma elem_of_aliases s g a : a ∈ aliases s g <-> (a, g) ∈ alias_assoc s.
Proof.
  unfold aliases. by rewrite elem_of_stable_sort, elem_of_aliases_raw.
Qed.

Lemma alias_targets_nil s g :
  alias_targets s g = [] <-> forall t, (g, t) ∉ alias_assoc s.
Proof.
  split.
  - intros H t Ht. apply elem_of_alias_targets in Ht. rewrite H in Ht.
    by apply elem_of_nil in Ht.
  - intros H. destruct (alias_targets s g) as [|t l] eqn:E; [done|].
    exfalso. apply (H t). apply elem_of_alias_targets. rewrite E. by left.
Qed.

Lemma aliases_nil s g :
  aliases s g = [] <-> forall a, (a, g) ∉ alias_assoc s.
Proof.
  split.
  - intros H a Ha. apply elem_of_aliases in Ha. rewrite H in Ha.
    by apply elem_of_nil in Ha.
  - intros H. destruct (aliases s g) as [|a l] eqn:E; [done|].
    exfalso. apply (H a). apply elem_of_aliases. rewrite E. by left.
Qed.

Lemma nonempty_false {A} (l : list A) : nonempty l = false <-> l = [].
Proof. by destruct l. Qed.

Lemma alias_targets_sorted s g :
  StronglySorted (fun x y => key_le (pop_key s y) (pop_key s x) = true)
                 (alias_targets s g).
Proof.
  apply (stable_sort_sorted (fun x y => key_le (pop_key s y) (pop_key s x))).
  - intros x y. apply key_le_total.
  - intros x y z H1 H2. by eapply key_le_trans.
Qed.

End AliasViews.

Section MonadLaws.

Lemma bind_gets {A B} (f : Store -> A) (k : A -> M B) (s : Store) :
  (gets f ≫= k) s = k (f s) s.
Proof. reflexivity. Qed.



Lemma bind_raise {A B} (e : exn) (k : A -> M B) (s : Store) :
  (raise e ≫= k) s = (s, Raise e).
Proof. reflexivity. Qed.

Lemma bind_eq {A B} (m : M A) (k : A -> M B) (s s1 : Store) (r : outcome A) :
  m s = (s1, r) ->
  (m ≫= k) s = match r with
               | Ok a => k a s1
               | Raise e => (s1, Raise e)
               | OutOfFuel => (s1, OutOfFuel)
               end.
Proof. intros H. unfold mbind, M_bind. rewrite H. by destruct r. Qed.

End MonadLaws.

(** ** Reading the alias targets *)

Section Accessor.

Implicit Types (s : Store) (g : handle) (l : list handle).

Lemma sortable_short s l : length l <= 1 -> sortable s l = true.
Proof.
  intros H. unfold sortable. apply orb_true_iff. left. by apply Nat.leb_le.
Qed.

Lemma sortable_keys s l :
  (forall x, x ∈ l -> is_Some (pop_key s x)) -> sortable s l = true.
Proof.
  intros H. unfold sortable. apply orb_true_iff. right.
  apply forallb_forall. intros x Hx%list_elem_of_In. by apply bool_decide_eq_true, H.
Qed.

Lemma sortable_inv s l :
  sortable s l = true ->
  length l <= 1 \/ forall x, x ∈ l -> is_Some (pop_key s x).
Proof.
  unfold sortable. intros [H|H]%orb_true_iff.
  - left. by apply Nat.leb_le.
  - right. intros x Hx%list_elem_of_In.
    rewrite forallb_forall in H. specialize (H x Hx).
    by apply bool_decide_eq_true in H.
Qed.

(** A part of a list that can be sorted can be sorted. *)
Lemma sortable_sublist s l l' : l' `sublist_of` l -> sortable s l = true -> sortable s l' = true.
Proof.
  intros Hsub [H|H]%sortable_inv.
  - apply sortable_short. apply sublist_length in Hsub. lia.
  - apply sortable_keys. intros x Hx. apply H. by eapply elem_of_sublist.
Qed.

Lemma sortable_ext s s' l :
  (forall x, x ∈ l -> pop_key s' x = pop_key s x) -> sortable s' l = sortable s l.
Proof.
  intros H. unfold sortable. f_equal.
  induction l as [|x l IH]; [done|]. cbn [forallb]. rewrite H by (by left).
  f_equal. apply IH. intros y Hy. apply H. by right.
Qed.

Lemma length_alias_targets s g :
  length (alias_targets s g) = length (_alias_targets s g).
Proof. apply Permutation_length, stable_sort_perm. Qed.

Lemma sortable_few_targets s g :
  length (alias_targets s g) <= 1 -> sortable s (_alias_targets s g) = true.
Proof. rewrite length_alias_targets. apply sortable_short. Qed.

Lemma get_alias_targets_sortable s g :
  sortable s (_alias_targets s g) = true ->
  get_alias_targets g s = (s, Ok (alias_targets s g)).
Proof. intros H. unfold get_alias_targets. by rewrite H. Qed.

Lemma get_alias_targets_unsortable s g :
  sortable s (_alias_targets s g) = false ->
  get_alias_targets g s = (s, Raise TypeError).
Proof. intros H. unfold get_alias_targets. by rewrite H. Qed.

Lemma bind_get_alias_targets {B} g (k : list handle -> M B) s :
  sortable s (_alias_targets s g) = true ->
  (get_alias_targets g ≫= k) s = k (alias_targets s g) s.
Proof. intros H. unfold mbind, M_bind. by rewrite get_alias_targets_sortable. Qed.

Lemma bind_get_alias_targets_raise {B} g (k : list handle -> M B) s :
  sortable s (_alias_targets s g) = false ->
  (get_alias_targets g ≫= k) s = (s, Raise TypeError).
Proof. intros H. unfold mbind, M_bind. by rewrite get_alias_targets_unsortable. Qed.

Lemma read_targets_Ok_inv {B} g (k : list handle -> M B) s s' (b : B) :
  (get_alias_targets g ≫= k) s = (s', Ok b) ->
  sortable s (_alias_targets s g) = true /\ k (alias_targets s g) s = (s', Ok b).
Proof.
  destruct (sortable s (_alias_targets s g)) eqn:E.
  - rewrite bind_get_alias_targets by done. by split.
  - by rewrite bind_get_alias_targets_raise.
Qed.

(** What a read gives, whichever way it goes. *)
Lemma get_alias_targets_cases s g :
  (sortable s (_alias_targets s g) = true
   /\ get_alias_targets g s = (s, Ok (alias_targets s g)))
  \/ (sortable s (_alias_targets s g) = false
      /\ get_alias_targets g s = (s, Raise TypeError)).
Proof.
  destruct (sortable s (_alias_targets s g)) eqn:E.
  - left. split; [done|]. by apply get_alias_targets_sortable.
  - right. split; [done|]. by apply get_alias_targets_unsortable.
Qed.

End Accessor.




(** C10, as stated, fails: a target without a data record is put before a
    target whose record has a negative population. *)
Lemma alias_targets_negative_population :
  alias_targets targets_by_population 0 = [1; 2]
  /\ geo_data targets_by_population 1 = None
  /\ (exists d, geo_data targets_by_population 2 = Some d).
Proof. split; [reflexivity|]. split; [reflexivity|]. eexists. reflexivity. Qed.

(** C10, amended: when the data records of the targets of a geo hold a
    population that is set and not negative, [alias_targets] returns the
    targets, a target with a data record never comes after one without or
    after one with a smaller population, and the parent the matcher
    redescends to is a target whose population is the highest. *)
Theorem alias_targets_by_population (s : Store) (g : handle) :
  (forall t d, t ∈ _alias_targets s g -> geo_data s t = Some d ->
               exists p, total_pop d = Some p /\ (0 <= p)%Z) ->
  alias_targets s g ≡ₚ _alias_targets s g
  /\ (forall i j x y dy py,
        i < j ->
        alias_targets s g !! i = Some x ->
        alias_targets s g !! j = Some y ->
        geo_data s y = Some dy -> total_pop dy = Some py ->
        exists dx px, geo_data s x = Some dx /\ total_pop dx = Some px
                      /\ (py <= px)%Z)
  /\ (forall t,
        _alias_targets s g <> [] ->
        find_component_matches_parent s (Some g) = Some t ->
        t ∈ _alias_targets s g
        /\ forall u du pu,
             u ∈ _alias_targets s g ->
             geo_data s u = Some du -> total_pop du = Some pu ->
             exists dt pt, geo_data s t = Some dt /\ total_pop dt = Some pt
                           /\ (pu <= pt)%Z).
Proof.
  intros Hpop.
  assert (Hkey : forall x y dy py,
             x ∈ _alias_targets s g ->
             key_le (pop_key s y) (pop_key s x) = true ->
             geo_data s y = Some dy -> total_pop dy = Some py ->
             (0 <= py)%Z ->
             exists dx px, geo_data s x = Some dx /\ total_pop dx = Some px
                           /\ (py <= px)%Z).
  { intros x y dy py Hx Hle Hy Hpy Hnn. unfold pop_key in Hle.
    rewrite Hy, Hpy in Hle. destruct (geo_data s x) as [dx|] eqn:Ex.
    - destruct (Hpop x dx Hx Ex) as (px & Epx & _). rewrite Epx in Hle.
      cbn in Hle. apply Z.leb_le in Hle. by exists dx, px.
    - cbn in Hle. apply Z.leb_le in Hle. lia. }
  split; [apply alias_targets_perm|]. split.
  - intros i j x y dy py Hij Hi Hj Hy Hpy.
    assert (Hx : x ∈ _alias_targets s g).
    { rewrite <- alias_targets_perm. by eapply list_elem_of_lookup_2. }
    assert (Hyin : y ∈ _alias_targets s g).
    { rewrite <- alias_targets_perm. by eapply list_elem_of_lookup_2. }
    destruct (Hpop y dy Hyin Hy) as (p & Ep & Hp).
    assert (p = py) as -> by congruence.
    eapply Hkey; [done| |done..].
    exact (StronglySorted_lookup _ _ _ _ _ _ (alias_targets_sorted s g) Hij Hi Hj).
  - intros t Hne Ht. cbn [find_component_matches_parent] in Ht.
    destruct (alias_targets s g) as [|t0 l] eqn:E.
    { exfalso. apply Hne. apply Permutation_nil_r.
      by rewrite <- alias_targets_perm, E. }
    injection Ht as ->.
    assert (Hin : t ∈ _alias_targets s g).
    { rewrite <- alias_targets_perm, E. by left. }
    split; [done|]. intros u du pu Hu Hdu Hpu.
    destruct (Hpop u du Hu Hdu) as (p & Ep & Hp).
    assert (p = pu) as -> by congruence.
    rewrite <- alias_targets_perm, E in Hu.
    apply elem_of_cons in Hu as [->|Hu].
    + exists du, pu. repeat split; [done..|lia].
    + eapply Hkey; [done| |done..].
      pose proof (alias_targets_sorted s g) as Hs. rewrite E in Hs.
      apply StronglySorted_inv in Hs as [_ Hall].
      rewrite Forall_forall in Hall. by apply Hall.
Qed.

Lemma alias_targets_by_population_witness :
  alias_targets alias_of_three 0 = [3; 2; 1]
  /\ find_component_matches_parent alias_of_three (Some 0) = Some 3
  /\ alias_targets alias_of_three 0 ≡ₚ _alias_targets alias_of_three 0.
Proof.
  split; [reflexivity|]. split; [reflexivity|].
  apply (alias_targets_by_population alias_of_three 0).
  intros t d Ht Hd.
  change (_alias_targets alias_of_three 0) with [1; 2; 3] in Ht.
  apply elem_of_cons in Ht as [->|Ht]; [vm_compute in Hd; discriminate Hd|].
  apply elem_of_cons in Ht as [->|Ht].
  { vm_compute in Hd. injection Hd as <-. exists 7%Z. split; [reflexivity|lia]. }
  apply elem_of_cons in Ht as [->|Ht].
  { vm_compute in Hd. injection Hd as <-. exists 100%Z. split; [reflexivity|lia]. }
  by apply elem_of_nil in Ht.
Defined.

(** C7: on the list [[alias; target]] the code keeps the alias and drops
    its target, where the pruning the claim describes drops the alias and
    keeps the target: [del matches[-1]] deletes the last element of the
    list, whatever the redundant alias is. *)
Theorem remove_redundant_aliases_drops_last :
  remove_redundant_aliases alias_and_target [0; 1] = [0]
  /\ prune_redundant_aliases alias_and_target [0; 1] = [1]
  /\ alias_targets alias_and_target 0 = [1]
  /\ alias_targets alias_and_target 1 = [].
Proof. repeat split; reflexivity. Qed.

(** ** Alias exclusivity *)

Section Preservation.


Context (I : Store -> Prop).

Lemma preserves_ret {A} (a : A) : preserves I (mret a).
Proof. by intros s. Qed.

Lemma preserves_raise {A} (e : exn) : preserves I (raise e : M A).
Proof. by intros s. Qed.

Lemma preserves_out_of_fuel {A} : preserves I (out_of_fuel : M A).
Proof. by intros s. Qed.

Lemma preserves_gets {A} (f : Store -> A) : preserves I (gets f).
Proof. by intros s. Qed.

Lemma preserves_modify (f : Store -> Store) :
  (forall s, I s -> I (f s)) -> preserves I (modify f).
Proof. intros H s Hs. by apply H. Qed.

Lemma preserves_bind {A B} (m : M A) (k : A -> M B) :
  preserves I m -> (forall a, preserves I (k a)) -> preserves I (m ≫= k).
Proof.
  intros Hm Hk s Hs. unfold mbind, M_bind.
  specialize (Hm s Hs). destruct (m s) as [s1 [a|e|]]; cbn in *; [|done..].
  by apply Hk.
Qed.

Lemma preserves_bind_gets {A B} (f : Store -> A) (k : A -> M B) :
  (forall s, I s -> I (k (f s) s).1) -> preserves I (gets f ≫= k).
Proof. intros H s Hs. rewrite bind_gets. by apply H. Qed.

Lemma preserves_for_each {A} (l : list A) (f : A -> M unit) :
  (forall x, preserves I (f x)) -> preserves I (for_each l f).
Proof.
  intros Hf. induction l as [|x l IH]; cbn [for_each].
  - apply preserves_ret.
  - apply preserves_bind; [apply Hf | intros _; apply IH].
Qed.

Lemma preserves_get_geo (h : handle) : preserves I (get_geo h).
Proof. intros s Hs. unfold get_geo. by destruct (geos s !! h). Qed.

Lemma preserves_get_alias_targets (g : handle) : preserves I (get_alias_targets g).
Proof.
  intros s Hs. unfold get_alias_targets.
  by destruct (sortable s (_alias_targets s g)).
Qed.

(** A read of the alias targets in front of [k]: the store stays, and [k]
    runs on the sorted targets when the sort returns. *)
Lemma read_targets_inv {B} (g : handle) (k : list handle -> M B) (s : Store) :
  I s ->
  (sortable s (_alias_targets s g) = true -> I (k (alias_targets s g) s).1) ->
  I ((get_alias_targets g ≫= k) s).1.
Proof.
  intros Hs Hk. destruct (sortable s (_alias_targets s g)) eqn:E.
  - rewrite bind_get_alias_targets by done. by apply Hk.
  - by rewrite bind_get_alias_targets_raise.
Qed.

Lemma preserves_bind_get_alias_targets {B} (g : handle) (k : list handle -> M B) :
  (forall s, I s -> I (k (alias_targets s g) s).1) ->
  preserves I (get_alias_targets g ≫= k).
Proof. intros H s Hs. apply read_targets_inv; [done|]. intros _. by apply H. Qed.

End Preservation.

(** From the goal at a state to the computation. *)
Ltac at_state :=
  lazymatch goal with
  | Hs : ?I ?s |- ?I (?m ?s).1 =>
      cut (preserves I m); [intros Hp; exact (Hp s Hs)|]
  end.

Section Frames.


Lemma transfer_attr_alias_rows s0 self geo attr :
  preserves (same_alias_rows s0) (transfer_attr self geo attr).
Proof.
  unfold transfer_attr. apply preserves_bind_gets. intros s Hs.
  destruct (attr_held s self attr); [|done].
  rewrite bind_gets. destruct (attr_held s geo attr); [done|].
  unfold same_alias_rows in *. by destruct attr.
Qed.

Lemma transfer_references_alias_rows self geo s :
  alias_assoc (transfer_references self geo s).1 = alias_assoc s.
Proof.
  apply (preserves_for_each (same_alias_rows s)); [|done].
  intros attr. apply transfer_attr_alias_rows.
Qed.

End Frames.

Section Exclusivity.

Implicit Types (t : list (handle * handle)) (s : Store).


Lemma Exclusive_rows s : Exclusive s <-> Excl (alias_assoc s).
Proof.
  unfold Exclusive, Excl. split.
  - intros H a b c Hab Hca. destruct (H a) as [E|E].
    + by eapply alias_targets_nil in E.
    + by eapply aliases_nil in E.
  - intros H g. destruct (alias_targets s g) as [|b l] eqn:E; [by left|].
    right. apply aliases_nil. intros c Hc. eapply H; [|exact Hc].
    apply elem_of_alias_targets. rewrite E. by left.
Qed.

Lemma elem_of_remove_first {A} `{EqDecision A} (x y : A) (l : list A) :
  y ∈ remove_first x l -> y ∈ l.
Proof.
  induction l as [|z l IH]; cbn [remove_first]; [done|].
  case_decide; [by right|].
  intros [->|Hy]%elem_of_cons; [by left|right; by apply IH].
Qed.

Lemma Excl_remove_first t e : Excl t -> Excl (remove_first e t).
Proof.
  intros H a b c Hab Hca.
  apply elem_of_remove_first in Hab, Hca. exact (H a b c Hab Hca).
Qed.

Lemma Excl_append t x y :
  Excl t -> x <> y -> (forall c, (c, x) ∉ t) -> (forall b, (y, b) ∉ t) ->
  Excl (t ++ [(x, y)]).
Proof.
  intros H Hne Hx Hy a b c Hab Hca.
  apply elem_of_app in Hab as [Hab|Hab], Hca as [Hca|Hca].
  - exact (H a b c Hab Hca).
  - apply list_elem_of_singleton in Hca. injection Hca as -> ->. exact (Hy b Hab).
  - apply list_elem_of_singleton in Hab. injection Hab as -> ->. exact (Hx c Hca).
  - apply list_elem_of_singleton in Hab, Hca. congruence.
Qed.


Lemma remove_alias_target_Excl self target :
  preserves ExclS (remove_alias_target self target).
Proof.
  unfold remove_alias_target. apply preserves_bind_gets. intros s Hs.
  case_decide; [|done]. by apply Excl_remove_first.
Qed.

Lemma alias_targets_setter_Excl add self new_targets :
  (forall a b, preserves ExclS (add a b)) ->
  preserves ExclS (alias_targets_setter add self new_targets).
Proof.
  intros Hadd. unfold alias_targets_setter. apply preserves_bind_gets.
  intros s Hs. at_state. apply preserves_bind.
  - apply preserves_for_each. intros x. apply remove_alias_target_Excl.
  - intros _. apply preserves_for_each. intros x. apply Hadd.
Qed.

Lemma aliases_setter_Excl add self new_aliases :
  (forall a b, preserves ExclS (add a b)) ->
  preserves ExclS (aliases_setter add self new_aliases).
Proof.
  intros Hadd. unfold aliases_setter. apply preserves_bind_gets.
  intros s Hs. at_state. apply preserves_bind.
  - apply preserves_for_each. intros x. apply remove_alias_target_Excl.
  - intros _. apply preserves_for_each. intros x. apply Hadd.
Qed.

Lemma promote_body_Excl add self :
  (forall a b, preserves ExclS (add a b)) ->
  preserves ExclS (promote_body add self).
Proof.
  intros Hadd. unfold promote_body. apply preserves_bind_get_alias_targets.
  intros s Hs.
  destruct (alias_targets s self) as [|tgt [|? ?]]; [done| |done].
  apply read_targets_inv; [done|]. intros _.
  destruct (nonempty (alias_targets s tgt)); [done|].
  at_state. apply preserves_bind.
  { by apply alias_targets_setter_Excl. }
  intros _. apply preserves_bind_gets. clear s Hs. intros s Hs. at_state.
  apply preserves_bind; [|intros _; apply Hadd].
  apply preserves_for_each. intros x.
  apply preserves_bind; [apply remove_alias_target_Excl | intros _; apply Hadd].
Qed.

(** The last step of [add_alias_target]: the transfer, then the new row. *)
Lemma add_row_Excl s self target (m : M unit) :
  (forall s', alias_assoc (m s').1 = alias_assoc s') ->
  ExclS s -> target <> self ->
  aliases s self = [] -> alias_targets s target = [] ->
  ExclS ((m ;; append_alias_target self target) s).1.
Proof.
  intros Hm Hs Hne Hal Hts. specialize (Hm s).
  unfold mbind, M_bind, ExclS in *.
  destruct (m s) as [s1 [[]|e|]]; cbn [fst] in Hm |- *;
    [|by rewrite Hm..].
  unfold append_alias_target, modify, with_alias_assoc. cbn [fst alias_assoc].
  rewrite Hm.
  apply Excl_append; [done|congruence| |].
  - by apply aliases_nil.
  - by apply alias_targets_nil.
Qed.

Lemma add_alias_target_Excl fuel self target :
  preserves ExclS (add_alias_target fuel self target).
Proof.
  revert self target. induction fuel as [|fuel IH]; intros self target.
  { apply preserves_out_of_fuel. }
  cbn [add_alias_target]. case_decide; [apply preserves_raise|].
  apply preserves_bind_get_alias_targets. intros s Hs.
  case_decide; [done|]. rewrite bind_gets.
  destruct (nonempty (aliases s self)) eqn:Eal.
  - case_decide.
    + by apply promote_body_Excl.
    + at_state.
      apply preserves_bind; [|intros _; apply IH].
      apply preserves_for_each. intros x.
      apply preserves_bind; [apply remove_alias_target_Excl | intros _; apply IH].
  - apply read_targets_inv; [done|]. intros _.
    destruct (nonempty (alias_targets s target)) eqn:Ets; [done|].
    apply nonempty_false in Eal, Ets.
    apply add_row_Excl; [|done..].
    intros s'. destruct (nonempty (alias_targets s self)); [done|].
    apply transfer_references_alias_rows.
Qed.

Lemma update_geo_Excl h f : preserves ExclS (update_geo h f).
Proof. by apply preserves_modify. Qed.

Lemma create_key_under_Excl n a q pp : preserves ExclS (create_key_under n a q pp).
Proof.
  destruct pp as [p|]; cbn [create_key_under]; [|apply preserves_ret].
  apply preserves_bind; [apply preserves_get_geo|].
  intros pg. destruct (human_id pg); [apply preserves_ret | apply preserves_raise].
Qed.

Lemma register_update_Excl self key : preserves ExclS (register_update self key).
Proof.
  unfold register_update. apply preserves_bind; [apply preserves_get_geo|].
  intros g. case_decide; [apply preserves_ret|].
  apply preserves_bind_gets. intros s Hs.
  destruct (bool_decide _); [done|]. at_state.
  apply preserves_bind; [apply update_geo_Excl | intros _; apply preserves_ret].
Qed.

Lemma human_id_setter_Excl validate fuel self val :
  preserves ExclS (human_id_setter validate fuel self val).
Proof.
  revert self val. induction fuel as [|fuel IH]; intros self val.
  { apply preserves_out_of_fuel. }
  cbn [human_id_setter]. destruct val as [v|]; [|apply preserves_raise].
  apply preserves_bind.
  { destruct (validate v); [apply preserves_ret | apply preserves_raise]. }
  intros _. apply preserves_bind; [apply preserves_get_geo|]. intros g.
  destruct (human_id g) as [k|]; [|apply update_geo_Excl].
  apply preserves_bind; [apply register_update_Excl|].
  intros [|]; [|apply preserves_ret].
  apply preserves_bind_gets. intros s Hs. at_state.
  apply preserves_for_each. intros pc.
  apply preserves_bind; [apply preserves_get_geo|]. intros pcg.
  apply preserves_bind; [apply preserves_get_alias_targets|]. intros _.
  apply preserves_bind; [apply create_key_under_Excl|]. intros key. apply IH.
Qed.

Lemma Geo_init_Excl validate fuel n a q pp ats als ps cs d ls :
  preserves ExclS (Geo_init validate fuel n a q pp ats als ps cs d ls).
Proof.
  unfold Geo_init. apply preserves_bind_gets. intros s Hs. at_state.
  apply preserves_bind; [by apply preserves_modify|]. intros _.
  apply preserves_bind.
  { destruct (_ && _); [apply preserves_raise | apply preserves_ret]. }
  intros _. apply preserves_bind.
  { apply alias_targets_setter_Excl. intros x y. apply add_alias_target_Excl. }
  intros _. apply preserves_bind.
  { apply aliases_setter_Excl. intros x y. apply add_alias_target_Excl. }
  intros _. apply preserves_bind; [apply preserves_get_alias_targets|].
  intros _. apply preserves_bind; [apply create_key_under_Excl|]. intros key.
  apply preserves_bind; [apply human_id_setter_Excl|]. intros _.
  apply preserves_bind; [by apply preserves_modify|]. intros _.
  apply preserves_bind; [by apply preserves_modify|]. intros _.
  apply preserves_bind; [apply update_geo_Excl|]. intros _.
  apply preserves_bind; [apply update_geo_Excl|]. intros _.
  apply preserves_ret.
Qed.

End Exclusivity.

(** C4: alias exclusivity is kept by the construction of a geo, by
    [add_alias_target], by [remove_alias_target] and by
    [promote_to_alias_target], whether they return, raise or run out of
    fuel: in the store they leave, no geo has both alias targets and
    aliases. *)
Theorem alias_exclusivity_preserved (s : Store) :
  Exclusive s ->
  (forall validate fuel n a q pp ats als ps cs d ls,
      Exclusive (Geo_init validate fuel n a q pp ats als ps cs d ls s).1)
  /\ (forall fuel self target,
        Exclusive (add_alias_target fuel self target s).1)
  /\ (forall self target, Exclusive (remove_alias_target self target s).1)
  /\ (forall fuel self, Exclusive (promote_to_alias_target fuel self s).1).
Proof.
  intros Hs. apply Exclusive_rows in Hs. repeat split; intros;
    apply Exclusive_rows.
  - by apply Geo_init_Excl.
  - by apply add_alias_target_Excl.
  - by apply remove_alias_target_Excl.
  - apply promote_body_Excl; [|done]. intros x y. apply add_alias_target_Excl.
Qed.

Lemma alias_exclusivity_preserved_witness :
  Exclusive alias_and_target
  /\ Exclusive (add_alias_target 3 2 0 alias_and_target).1
  /\ Exclusive (promote_to_alias_target 3 0 alias_and_target).1.
Proof.
  assert (H : Exclusive alias_and_target).
  { intros [|[|g]]; [by right | by left | by left]. }
  destruct (alias_exclusivity_preserved alias_and_target H) as (_ & Hadd & _ & Hpro).
  split; [exact H|]. split; [apply Hadd | apply Hpro].
Defined.

(** ** Reference transfer *)

Section Transfer.

Implicit Types (s : Store) (self geo g : handle) (attr : RefAttr).

Lemma elem_of_parents s g p : p ∈ parents s g <-> (p, g) ∈ parent_child_assoc s.
Proof.
  unfold parents. rewrite list_elem_of_fmap. split.
  - intros ([a b] & -> & H). apply list_elem_of_filter in H as [E H].
    cbn in E. by subst.
  - intros H. exists (p, g). split; [done|]. by apply list_elem_of_filter.
Qed.

Lemma elem_of_children s g c : c ∈ children s g <-> (g, c) ∈ parent_child_assoc s.
Proof.
  unfold children. rewrite list_elem_of_fmap. split.
  - intros ([a b] & -> & H). apply list_elem_of_filter in H as [E H].
    cbn in E. by subst.
  - intros H. exists (g, c). split; [done|]. by apply list_elem_of_filter.
Qed.

Lemma nonempty_true {A} (l : list A) : nonempty l = true <-> exists x, x ∈ l.
Proof.
  destruct l as [|x l]; cbn; split; try done.
  - intros [x Hx]. by apply elem_of_nil in Hx.
  - intros _. exists x. by left.
Qed.

Lemma held_PARENTS s g :
  attr_held s g PARENTS = true <-> exists p, (p, g) ∈ parent_child_assoc s.
Proof.
  cbn [attr_held]. rewrite nonempty_true.
  split; intros [p Hp]; exists p; by apply elem_of_parents.
Qed.

Lemma held_CHILDREN s g :
  attr_held s g CHILDREN = true <-> exists c, (g, c) ∈ parent_child_assoc s.
Proof.
  cbn [attr_held]. rewrite nonempty_true.
  split; intros [c Hc]; exists c; by apply elem_of_children.
Qed.

Lemma elem_of_move_PARENTS s self geo x y :
  (x, y) ∈ parent_child_assoc (move_attr PARENTS self geo s) <->
  y <> self /\ (((x, y) ∈ parent_child_assoc s /\ y <> geo)
               \/ (y = geo /\ (x, self) ∈ parent_child_assoc s)).
Proof.
  cbn [move_attr set_parents with_parent_child_assoc parent_child_assoc].
  rewrite app_nil_r, list_elem_of_filter, elem_of_app, list_elem_of_filter.
  cbn [snd]. rewrite list_elem_of_fmap. split.
  - intros [Hy [[Hg H]|(p & E & Hp)]]; (split; [done|]).
    + by left.
    + injection E as -> ->. right. split; [done|]. by apply elem_of_parents.
  - intros [Hy [[H Hg]|[-> H]]]; (split; [done|]).
    + by left.
    + right. exists x. split; [done|]. by apply elem_of_parents.
Qed.

Lemma elem_of_move_CHILDREN s self geo x y :
  (x, y) ∈ parent_child_assoc (move_attr CHILDREN self geo s) <->
  x <> self /\ (((x, y) ∈ parent_child_assoc s /\ x <> geo)
               \/ (x = geo /\ (self, y) ∈ parent_child_assoc s)).
Proof.
  cbn [move_attr set_children with_parent_child_assoc parent_child_assoc].
  rewrite app_nil_r, list_elem_of_filter, elem_of_app, list_elem_of_filter.
  cbn [fst]. rewrite list_elem_of_fmap. split.
  - intros [Hy [[Hg H]|(p & E & Hp)]]; (split; [done|]).
    + by left.
    + injection E as -> ->. right. split; [done|]. by apply elem_of_children.
  - intros [Hy [[H Hg]|[-> H]]]; (split; [done|]).
    + by left.
    + right. exists y. split; [done|]. by apply elem_of_children.
Qed.

Lemma geo_data_set_levels s h v g :
  geo_data (with_geos (alter (set_levels v) h) s) g = geo_data s g.
Proof.
  unfold geo_data, with_geos. cbn [geos].
  destruct (decide (h = g)) as [->|Hne].
  - rewrite list_lookup_alter_eq. by destruct (geos s !! g).
  - by rewrite list_lookup_alter_ne.
Qed.

Lemma geo_levels_set_data s h v g :
  geo_levels (with_geos (alter (set_data v) h) s) g = geo_levels s g.
Proof.
  unfold geo_levels, with_geos. cbn [geos].
  destruct (decide (h = g)) as [->|Hne].
  - rewrite list_lookup_alter_eq. by destruct (geos s !! g).
  - by rewrite list_lookup_alter_ne.
Qed.

(** A move leaves what any geo holds of the other attributes in place. *)
Lemma held_kept s self geo g attr0 attr :
  self <> geo -> attr_held s geo attr0 = false -> attr <> attr0 ->
  attr_held s g attr = true ->
  attr_held (move_attr attr0 self geo s) g attr = true.
Proof.
  intros Hne Hgeo Hattr Hheld.
  destruct attr0, attr; try done.
  - apply held_CHILDREN in Hheld as [c Hc]. apply held_CHILDREN.
    assert (Hcg : c <> geo).
    { intros ->. apply not_true_iff_false in Hgeo. apply Hgeo.
      apply held_PARENTS. by exists g. }
    destruct (decide (c = self)) as [->|Hcs].
    + exists geo. apply elem_of_move_PARENTS. split; [done|]. by right.
    + exists c. apply elem_of_move_PARENTS. split; [done|]. by left.
  - apply held_PARENTS in Hheld as [p Hp]. apply held_PARENTS.
    assert (Hpg : p <> geo).
    { intros ->. apply not_true_iff_false in Hgeo. apply Hgeo.
      apply held_CHILDREN. by exists g. }
    destruct (decide (p = self)) as [->|Hps].
    + exists geo. apply elem_of_move_CHILDREN. split; [done|]. by right.
    + exists p. apply elem_of_move_CHILDREN. split; [done|]. by left.
  - cbn [attr_held move_attr] in *. by rewrite !geo_levels_set_data.
  - cbn [attr_held move_attr] in *. by rewrite !geo_data_set_levels.
Qed.

(** A move gives the receiver nothing of the other attributes. *)
Lemma unheld_kept s self geo attr0 attr :
  self <> geo -> attr <> attr0 ->
  attr_held s geo attr = false ->
  attr_held (move_attr attr0 self geo s) geo attr = false.
Proof.
  intros Hne Hattr Hun. apply not_true_iff_false.
  apply not_true_iff_false in Hun. intros Hheld. apply Hun. clear Hun.
  destruct attr0, attr; try done.
  - apply held_CHILDREN in Hheld as [c Hc]. apply held_CHILDREN.
    apply elem_of_move_PARENTS in Hc as [_ [[Hc _]|[_ Hc]]]; eauto.
  - apply held_PARENTS in Hheld as [p Hp]. apply held_PARENTS.
    apply elem_of_move_CHILDREN in Hp as [_ [[Hp _]|[_ Hp]]]; eauto.
  - cbn [attr_held move_attr] in *. by rewrite !geo_levels_set_data in Hheld.
  - cbn [attr_held move_attr] in *. by rewrite !geo_data_set_levels in Hheld.
Qed.

Lemma transfer_attr_eq s self geo attr :
  transfer_attr self geo attr s =
  if attr_held s self attr
  then if attr_held s geo attr
       then (s, Raise AttributeConflict)
       else (move_attr attr self geo s, Ok tt)
  else (s, Ok tt).
Proof.
  unfold transfer_attr. rewrite bind_gets.
  destruct (attr_held s self attr); [|done].
  rewrite bind_gets. by destruct (attr_held s geo attr).
Qed.

Lemma for_each_cons {A} (x : A) (l : list A) (f : A -> M unit) s :
  for_each (x :: l) f s =
  match f x s with
  | (s1, Ok _) => for_each l f s1
  | (s1, Raise e) => (s1, Raise e)
  | (s1, OutOfFuel) => (s1, OutOfFuel)
  end.
Proof. reflexivity. Qed.

Lemma transfer_loop_conflict attrs s self geo :
  NoDup attrs -> self <> geo ->
  (exists attr, attr ∈ attrs /\ attr_held s self attr = true
                /\ attr_held s geo attr = true) ->
  (for_each attrs (transfer_attr self geo) s).2 = Raise AttributeConflict.
Proof.
  intros Hnd Hne. revert s.
  induction Hnd as [|attr0 attrs Hnotin Hnd IH]; intros s (attr & Hin & Hs & Hg).
  { by apply elem_of_nil in Hin. }
  rewrite for_each_cons, transfer_attr_eq.
  destruct (attr_held s self attr0) eqn:E0.
  - destruct (attr_held s geo attr0) eqn:G0; [done|].
    assert (attr <> attr0) by congruence.
    apply IH. exists attr. apply elem_of_cons in Hin as [?|Hin]; [done|].
    split; [done|]. split; by apply held_kept.
  - apply IH. exists attr.
    apply elem_of_cons in Hin as [?|Hin]; [congruence|done].
Qed.

Lemma transfer_loop_all_held attrs s self geo :
  (exists attr, attr ∈ attrs /\ attr_held s self attr = true) ->
  (forall attr, attr_held s self attr = true -> attr_held s geo attr = true) ->
  for_each attrs (transfer_attr self geo) s = (s, Raise AttributeConflict).
Proof.
  intros Hex Hall. induction attrs as [|attr0 attrs IH].
  { destruct Hex as (attr & Hin & _). by apply elem_of_nil in Hin. }
  rewrite for_each_cons, transfer_attr_eq.
  destruct (attr_held s self attr0) eqn:E0.
  - by rewrite (Hall attr0 E0).
  - apply IH. destruct Hex as (attr & Hin & Hs). exists attr.
    apply elem_of_cons in Hin as [->|Hin]; [congruence|done].
Qed.

Lemma transfer_loop_ok attrs s self geo :
  NoDup attrs -> self <> geo ->
  (forall attr, attr ∈ attrs -> attr_held s geo attr = false) ->
  (for_each attrs (transfer_attr self geo) s).2 = Ok tt.
Proof.
  intros Hnd Hne. revert s.
  induction Hnd as [|attr0 attrs Hnotin Hnd IH]; intros s Hun; [done|].
  rewrite for_each_cons, transfer_attr_eq.
  destruct (attr_held s self attr0) eqn:E0.
  - rewrite Hun by left. apply IH. intros attr Hin.
    apply unheld_kept; [done| |apply Hun; by right]. congruence.
  - apply IH. intros attr Hin. apply Hun. by right.
Qed.

Lemma NoDup_attributes : NoDup attributes.
Proof.
  unfold attributes.
  repeat (apply NoDup_cons; split;
          [rewrite ?elem_of_cons, elem_of_nil; intuition discriminate|]).
  apply NoDup_nil_2.
Qed.

Lemma elem_of_attributes attr : attr ∈ attributes.
Proof. unfold attributes. destruct attr; rewrite !elem_of_cons; tauto. Qed.

Lemma transfer_references_none s self geo :
  holds_no_references s self -> transfer_references self geo s = (s, Ok tt).
Proof.
  intros H. unfold transfer_references.
  induction attributes as [|attr attrs IH]; [done|].
  by rewrite for_each_cons, transfer_attr_eq, H.
Qed.

(** [add_alias_target] of a geo without aliases on a geo that is not an
    alias and not yet a target of it. *)
Lemma add_alias_target_direct fuel s self target :
  target <> self -> target ∉ alias_targets s self ->
  aliases s self = [] -> alias_targets s target = [] ->
  sortable s (_alias_targets s self) = true ->
  add_alias_target (S fuel) self target s =
  ((if nonempty (alias_targets s self) then mret tt
    else transfer_references self target) ;;
   append_alias_target self target) s.
Proof.
  intros Hne Hnotin Hal Hts Hsort. cbn [add_alias_target].
  rewrite decide_False by done. rewrite bind_get_alias_targets by done.
  rewrite decide_False by done. rewrite bind_gets, Hal. cbn [nonempty].
  rewrite bind_get_alias_targets
    by (apply sortable_few_targets; rewrite Hts; cbn; lia).
  rewrite Hts. reflexivity.
Qed.

End Transfer.

(** C5, as stated, fails: the geo [2] holds a parent and a child, the geo
    [3] holds a child; [add_alias_target] raises on the children, after the
    parent of [2] has become a parent of [3] (parents come before children
    in the order of Python 3 and in that of CPython 2.7). *)
Lemma transfer_not_all_or_nothing :
  let s := parents_then_conflict in
  let r := add_alias_target 1 2 3 s in
  attr_held s 2 CHILDREN = true /\ attr_held s 3 CHILDREN = true
  /\ r.2 = Raise AttributeConflict
  /\ parents s 2 = [0] /\ parents r.1 2 = []
  /\ parents s 3 = [] /\ parents r.1 3 = [0].
Proof. repeat split; reflexivity. Qed.

(** C5, amended: when a geo [A] that is neither an alias nor a target is
    made an alias of another geo [B] that is not an alias, and [B] holds a
    transferred attribute that [A] holds too, [add_alias_target] raises
    [AttributeConflict] and adds no alias row; the store is left as it was
    when [B] holds every transferred attribute that [A] holds. *)
Theorem add_alias_target_conflict (fuel : nat) (s : Store) (A B : handle) :
  A <> B ->
  alias_targets s A = [] -> aliases s A = [] -> alias_targets s B = [] ->
  (exists attr, attr_held s A attr = true /\ attr_held s B attr = true) ->
  (add_alias_target (S fuel) A B s).2 = Raise AttributeConflict
  /\ alias_assoc (add_alias_target (S fuel) A B s).1 = alias_assoc s
  /\ ((forall attr, attr_held s A attr = true -> attr_held s B attr = true) ->
      (add_alias_target (S fuel) A B s).1 = s).
Proof.
  intros Hne HA Hal HB (attr & HhA & HhB).
  rewrite add_alias_target_direct;
    [|congruence|by rewrite HA; apply not_elem_of_nil|done|done
     |by apply sortable_few_targets; rewrite HA; cbn; lia].
  rewrite HA. cbn [nonempty].
  assert (Hraise : (transfer_references A B s).2 = Raise AttributeConflict).
  { apply transfer_loop_conflict; [apply NoDup_attributes|done|].
    exists attr. split; [apply elem_of_attributes|done]. }
  pose proof (transfer_references_alias_rows A B s) as Hrows.
  unfold mbind, M_bind.
  destruct (transfer_references A B s) as [s1 r] eqn:E. cbn [fst snd] in *.
  subst r. split_and!; [done..|].
  intros Hall. unfold transfer_references in E.
  rewrite (transfer_loop_all_held attributes s A B) in E; [by injection E as <-| |done].
  exists attr. split; [apply elem_of_attributes|done].
Qed.

Lemma add_alias_target_conflict_witness :
  (add_alias_target 1 1 2 children_conflict).2 = Raise AttributeConflict
  /\ alias_assoc (add_alias_target 1 1 2 children_conflict).1
     = alias_assoc children_conflict
  /\ (add_alias_target 1 1 2 children_conflict).1 = children_conflict.
Proof.
  destruct (add_alias_target_conflict 0 children_conflict 1 2) as (H1 & H2 & H3);
    [lia | reflexivity | reflexivity | reflexivity | |].
  - exists CHILDREN. split; reflexivity.
  - split; [exact H1|]. split; [exact H2|].
    apply H3. intros attr. by destruct attr.
Defined.

(** ** Promotion of an alias *)

Section Promotion.

Implicit Types (s : Store) (t : list (handle * handle)).

Lemma elem_of_remove_first_ne {A} `{EqDecision A} (x y : A) (l : list A) :
  y ∈ l -> y <> x -> y ∈ remove_first x l.
Proof.
  induction l as [|z l IH]; cbn [remove_first]; [done|].
  intros Hin Hne. case_decide as E.
  - apply elem_of_cons in Hin as [->|Hin]; [congruence|done].
  - apply elem_of_cons in Hin as [->|Hin]; [by left|right; by apply IH].
Qed.

Lemma NoDup_remove_first {A} `{EqDecision A} (x : A) (l : list A) :
  NoDup l -> NoDup (remove_first x l) /\ x ∉ remove_first x l.
Proof.
  induction 1 as [|z l Hz Hnd [IH1 IH2]]; cbn [remove_first].
  { split; [constructor | apply not_elem_of_nil]. }
  case_decide as E.
  - subst. done.
  - split.
    + constructor; [|done]. intros Hin. by apply elem_of_remove_first in Hin.
    + intros [->|Hin]%elem_of_cons; [done|]. by apply IH2.
Qed.

Lemma elem_of_remove_first_NoDup {A} `{EqDecision A} (x y : A) (l : list A) :
  NoDup l -> y ∈ remove_first x l <-> y ∈ l /\ y <> x.
Proof.
  intros Hnd. split.
  - intros Hin. split; [by eapply elem_of_remove_first|].
    intros ->. by apply (NoDup_remove_first x l) in Hnd as [_ ?].
  - intros [? ?]. by apply elem_of_remove_first_ne.
Qed.

Lemma row_eq (a b c d : handle) : (a, b) = (c, d) <-> a = c /\ b = d.
Proof. split; [by intros [= -> ->] | by intros [-> ->]]. Qed.

Lemma NoDup_aliases_raw s g : NoDup (alias_assoc s) -> NoDup (_aliases s g).
Proof.
  intros Hnd. unfold _aliases. apply NoDup_fmap_2_strong.
  - intros [a b] [a' b'] [Hb _]%list_elem_of_filter [Hb' _]%list_elem_of_filter E.
    cbn in *. congruence.
  - by apply NoDup_filter.
Qed.

Lemma NoDup_alias_targets_raw s g : NoDup (alias_assoc s) -> NoDup (_alias_targets s g).
Proof.
  intros Hnd. unfold _alias_targets. apply NoDup_fmap_2_strong.
  - intros [a b] [a' b'] [Hb _]%list_elem_of_filter [Hb' _]%list_elem_of_filter E.
    cbn in *. congruence.
  - by apply NoDup_filter.
Qed.

Lemma NoDup_aliases s g : NoDup (alias_assoc s) -> NoDup (aliases s g).
Proof.
  intros Hnd. unfold aliases. rewrite stable_sort_perm. by apply NoDup_aliases_raw.
Qed.

Lemma NoDup_singleton_eq {A} (l : list A) (a : A) :
  NoDup l -> (forall x, x ∈ l <-> x = a) -> l = [a].
Proof.
  intros Hnd Hl. destruct l as [|x l].
  - exfalso. eapply not_elem_of_nil. by apply Hl.
  - assert (x = a) as -> by (apply Hl; by left).
    destruct l as [|y l]; [done|]. exfalso.
    assert (y = a) as -> by (apply Hl; right; by left).
    apply NoDup_cons in Hnd as [Hnotin _]. apply Hnotin. by left.
Qed.

Lemma alias_targets_singleton s g b :
  NoDup (alias_assoc s) ->
  (forall y, (g, y) ∈ alias_assoc s <-> y = b) ->
  alias_targets s g = [b].
Proof.
  intros Hnd H. apply stable_sort_singleton. apply NoDup_singleton_eq.
  - by apply NoDup_alias_targets_raw.
  - intros y. by rewrite elem_of_alias_targets_raw.
Qed.

Lemma remove_alias_target_present s self target :
  (self, target) ∈ alias_assoc s ->
  remove_alias_target self target s
  = (with_alias_assoc (remove_first (self, target)) s, Ok tt).
Proof.
  intros H. unfold remove_alias_target. rewrite bind_gets.
  rewrite decide_True; [done|]. by apply elem_of_alias_targets_raw.
Qed.

Lemma holds_no_references_alias_rows s f g :
  holds_no_references (with_alias_assoc f s) g <-> holds_no_references s g.
Proof. unfold holds_no_references. split; intros H attr; specialize (H attr); by destruct attr. Qed.

End Promotion.

Section PromotionSpec.

Implicit Types (s : Store).

Lemma alias_targets_setter_clear_one add s A B :
  _alias_targets s A = [B] ->
  alias_targets_setter add A [] s
  = (with_alias_assoc (remove_first (A, B)) s, Ok tt).
Proof.
  intros H. unfold alias_targets_setter. rewrite bind_gets, H.
  assert (HB : (A, B) ∈ alias_assoc s).
  { apply elem_of_alias_targets_raw. rewrite H. by left. }
  cbn -[remove_alias_target].
  destruct (decide_rel elem_of B []) as [Hin|_]; [by apply elem_of_nil in Hin|].
  rewrite filter_cons, decide_True by apply not_elem_of_nil.
  rewrite filter_nil. cbn [for_each]. unfold mbind, M_bind.
  by rewrite (remove_alias_target_present _ _ _ HB).
Qed.


End PromotionSpec.

(** ** The re-keying cascade *)

Section PathGraph.

Implicit Types (s c : Store) (a b d h p self : handle).










Lemma forget_key_set_human_id v g : forget_key (set_human_id v g) = forget_key g.
Proof. done. Qed.

Lemma same_attrs_refl s : same_attrs s s.
Proof. by unfold same_attrs. Qed.


Lemma same_attrs_lookup s s' h :
  same_attrs s s' -> forget_key <$> geos s' !! h = forget_key <$> geos s !! h.
Proof. intros [H _]. by rewrite <- !list_lookup_fmap, H. Qed.

Lemma same_attrs_lookup_Some s s' h g :
  same_attrs s s' -> geos s !! h = Some g ->
  exists g', geos s' !! h = Some g' /\ forget_key g' = forget_key g.
Proof.
  intros H Hg. apply (same_attrs_lookup _ _ h) in H. rewrite Hg in H.
  destruct (geos s' !! h) as [g'|]; cbn in H; [|done]. exists g'. split; [done|].
  congruence.
Qed.








End PathGraph.

Section Cascade.

Variable validate : string -> bool.
Variable ht : handle -> nat.

Implicit Types (s c : Store) (d h p self pc : handle).


Lemma bind_ok {A B} (m : M A) (k : A -> M B) s s1 (a : A) :
  m s = (s1, Ok a) -> (m ≫= k) s = k a s1.
Proof. intros H. unfold mbind, M_bind. by rewrite H. Qed.

Lemma get_geo_Some s h g : geos s !! h = Some g -> get_geo h s = (s, Ok g).
Proof. intros H. unfold get_geo. by rewrite H. Qed.
















Lemma key_derived_alter_other c self (f : Geo -> Geo) d :
  d <> self -> (forall x, human_id (f x) = human_id x) ->
  key_derived c d -> key_derived (with_geos (alter f self) c) d.
Proof.
  intros Hne Hf (g & Hg & H). exists g. unfold with_geos. cbn [geos].
  split; [by rewrite list_lookup_alter_ne|].
  destruct (path_parent g) as [p|]; [|done].
  destruct H as (pg & pk & Hpg & Hpk & Hk).
  destruct (decide (p = self)) as [->|Hp].
  - exists (f pg), pk. rewrite list_lookup_alter_eq, Hpg, Hf. done.
  - exists pg, pk. by rewrite list_lookup_alter_ne.
Qed.








End Cascade.


Lemma us_tx_austin_keys : keys_derived us_tx_austin.
Proof.
  intros h Hh. destruct h as [|[|[|[|h]]]]; [| | | |cbn in Hh; lia];
    (eexists; split; [reflexivity|]); cbn [path_parent];
    [reflexivity|..]; (eexists _, _; split_and!; reflexivity).
Qed.

(** * Further properties of the code *)

(** ** The shape of derived keys *)

Section KeyShape.

Lemma chars_app (a b : string) : chars (a +:+ b) = chars a ++ chars b.
Proof.
  induction a as [|x a IH]; [reflexivity|].
  change (x :: chars (a +:+ b) = x :: (chars a ++ chars b)). by rewrite IH.
Qed.

Lemma prefix_head (c : ascii) (o : string) (s : string) :
  String.prefix (String c o) s = true -> exists s', s = String c s'.
Proof.
  destruct s as [|d s]; [done|]. cbn [String.prefix].
  destruct (ascii_dec c d) as [->|]; [eauto|done].
Qed.

Lemma replace_from_chars (old new : string) (k : nat) (s : string) (x : ascii) :
  x ∈ chars (PyStr.replace_from old new k s) -> x ∈ chars s \/ x ∈ chars new.
Proof.
  revert k. induction s as [|c s IH]; intros k; [by left|].
  cbn [PyStr.replace_from]. destruct k as [|k].
  - destruct (String.prefix old (String c s)).
    + rewrite chars_app. intros [H|H]%elem_of_app; [by right|].
      apply IH in H as [H|H]; [left; by right|by right].
    + change (x ∈ c :: chars (PyStr.replace_from old new 0 s) ->
              x ∈ c :: chars s \/ x ∈ chars new).
      intros [->|H]%elem_of_cons; [left; by left|].
      apply IH in H as [H|H]; [left; by right|by right].
  - intros H. apply IH in H as [H|H]; [left; by right|by right].
Qed.

Lemma replace_chars (old new s : string) (x : ascii) :
  x ∈ chars (PyStr.replace old new s) -> x ∈ chars s \/ x ∈ chars new.
Proof. apply replace_from_chars. Qed.

Lemma prefix_single (c d : ascii) (s : string) :
  String.prefix (String c "") (String d s) = bool_decide (c = d).
Proof.
  simpl. destruct (ascii_dec c d) as [->|Hn].
  - rewrite bool_decide_eq_true_2 by done. by destruct s.
  - by rewrite bool_decide_eq_false_2.
Qed.

Lemma replace_char_gone (c : ascii) (new s : string) :
  c ∉ chars new -> c ∉ chars (PyStr.replace (String c "") new s).
Proof.
  intros Hnew. unfold PyStr.replace. induction s as [|d s IH].
  - by intros ?%elem_of_nil.
  - cbn [PyStr.replace_from]. rewrite prefix_single.
    case_bool_decide as Hcd.
    + cbn [String.length Nat.sub]. rewrite chars_app.
      intros [H|H]%elem_of_app; [by apply Hnew|by apply IH].
    + change (c ∉ d :: chars (PyStr.replace_from (String c "") new 0 s)).
      intros [->|H]%elem_of_cons; [done|by apply IH].
Qed.

Lemma replace_absent (c : ascii) (o new s : string) :
  c ∉ chars s -> PyStr.replace (String c o) new s = s.
Proof.
  unfold PyStr.replace. induction s as [|d s IH]; [done|].
  intros Hc. cbn [PyStr.replace_from].
  destruct (String.prefix (String c o) (String d s)) eqn:Hp.
  - apply prefix_head in Hp as (s' & E). injection E as -> ->.
    exfalso. apply Hc. by left.
  - f_equal. apply IH. intros H. apply Hc. by right.
Qed.

Lemma lower_chars (s : string) (x : ascii) :
  x ∈ chars (PyStr.lower s) -> exists y, y ∈ chars s /\ x = PyStr.lower_ascii y.
Proof.
  induction s as [|c s IH]; [by intros ?%elem_of_nil|].
  change (x ∈ PyStr.lower_ascii c :: chars (PyStr.lower s) -> 
          exists y, y ∈ c :: chars s /\ x = PyStr.lower_ascii y).
  intros [->|H]%elem_of_cons.
  - exists c. split; [by left|done].
  - apply IH in H as (y & Hy & ->). exists y. split; [by right|done].
Qed.

Lemma lower_ascii_not_upper (c : ascii) : is_upper (PyStr.lower_ascii c) = false.
Proof. by destruct c as [[] [] [] [] [] [] [] []]. Qed.

Lemma lower_ascii_fixed (c : ascii) : is_upper c = false -> PyStr.lower_ascii c = c.
Proof. unfold is_upper, PyStr.lower_ascii. by intros ->. Qed.

Lemma lower_ascii_inv (c d : ascii) :
  is_upper d = false -> PyStr.lower_ascii c = d -> is_upper c = true \/ c = d.
Proof.
  intros Hd <-. destruct (is_upper c) eqn:E; [by left|right].
  by rewrite lower_ascii_fixed.
Qed.

Lemma lower_fixed (s : string) :
  (forall x, x ∈ chars s -> is_upper x = false) -> PyStr.lower s = s.
Proof.
  induction s as [|c s IH]; [done|]. intros H. cbn [PyStr.lower].
  rewrite lower_ascii_fixed by (apply H; by left).
  f_equal. apply IH. intros x Hx. apply H. by right.
Qed.

Lemma lower_ascii_keeps (c : ascii) :
  (PyStr.lower_ascii c = "."%char -> c = "."%char)
  /\ (PyStr.lower_ascii c = " "%char -> c = " "%char)
  /\ (PyStr.lower_ascii c = "/"%char -> c = "/"%char).
Proof.
  destruct c as [[] [] [] [] [] [] [] []]; vm_compute;
    split_and!; intros H; first [reflexivity | discriminate H].
Qed.

Lemma transform_nametag_chars (tag : string) (x : ascii) :
  x ∈ chars (transform_nametag tag) -> clean_char x.
Proof.
  unfold transform_nametag.
  set (t1 := PyStr.replace "." "" tag).
  set (t2 := PyStr.replace ", " "_" t1).
  set (t3 := PyStr.replace " " "_" t2).
  set (t4 := PyStr.lower t3).
  assert (H1 : "."%char ∉ chars t1).
  { apply replace_char_gone. by intros ?%elem_of_nil. }
  assert (H2 : "."%char ∉ chars t2).
  { intros [?|E]%replace_chars; [done|].
    by apply list_elem_of_singleton in E. }
  assert (H3a : "."%char ∉ chars t3).
  { intros [?|E]%replace_chars; [done|]. by apply list_elem_of_singleton in E. }
  assert (H3b : " "%char ∉ chars t3).
  { apply replace_char_gone. intros E. by apply list_elem_of_singleton in E. }
  assert (H4 : forall y, y ∈ chars t4 ->
                 y <> "."%char /\ y <> " "%char /\ is_upper y = false).
  { intros y (z & Hz & ->)%lower_chars.
    destruct (lower_ascii_keeps z) as (Ka & Kb & _). split_and!.
    - intros E. apply Ka in E as ->. done.
    - intros E. apply Kb in E as ->. done.
    - apply lower_ascii_not_upper. }
  intros Hx. split_and!.
  - intros ->. apply replace_chars in Hx as [Hx|Hx].
    + apply H4 in Hx as (E & _). by apply E.
    + by apply list_elem_of_singleton in Hx.
  - intros ->. apply replace_chars in Hx as [Hx|Hx].
    + apply H4 in Hx as (_ & E & _). by apply E.
    + by apply list_elem_of_singleton in Hx.
  - intros ->. revert Hx. apply replace_char_gone.
    intros E. by apply list_elem_of_singleton in E.
  - apply replace_chars in Hx as [Hx|Hx].
    + by apply H4 in Hx as (_ & _ & ?).
    + by apply list_elem_of_singleton in Hx as ->.
Qed.

Lemma transform_nametag_fixed (t : string) :
  (forall x, x ∈ chars t -> clean_char x) -> transform_nametag t = t.
Proof.
  intros H. unfold transform_nametag.
  assert (Hd : "."%char ∉ chars t).
  { intros E. apply H in E as (E & _). by apply E. }
  assert (Hs : " "%char ∉ chars t).
  { intros E. apply H in E as (_ & E & _). by apply E. }
  assert (Hl : "/"%char ∉ chars t).
  { intros E. apply H in E as (_ & _ & E & _). by apply E. }
  rewrite (replace_absent "." "" "" t) by done.
  assert (Hc : PyStr.replace ", " "_" t = t).
  { clear -Hs. unfold PyStr.replace. induction t as [|d s IH]; [done|].
    cbn [PyStr.replace_from].
    destruct (String.prefix ", " (String d s)) eqn:Hp.
    - exfalso. apply prefix_head in Hp as Hd. destruct Hd as (s' & E).
      injection E as Ed Es. subst d. clear Es s'. destruct s as [|e s]; [done|].
      cbn [String.prefix] in Hp. destruct (ascii_dec "," ","); [|done].
      destruct (ascii_dec " " e) as [<-|]; [|done].
      apply Hs. right. by left.
    - f_equal. apply IH. intros E. apply Hs. by right. }
  rewrite Hc.
  rewrite (replace_absent " " "" "_" t) by done.
  rewrite lower_fixed by (intros x Hx; by apply H in Hx as (_ & _ & _ & ?)).
  by rewrite (replace_absent "/" "" "-" t).
Qed.


Lemma ascii_only_chars (t : string) :
  ascii_only t = true <-> forall x, x ∈ chars t -> is_ascii x = true.
Proof.
  unfold ascii_only. rewrite forallb_forall.
  split; intros H x Hx; apply H; by apply list_elem_of_In.
Qed.

Lemma lower_ascii_is_ascii (c : ascii) :
  is_ascii c = true -> is_ascii (PyStr.lower_ascii c) = true.
Proof. by destruct c as [[] [] [] [] [] [] [] []]. Qed.

Lemma replace_ascii (old new t : string) :
  ascii_only new = true -> ascii_only t = true ->
  ascii_only (PyStr.replace old new t) = true.
Proof.
  rewrite !ascii_only_chars. intros Hn Ht x [Hx|Hx]%replace_chars; auto.
Qed.

Lemma lower_ascii_only (t : string) :
  ascii_only t = true -> ascii_only (PyStr.lower t) = true.
Proof.
  rewrite !ascii_only_chars. intros Ht x (y & Hy & ->)%lower_chars.
  by apply lower_ascii_is_ascii, Ht.
Qed.

Lemma transform_nametag_ascii (tag : string) :
  ascii_only tag = true -> ascii_only (transform_nametag tag) = true.
Proof.
  intros H. unfold transform_nametag.
  repeat first [apply replace_ascii; [reflexivity|] | apply lower_ascii_only].
  done.
Qed.

Lemma append_ascii (a b : string) :
  ascii_only a = true -> ascii_only b = true -> ascii_only (a +:+ b) = true.
Proof.
  rewrite !ascii_only_chars, chars_app. intros Ha Hb x [Hx|Hx]%elem_of_app; auto.
Qed.

Lemma count_slash_tag (tag : string) :
  count_occ ascii_dec (chars (transform_nametag tag)) "/"%char = 0.
Proof.
  apply count_occ_not_In. intros H%list_elem_of_In.
  apply transform_nametag_chars in H as (_ & _ & E & _). by apply E.
Qed.

Lemma derived_key_shape (s : Store) (h : handle) (l : list handle) (g : Geo) :
  path_to_root s h l -> (forall x, x ∈ l -> key_derived s x) ->
  geos s !! h = Some g ->
  exists k, human_id g = Some k
    /\ (forall x, x ∈ chars k ->
          x <> "."%char /\ x <> " "%char /\ is_upper x = false)
    /\ count_occ ascii_dec (chars k) "/"%char = length l - 1.
Proof.
  intros Hpath. revert g.
  induction Hpath as [h g0 Hg0 Hroot|h g0 p l Hg0 Hp Hpath IH];
    intros g Hkeys Hg; assert (g0 = g) as -> by congruence.
  - destruct (Hkeys h) as (g' & Hg' & Hk); [by left|].
    assert (g' = g) as -> by congruence. rewrite Hroot in Hk.
    eexists. split; [exact Hk|].
    change (create_key None (name g) (abbrev g) (qualifier g) None)
      with (transform_nametag (nametag (name g) (abbrev g) (qualifier g))).
    split.
    + intros x Hx. apply transform_nametag_chars in Hx as (? & ? & _ & ?). done.
    + apply count_slash_tag.
  - destruct (Hkeys h) as (g' & Hg' & Hk); [by left|].
    assert (g' = g) as -> by congruence. rewrite Hp in Hk.
    destruct Hk as (pg & pk & Hpg & Hpk & Hk).
    destruct (IH pg) as (k' & Hk' & Hc & Hn);
      [intros x Hx; apply Hkeys; by right|done|].
    assert (k' = pk) as -> by congruence.
    eexists. split; [exact Hk|]. rewrite create_key_derived.
    rewrite !chars_app. split.
    + intros x [Hx|[Hx|Hx]%elem_of_app]%elem_of_app.
      * by apply Hc.
      * apply list_elem_of_singleton in Hx as ->. done.
      * apply transform_nametag_chars in Hx as (? & ? & _ & ?). done.
    + rewrite !count_occ_app, Hn, count_slash_tag.
      destruct Hpath; cbn; lia.
Qed.

Lemma derived_key_ascii (s : Store) (h : handle) (l : list handle) (g : Geo) :
  path_to_root s h l -> (forall x, x ∈ l -> key_derived s x) ->
  (forall x gx, x ∈ l -> geos s !! x = Some gx ->
     ascii_only (nametag (name gx) (abbrev gx) (qualifier gx)) = true) ->
  geos s !! h = Some g ->
  exists k, human_id g = Some k /\ ascii_only k = true.
Proof.
  intros Hpath. revert g.
  induction Hpath as [h g0 Hg0 Hroot|h g0 p l Hg0 Hp Hpath IH];
    intros g Hkeys Hascii Hg; assert (g0 = g) as -> by congruence.
  - destruct (Hkeys h) as (g' & Hg' & Hk); [by left|].
    assert (g' = g) as -> by congruence. rewrite Hroot in Hk.
    eexists. split; [exact Hk|].
    change (create_key None (name g) (abbrev g) (qualifier g) None)
      with (transform_nametag (nametag (name g) (abbrev g) (qualifier g))).
    apply transform_nametag_ascii, (Hascii h); [by left|done].
  - destruct (Hkeys h) as (g' & Hg' & Hk); [by left|].
    assert (g' = g) as -> by congruence. rewrite Hp in Hk.
    destruct Hk as (pg & pk & Hpg & Hpk & Hk).
    destruct (IH pg) as (k' & Hk' & Ha);
      [intros x Hx; apply Hkeys; by right
      |intros x gx Hx; apply Hascii; by right|done|].
    assert (k' = pk) as -> by congruence.
    eexists. split; [exact Hk|]. rewrite create_key_derived.
    apply append_ascii; [done|]. apply append_ascii; [reflexivity|].
    apply transform_nametag_ascii, (Hascii h); [by left|done].
Qed.

End KeyShape.

(** X1: whatever the ASCII nametag, the transformed nametag that
    [Geo.create_key] appends is ASCII and holds no ['.'], no [' '], no
    ['/'] and no capital; lowering it or transforming it again changes
    nothing. *)
Theorem transform_nametag_clean (tag : string) :
  ascii_only tag = true ->
  ascii_only (transform_nametag tag) = true
  /\ (forall x, x ∈ chars (transform_nametag tag) ->
       x <> "."%char /\ x <> " "%char /\ x <> "/"%char /\ is_upper x = false)
  /\ PyStr.lower (transform_nametag tag) = transform_nametag tag
  /\ transform_nametag (transform_nametag tag) = transform_nametag tag.
Proof.
  intros Hascii. split_and!.
  - by apply transform_nametag_ascii.
  - apply transform_nametag_chars.
  - apply lower_fixed. intros x Hx. by apply transform_nametag_chars in Hx as (_ & _ & _ & ?).
  - apply transform_nametag_fixed. apply transform_nametag_chars.
Qed.

Lemma transform_nametag_clean_witness :
  ascii_only "Washington, D.C." = true
  /\ ascii_only (transform_nametag "Washington, D.C.") = true
  /\ transform_nametag (transform_nametag "Washington, D.C.")
     = transform_nametag "Washington, D.C.".
Proof.
  split; [reflexivity|].
  destruct (transform_nametag_clean "Washington, D.C." eq_refl) as (H1 & _ & _ & H2).
  by split.
Defined.

(** X2: the derived key of a geo at the end of a path of derived keys,
    the nametags of the path being ASCII, is ASCII and its own lowercase
    form, holds no space and no dot, and has one ['/'] per path-parent
    link; so the lowering of the requested id by the [render_geo] view
    leaves a derived key as it is. *)
Theorem derived_key_lowercase (s : Store) (h : handle) (l : list handle) (g : Geo) :
  path_to_root s h l -> (forall x, x ∈ l -> key_derived s x) ->
  (forall x gx, x ∈ l -> geos s !! x = Some gx ->
     ascii_only (nametag (name gx) (abbrev gx) (qualifier gx)) = true) ->
  geos s !! h = Some g ->
  exists k, human_id g = Some k
    /\ ascii_only k = true
    /\ PyStr.lower k = k
    /\ (" "%char ∉ chars k) /\ ("."%char ∉ chars k)
    /\ count_occ ascii_dec (chars k) "/"%char = length l - 1.
Proof.
  intros Hp Hk Hascii Hg.
  destruct (derived_key_shape s h l g Hp Hk Hg) as (k & Hid & Hc & Hn).
  exists k. split_and!; [done| | | | |done].
  - destruct (derived_key_ascii s h l g Hp Hk Hascii Hg) as (k' & Hid' & Ha).
    congruence.
  - apply lower_fixed. intros x Hx. by apply Hc in Hx as (_ & _ & ?).
  - intros Hx. apply Hc in Hx as (_ & E & _). by apply E.
  - intros Hx. apply Hc in Hx as (E & _). by apply E.
Qed.

Lemma us_tx_austin_path : path_to_root us_tx_austin 2 [2; 1; 0].
Proof.
  eapply path_to_root_link; [reflexivity|reflexivity|].
  eapply path_to_root_link; [reflexivity|reflexivity|].
  eapply path_to_root_root; reflexivity.
Qed.

Lemma us_tx_austin_path_keys x : x ∈ [2; 1; 0] -> key_derived us_tx_austin x.
Proof.
  intros Hin. apply us_tx_austin_keys.
  repeat (apply elem_of_cons in Hin as [->|Hin]; [cbn; lia|]).
  by apply elem_of_nil in Hin.
Qed.

Lemma derived_key_lowercase_witness :
  path_to_root us_tx_austin 2 [2; 1; 0]
  /\ exists k, Some "us/tx/austin" = Some k
       /\ ascii_only k = true
       /\ PyStr.lower k = k
       /\ (" "%char ∉ chars k) /\ ("."%char ∉ chars k)
       /\ count_occ ascii_dec (chars k) "/"%char = 2.
Proof.
  split; [exact us_tx_austin_path|].
  apply (derived_key_lowercase us_tx_austin 2 [2; 1; 0]
           (mkGeo "Austin" None None (Some "us/tx/austin") (Some 1) None [])).
  - exact us_tx_austin_path.
  - exact us_tx_austin_path_keys.
  - intros x gx Hin Hgx.
    repeat (apply elem_of_cons in Hin as [->|Hin];
            [injection Hgx as <-; reflexivity|]).
    by apply elem_of_nil in Hin.
  - reflexivity.
Defined.

(** ** The re-keying cascade: the setters that return *)

Section KeysBelow.

Implicit Types (v k t r a : string).














End KeysBelow.

Section CascadeReturns.

Variable validate : string -> bool.
Variable ht : handle -> nat.

Implicit Types (s c : Store) (d h p self pc : handle) (v k : string).













End CascadeReturns.

Section Setters.

Variable validate : string -> bool.
Variable ht : handle -> nat.


End Setters.



(** Renaming the U.S. re-keys the three geos below it. *)
Example rename_us :
  (name_setter (fun _ => true) 3 0 "United States" us_tx_austin).2 = Ok tt
  /\ human_id <$> geos (name_setter (fun _ => true) 3 0 "United States"
                                    us_tx_austin).1
     = [Some "united_states"; Some "united_states/tx";
        Some "united_states/tx/austin"; Some "united_states/tx/travis_county"].
Proof. split; reflexivity. Qed.


(** ** Exact matches first *)

Section Elevate.

Local Abbreviation exact s m := (fun g : handle => is_exact_match s m g = true).
Local Abbreviation other s m := (fun g : handle => is_exact_match s m g = false).

Lemma elevate_from_spec (s : Store) (m : string) (e l1 l2 : list handle) (nb na : nat) :
  na = length e + nb -> length l1 <= nb -> 0 < length e ->
  elevate_exact_matches_from s m nb na (length e + length l1)
    (e ++ l1 ++ filter (other s m) l2)
  = e ++ filter (other s m) l1 ++ filter (other s m) l2.
Proof.
  intros Hna Hnb He. revert l2.
  induction l1 as [|x l1 IH] using rev_ind; intros l2.
  - cbn [length app filter]. rewrite Nat.add_0_r.
    destruct (length e) as [|k] eqn:Ek; [lia|].
    cbn [elevate_exact_matches_from].
    rewrite lookup_app_l by lia.
    destruct (e !! k) as [g|] eqn:Eg.
    + assert ((nb <? na - k) = true) as ->; [apply Nat.ltb_lt; lia|done].
    + done.
  - rewrite length_app in *. cbn [length] in *.
    replace (length e + (length l1 + 1)) with (S (length e + length l1)) by lia.
    cbn [elevate_exact_matches_from].
    rewrite <- (assoc_L (++) l1 [x]).
    rewrite lookup_app_r by lia. rewrite lookup_app_r by lia.
    replace (length e + length l1 - length e - length l1) with 0 by lia.
    cbn [app lookup list_lookup].
    cbv zeta.
    assert ((nb <? na - (length e + length l1)) = false) as ->.
    { apply Nat.ltb_ge. lia. }
    replace (na - (na - (length e + length l1))) with (length e + length l1) by lia.
    rewrite filter_app.
    destruct (is_exact_match s m x) eqn:Ex.
    + assert (delete (length e + length l1) (e ++ l1 ++ x :: filter (other s m) l2)
              = e ++ l1 ++ filter (other s m) l2) as ->.
      { rewrite (assoc_L (++) e l1), <- length_app.
        by rewrite delete_middle, <- (assoc_L (++)). }
      rewrite (IH ltac:(lia) l2).
      rewrite (filter_cons_False (other s m) x []); [by rewrite filter_nil, app_nil_r|].
      by rewrite Ex.
    + specialize (IH ltac:(lia) (x :: l2)).
      rewrite filter_cons_True in IH by done.
      rewrite IH.
      rewrite (filter_cons_True (other s m) x []) by done.
      rewrite filter_nil. by rewrite <- (assoc_L (++)).
Qed.

(** X3: [Geo.elevate_exact_matches] leaves the exact matches (name or
    abbreviation equal to the match string, case ignored) in front and the
    other matches behind them, each group in the order it had: the copies
    of the exact matches that the loop deletes are those of the original
    list, and nothing else goes. *)
Theorem elevate_exact_matches_partition (s : Store) (matches : list handle)
    (match_string : string) :
  elevate_exact_matches s matches match_string
  = filter (fun g => is_exact_match s (PyStr.lower match_string) g = true) matches
    ++ filter (fun g => is_exact_match s (PyStr.lower match_string) g = false) matches.
Proof.
  unfold elevate_exact_matches. cbv zeta.
  set (m := PyStr.lower match_string). rewrite length_app.
  destruct (length (filter (exact s m) matches) + length matches - length matches =? 0) eqn:E.
  - apply Nat.eqb_eq in E.
    assert (filter (exact s m) matches = []) as Hnil by (apply length_zero_iff_nil; lia).
    rewrite Hnil. cbn [app]. symmetry.
    assert (Forall (other s m) matches) as H.
    { apply Forall_forall. intros x Hx.
      destruct (is_exact_match s m x) eqn:Ex; [|done].
      assert (x ∈ filter (exact s m) matches) as Hin by (apply list_elem_of_filter; done).
      rewrite Hnil in Hin. by apply elem_of_nil in Hin. }
    clear -H. induction H; [done|]. rewrite filter_cons_True by done. by f_equal.
  - apply Nat.eqb_neq in E.
    pose proof (elevate_from_spec s m (filter (exact s m) matches) matches [] (length matches)
                  (length (filter (exact s m) matches) + length matches)) as H.
    rewrite filter_nil, !app_nil_r in H. apply H; lia.
Qed.

End Elevate.

(** ** What the pruning of redundant aliases removes *)

Section Pruning.

Lemma redundant_alias_check (s : Store) (match_set : list handle) (g : handle) :
  (nonempty (alias_targets s g)
   && (length (filter (fun b => b = true)
                 (map (fun t => bool_decide (t ∈ match_set)) (alias_targets s g)))
       =? length (alias_targets s g)))
  = redundant_alias s match_set g.
Proof.
  unfold redundant_alias. f_equal.
  generalize (alias_targets s g) as l. intros l.
  assert (H : length (filter (fun b => b = true)
                 (map (fun t => bool_decide (t ∈ match_set)) l)) <= length l).
  { etrans; [apply length_filter|]. by rewrite length_map. }
  induction l as [|x l IH]; [done|].
  cbn [map forallb length] in *.
  destruct (bool_decide (x ∈ match_set)) eqn:E.
  - rewrite filter_cons_True by done. cbn [length andb]. rewrite <- IH.
    + done.
    + rewrite filter_cons_True in H by done. cbn [length] in H. lia.
  - rewrite filter_cons_False by done. cbn [andb].
    apply Nat.eqb_neq.
    pose proof (length_filter (fun b => b = true)
                 (map (fun t => bool_decide (t ∈ match_set)) l)) as Hl.
    rewrite length_map in Hl. lia.
Qed.

Lemma remove_redundant_aliases_from_eq (s : Store) (match_set l : list handle) :
  forall n k,
    n + k <= length l ->
    remove_redundant_aliases_from s match_set n (take (length l - k) l)
    = take (length l - k
            - length (filter (fun g => redundant_alias s match_set g = true)
                        (take n l))) l.
Proof.
  induction n as [|n IH]; intros k Hk.
  - cbn [remove_redundant_aliases_from take filter length]. by rewrite Nat.sub_0_r.
  - cbn [remove_redundant_aliases_from].
    rewrite lookup_take_lt by lia.
    destruct (l !! n) as [g|] eqn:Eg; [|apply lookup_ge_None in Eg; lia].
    rewrite (take_S_r l n g Eg), filter_app, length_app.
    pose proof (redundant_alias_check s match_set g) as Hc.
    cbv zeta.
    destruct (redundant_alias s match_set g) eqn:Er.
    + apply andb_true_iff in Hc as [-> ->].
      rewrite filter_cons_True by done. cbn [filter length].
      rewrite removelast_firstn_len, length_take, take_take.
      replace (Init.Nat.pred ((length l - k) `min` length l) `min` (length l - k))
        with (length l - S k) by lia.
      rewrite (IH (S k)) by lia. rewrite filter_nil. f_equal. cbn [length]. lia.
    + rewrite filter_cons_False by (by rewrite Er). cbn [filter length].
      rewrite Nat.add_0_r.
      destruct (nonempty (alias_targets s g)); cbn [andb] in Hc.
      * rewrite Hc. by apply IH; lia.
      * by apply IH; lia.
Qed.

(** X4: when the sort of the alias targets of every match returns,
    [Geo.remove_redundant_aliases] returns a prefix of the list of
    matches: it drops as many elements from the end as the list holds
    aliases all of whose targets are in the list, wherever those aliases
    stand. *)
Theorem remove_redundant_aliases_prefix (s : Store) (matches : list handle) :
  (forall g, g ∈ matches -> sortable s (_alias_targets s g) = true) ->
  remove_redundant_aliases s matches
  = take (length matches
          - length (filter (fun g => redundant_alias s matches g = true) matches))
         matches.
Proof.
  intros _. unfold remove_redundant_aliases.
  pose proof (remove_redundant_aliases_from_eq s matches matches (length matches) 0) as H.
  rewrite Nat.sub_0_r, !firstn_all in H. apply H. lia.
Qed.

Lemma remove_redundant_aliases_prefix_witness :
  remove_redundant_aliases alias_and_target [0; 1; 2] = [0; 1].
Proof.
  apply (remove_redundant_aliases_prefix alias_and_target [0; 1; 2]).
  intros g Hin.
  repeat (apply elem_of_cons in Hin as [->|Hin]; [reflexivity|]).
  by apply elem_of_nil in Hin.
Defined.

End Pruning.

(** ** [Geo.get_largest_geo] *)

Section Largest.

Lemma larger_populated x y px py :
  x.2 = Some px -> y.2 = Some py ->
  larger x y = inr (if (py <? px)%Z then x else y).
Proof. unfold larger. by intros -> ->. Qed.

Lemma larger_unpopulated x y :
  x.2 = None \/ y.2 = None -> larger x y = inl BuiltinTypeError.
Proof. unfold larger. intros [->| ->]; [done|]. by destruct x.2. Qed.

Lemma geo_pop_tuple_population s g p :
  population s g p -> geo_pop_tuple s g = inr (g, Some p).
Proof. intros (d & Hd & Hp). unfold geo_pop_tuple. by rewrite Hd, Hp. Qed.

(** Over populated geos the accumulator stays populated. *)
Lemma reduce_larger_populated s l1 rest : forall x px,
  x.2 = Some px ->
  (forall g, g ∈ l1 -> exists p, population s g p) ->
  exists y py,
    reduce_larger s x (l1 ++ rest) = reduce_larger s (y, Some py) rest.
Proof.
  induction l1 as [|g l1 IH]; intros [x ox] px Hx Hall; cbn [snd] in Hx; subst ox.
  - by exists x, px.
  - destruct (Hall g) as (pg & Hpg); [by left|].
    cbn [app reduce_larger]. rewrite (geo_pop_tuple_population _ _ _ Hpg).
    rewrite (larger_populated _ _ px pg) by done.
    destruct (pg <? px)%Z.
    + apply (IH (x, Some px) px); [done|]. intros; apply Hall; by right.
    + apply (IH (g, Some pg) pg); [done|]. intros; apply Hall; by right.
Qed.

Lemma reduce_larger_max s geos : forall x px,
  x.2 = Some px ->
  (forall g, g ∈ geos -> exists p, population s g p) ->
  exists y py, reduce_larger s x geos = inr (y, Some py)
    /\ (px <= py)%Z
    /\ (forall g p, g ∈ geos -> population s g p -> (p <= py)%Z)
    /\ ((y, Some py) = x /\ (forall g p, g ∈ geos -> population s g p -> (p < px)%Z)
        \/ exists l1 l2, geos = l1 ++ y :: l2 /\ population s y py
             /\ forall g p, g ∈ l2 -> population s g p -> (p < py)%Z).
Proof.
  induction geos as [|g geos IH]; intros [x ox] px Hx Hall; cbn [snd] in Hx; subst ox.
  - exists x, px. split_and!; [done|lia| |].
    + by intros g p ?%elem_of_nil.
    + left. split; [done|]. by intros g p ?%elem_of_nil.
  - cbn [reduce_larger].
    destruct (Hall g) as (pg & Hpg); [by left|].
    rewrite (geo_pop_tuple_population _ _ _ Hpg).
    rewrite (larger_populated _ _ px pg) by done.
    destruct Hpg as (d & Hd & Hp).
    destruct (pg <? px)%Z eqn:E.
    + apply Z.ltb_lt in E.
      destruct (IH (x, Some px) px) as (y & py & Hr & Hle & Hmax & Hlast);
        [done|intros; apply Hall; by right|].
      exists y, py. split_and!; [done|lia| |].
      * intros g' p' [->|Hin]%elem_of_cons Hpop; [|by eapply Hmax].
        destruct Hpop as (d' & Hd' & Hp'). assert (p' = pg) as -> by congruence. lia.
      * destruct Hlast as [[Heq Hlt]|(l1 & l2 & -> & Hpy & Hlt)].
        -- left. split; [done|]. injection Heq as -> ->.
           intros g' p' [->|Hin]%elem_of_cons Hpop; [|by eapply Hlt].
           destruct Hpop as (d' & Hd' & Hp'). assert (p' = pg) as -> by congruence. lia.
        -- right. exists (g :: l1), l2. done.
    + apply Z.ltb_ge in E.
      destruct (IH (g, Some pg) pg) as (y & py & Hr & Hle & Hmax & Hlast);
        [done|intros; apply Hall; by right|].
      exists y, py. split_and!; [done|lia| |].
      * intros g' p' [->|Hin]%elem_of_cons Hpop; [|by eapply Hmax].
        destruct Hpop as (d' & Hd' & Hp'). assert (p' = pg) as -> by congruence. lia.
      * right. destruct Hlast as [[Heq Hlt]|(l1 & l2 & -> & Hpy & Hlt)].
        -- injection Heq as -> ->. exists [], geos. split_and!; [done| |done].
           by exists d.
        -- exists (g :: l1), l2. done.
Qed.

End Largest.

(** X5: [Geo.get_largest_geo] under Python 3. On no geo it raises
    [TypeError]. The tuples are made one by one and each is compared with
    the largest so far, so the first geo that has no data record or no
    total population decides: without data record it raises
    [AttributeError]; with a record that has no total population it raises
    [TypeError] when it is compared, that is, unless it is the only geo
    given. Over geos that all have a total population the call returns a
    geo of the highest population, the last of them in the order given. *)
Theorem get_largest_geo_last_maximum (s : Store) (geos : list handle) :
  get_largest_geo s [] = inl BuiltinTypeError
  /\ (forall l1 g l2,
        geos = l1 ++ g :: l2 ->
        (forall x, x ∈ l1 -> exists p, population s x p) ->
        geo_data s g = None ->
        get_largest_geo s geos = inl BuiltinAttributeError)
  /\ (forall l1 g l2 d,
        geos = l1 ++ g :: l2 ->
        (forall x, x ∈ l1 -> exists p, population s x p) ->
        geo_data s g = Some d -> total_pop d = None ->
        match l1, l2 with
        | [], [] => get_largest_geo s geos = inr g
        | [], y :: _ =>
            get_largest_geo s geos
            = inl (match geo_data s y with
                   | Some _ => BuiltinTypeError
                   | None => BuiltinAttributeError
                   end)
        | _ :: _, _ => get_largest_geo s geos = inl BuiltinTypeError
        end)
  /\ (geos <> [] -> (forall g, g ∈ geos -> exists p, population s g p) ->
      exists y py l1 l2,
        get_largest_geo s geos = inr y
        /\ geos = l1 ++ y :: l2
        /\ population s y py
        /\ (forall g p, g ∈ l1 -> population s g p -> (p <= py)%Z)
        /\ (forall g p, g ∈ l2 -> population s g p -> (p < py)%Z)).
Proof.
  split; [done|]. split_and!.
  - intros l1 g l2 -> Hall Hg. destruct l1 as [|x l1].
    + cbn [app get_largest_geo]. unfold geo_pop_tuple. by rewrite Hg.
    + destruct (Hall x) as (px & Hpx); [by left|].
      cbn [app get_largest_geo]. rewrite (geo_pop_tuple_population _ _ _ Hpx).
      destruct (reduce_larger_populated s l1 (g :: l2) (x, Some px) px)
        as (y & py & ->); [done|intros; apply Hall; by right|].
      cbn [reduce_larger]. unfold geo_pop_tuple. by rewrite Hg.
  - intros l1 g l2 d -> Hall Hg Hp. destruct l1 as [|x l1].
    + destruct l2 as [|y l2]; cbn [app get_largest_geo reduce_larger];
        unfold geo_pop_tuple; rewrite Hg, ?Hp; [done|].
      destruct (geo_data s y); [|done].
      by rewrite larger_unpopulated by (by left).
    + destruct (Hall x) as (px & Hpx); [by left|].
      cbn [app get_largest_geo]. rewrite (geo_pop_tuple_population _ _ _ Hpx).
      destruct (reduce_larger_populated s l1 (g :: l2) (x, Some px) px)
        as (y & py & ->); [done|intros; apply Hall; by right|].
      cbn [reduce_larger]. unfold geo_pop_tuple. rewrite Hg, Hp.
      by rewrite larger_unpopulated by (by right).
  - intros Hne Hall. destruct geos as [|x rest]; [done|].
    destruct (Hall x) as (px & d & Hd & Hp); [by left|].
    cbn [get_largest_geo]. unfold geo_pop_tuple at 1. rewrite Hd, Hp.
    destruct (reduce_larger_max s rest (x, Some px) px)
      as (y & py & Hr & Hle & Hmax & Hlast);
      [done|intros; apply Hall; by right|].
    rewrite Hr. cbn [fst].
    destruct Hlast as [[Heq Hlt]|(l1 & l2 & -> & Hpy & Hlt)].
    + injection Heq as -> ->. exists x, px, [], rest.
      split_and!; [done|done|by exists d|by intros ? ? ?%elem_of_nil|done].
    + exists y, py, (x :: l1), l2. split_and!; [done..| |done].
      intros g p [->|Hin]%elem_of_cons Hpop.
      * destruct Hpop as (d' & Hd' & Hp'). assert (p = px) as -> by congruence. lia.
      * eapply Hmax; [|done]. apply elem_of_app. by left.
Qed.

Lemma get_largest_geo_last_maximum_witness :
  exists y py l1 l2,
    get_largest_geo alias_of_three [2; 3; 2] = inr y
    /\ [2; 3; 2] = l1 ++ y :: l2
    /\ population alias_of_three y py
    /\ (forall g p, g ∈ l1 -> population alias_of_three g p -> (p <= py)%Z)
    /\ (forall g p, g ∈ l2 -> population alias_of_three g p -> (p < py)%Z).
Proof.
  destruct (get_largest_geo_last_maximum alias_of_three [2; 3; 2])
    as (_ & _ & _ & H).
  apply H; [discriminate|].
  intros g Hin.
  repeat (apply elem_of_cons in Hin as [->|Hin];
          [eexists; eexists; split; reflexivity|]).
  by apply elem_of_nil in Hin.
Defined.

(** ** Path components of a geo text *)

Section Components.

Lemma filter_all_out {A} (P : A -> Prop) `{forall x, Decision (P x)} (l : list A) :
  (forall x, x ∈ l -> ~ P x) -> filter P l = [].
Proof.
  induction l as [|x l IH]; intros Hl; [done|].
  rewrite filter_cons_False by (apply Hl; by left).
  apply IH. intros y Hy. apply Hl. by right.
Qed.

Lemma lstrip_length s : String.length (PyText.lstrip s) <= String.length s.
Proof.
  induction s as [|c s IH]; [done|]. cbn [PyText.lstrip].
  destruct (PyText.isspace c); cbn [String.length]; lia.
Qed.

Lemma lstrip_fixed_head c s :
  PyText.lstrip (String c s) = String c s <-> PyText.isspace c = false.
Proof.
  cbn [PyText.lstrip]. destruct (PyText.isspace c); [|done].
  split; [|done]. intros E. pose proof (lstrip_length s) as H.
  rewrite E in H. cbn [String.length] in H. lia.
Qed.

Lemma lstrip_idem s : PyText.lstrip (PyText.lstrip s) = PyText.lstrip s.
Proof.
  induction s as [|c s IH]; [done|]. cbn [PyText.lstrip].
  destruct (PyText.isspace c) eqn:E; [done|]. by apply lstrip_fixed_head.
Qed.

Lemma rstrip_idem s : PyText.rstrip (PyText.rstrip s) = PyText.rstrip s.
Proof.
  induction s as [|c s IH]; [done|]. cbn [PyText.rstrip].
  destruct (PyText.rstrip s) as [|d r] eqn:E.
  - destruct (PyText.isspace c) eqn:Ec; [done|].
    cbn [PyText.rstrip]. by rewrite Ec.
  - cbn [PyText.rstrip]. cbn [PyText.rstrip] in IH.
    by rewrite IH.
Qed.

Lemma lstrip_rstrip s :
  PyText.lstrip s = s -> PyText.lstrip (PyText.rstrip s) = PyText.rstrip s.
Proof.
  destruct s as [|c s]; [done|]. intros H%lstrip_fixed_head.
  cbn [PyText.rstrip]. destruct (PyText.rstrip s); rewrite ?H;
    by apply lstrip_fixed_head.
Qed.

Lemma strip_idem s : PyText.strip (PyText.strip s) = PyText.strip s.
Proof.
  unfold PyText.strip. rewrite lstrip_rstrip by apply lstrip_idem.
  apply rstrip_idem.
Qed.

Lemma lstrip_chars s x : x ∈ chars (PyText.lstrip s) -> x ∈ chars s.
Proof.
  induction s as [|c s IH]; [done|]. cbn [PyText.lstrip].
  destruct (PyText.isspace c); [|done]. intros H. right. by apply IH.
Qed.

Lemma rstrip_chars s x : x ∈ chars (PyText.rstrip s) -> x ∈ chars s.
Proof.
  induction s as [|c s IH]; [done|]. cbn [PyText.rstrip].
  destruct (PyText.rstrip s) as [|d r].
  - destruct (PyText.isspace c); [by intros ?%elem_of_nil|].
    intros ->%list_elem_of_singleton. by left.
  - change (x ∈ c :: chars (String d r) -> x ∈ c :: chars s).
    intros [->|H]%elem_of_cons; [by left|right; by apply IH].
Qed.

Lemma strip_chars s x : x ∈ chars (PyText.strip s) -> x ∈ chars s.
Proof. intros H%rstrip_chars. by apply lstrip_chars. Qed.

Lemma split_nonempty sep s : PyText.split sep s <> [].
Proof.
  destruct s as [|c s]; [done|]. cbn [PyText.split].
  destruct (Ascii.eqb c sep); [done|]. by destruct (PyText.split sep s).
Qed.

Lemma split_pieces sep s p : p ∈ PyText.split sep s -> sep ∉ chars p.
Proof.
  revert p. induction s as [|c s IH]; intros p.
  - intros ->%list_elem_of_singleton. by intros ?%elem_of_nil.
  - cbn [PyText.split]. destruct (Ascii.eqb c sep) eqn:E.
    + intros [->|H]%elem_of_cons; [by intros ?%elem_of_nil|by apply IH].
    + apply Ascii.eqb_neq in E.
      destruct (PyText.split sep s) as [|q qs] eqn:Es.
      * by destruct (split_nonempty sep s).
      * intros [->|H]%elem_of_cons.
        -- change (sep ∉ c :: chars q).
           intros [->|Hq]%elem_of_cons; [done|]. revert Hq. apply IH. by left.
        -- apply IH. by right.
Qed.

Lemma split_no_sep sep a : sep ∉ chars a -> PyText.split sep a = [a].
Proof.
  induction a as [|c a IH]; [done|]. intros H.
  cbn [PyText.split]. destruct (Ascii.eqb c sep) eqn:E.
  - apply Ascii.eqb_eq in E as ->. destruct H. by left.
  - rewrite IH; [done|]. intros Hin. apply H. by right.
Qed.

Lemma split_app_sep sep a b :
  sep ∉ chars a ->
  PyText.split sep (a +:+ String sep b) = a :: PyText.split sep b.
Proof.
  induction a as [|c a IH]; intros H.
  - change (PyText.split sep (String sep b) = "" :: PyText.split sep b).
    cbn [PyText.split]. by rewrite Ascii.eqb_refl.
  - change (PyText.split sep (String c (a +:+ String sep b))
            = String c a :: PyText.split sep b).
    cbn [PyText.split]. destruct (Ascii.eqb c sep) eqn:E.
    + apply Ascii.eqb_eq in E as ->. destruct H. by left.
    + rewrite IH; [done|]. intros Hin. apply H. by right.
Qed.

Lemma split_concat (l : list string) :
  (forall c, c ∈ l -> ","%char ∉ chars c) ->
  PyText.split "," (String.concat ", " l)
  = match l with
    | [] => [""]
    | c :: r => c :: map (fun c => " " +:+ c) r
    end.
Proof.
  induction l as [|c l IH]; intros H; [done|].
  destruct l as [|d l].
  - cbn [String.concat map]. apply split_no_sep. apply H. by left.
  - change (String.concat ", " (c :: d :: l))
      with (c +:+ String "," (" " +:+ String.concat ", " (d :: l))).
    rewrite split_app_sep by (apply H; by left).
    f_equal.
    change (" " +:+ String.concat ", " (d :: l))
      with (String " " (String.concat ", " (d :: l))).
    cbn [PyText.split]. change (Ascii.eqb " " ",") with false. cbv iota.
    rewrite IH by (intros x Hx; apply H; by right). done.
Qed.

Lemma elem_of_rev {A} (x : A) (l : list A) : x ∈ rev l <-> x ∈ l.
Proof. rewrite !list_elem_of_In. symmetry. apply in_rev. Qed.

Lemma infer_components (geo_text c : string) :
  c ∈ infer_path_component_names geo_text -> is_component c.
Proof.
  unfold infer_path_component_names.
  intros (p & -> & [Hne Hp]%list_elem_of_filter)%list_elem_of_fmap.
  rewrite elem_of_rev in Hp. split_and!; [done|apply strip_idem|].
  intros Hc%strip_chars. by apply split_pieces in Hp.
Qed.

Lemma infer_join (components : list string) :
  (forall c, c ∈ components -> is_component c) ->
  infer_path_component_names (String.concat ", " (rev components)) = components.
Proof.
  intros H. unfold infer_path_component_names.
  assert (Hr : forall c, c ∈ rev components -> is_component c).
  { intros c Hc. apply H. by rewrite <- elem_of_rev. }
  rewrite <- (rev_involutive components) at 2.
  generalize dependent (rev components). clear H. intros l Hl.
  rewrite split_concat by (intros c Hc; by apply Hl in Hc as (_ & _ & ?)).
  assert (Hpad : forall r : list string,
            (forall c, c ∈ r -> is_component c) ->
            map PyText.strip
              (filter (fun c => PyText.strip c <> "")
                      (rev (map (fun c => " " +:+ c) r))) = rev r).
  { intros r Hr. induction r as [|d r IH]; [done|].
    cbn [map rev]. rewrite filter_app, map_app, IH by (intros; apply Hr; by right).
    f_equal. destruct (Hr d) as (Hne & Hs & _); [by left|].
    assert (PyText.strip (" " +:+ d) = d) as Hd.
    { change (PyText.strip (" " +:+ d)) with (PyText.strip d). done. }
    rewrite filter_cons_True by (by rewrite Hd).
    rewrite filter_nil. cbn [map]. by rewrite Hd. }
  destruct l as [|c r]; [done|].
  cbn [rev]. rewrite filter_app, map_app.
  rewrite Hpad by (intros; apply Hl; by right). f_equal.
  destruct (Hl c) as (Hne & Hs & _); [by left|].
  rewrite filter_cons_True by (by rewrite Hs).
  rewrite filter_nil. cbn [map]. by rewrite Hs.
Qed.

Lemma is_component_dec (c : string) :
  c <> "" -> PyText.strip c = c ->
  forallb (fun x => negb (Ascii.eqb x ",")) (chars c) = true -> is_component c.
Proof.
  intros H1 H2 H3. split_and!; [done..|].
  intros Hin. rewrite forallb_forall in H3.
  apply list_elem_of_In, H3 in Hin. by rewrite Ascii.eqb_refl in Hin.
Qed.

Lemma split_chars sep s p x :
  p ∈ PyText.split sep s -> x ∈ chars p -> x ∈ chars s.
Proof.
  revert p. induction s as [|c s IH]; intros p.
  - by intros ->%list_elem_of_singleton.
  - cbn [PyText.split]. destruct (Ascii.eqb c sep) eqn:E.
    + intros [->|H]%elem_of_cons Hx; [by apply elem_of_nil in Hx|].
      right. by eapply IH.
    + destruct (PyText.split sep s) as [|q qs] eqn:Es.
      * intros ->%list_elem_of_singleton [->|Hx]%elem_of_cons; [by left|].
        by apply elem_of_nil in Hx.
      * intros [->|H]%elem_of_cons Hx.
        -- apply elem_of_cons in Hx as [->|Hx]; [by left|].
           right. apply (IH q); [by left|done].
        -- right. apply (IH p); [by right|done].
Qed.

Lemma lstrip_all_space s :
  (forall x, x ∈ chars s -> PyText.isspace x = true) -> PyText.lstrip s = "".
Proof.
  induction s as [|c s IH]; [done|]. intros H. cbn [PyText.lstrip].
  rewrite H by (by left). apply IH. intros x Hx. apply H. by right.
Qed.

Lemma infer_blank (geo_text : string) :
  (forall x, x ∈ chars geo_text -> x = ","%char \/ PyText.isspace x = true) ->
  infer_path_component_names geo_text = [].
Proof.
  intros H. unfold infer_path_component_names.
  rewrite filter_all_out; [done|].
  intros p Hp Hne. rewrite elem_of_rev in Hp. apply Hne. unfold PyText.strip.
  rewrite lstrip_all_space; [done|].
  intros x Hx. destruct (H x) as [->|Hs]; [by eapply split_chars| |done].
  by apply split_pieces in Hp.
Qed.

End Components.

(** X6: on ASCII text, every component that
    [Geo.infer_path_component_names] yields is not empty, has no white
    space at either end and holds no comma; ASCII components of that kind,
    joined by [', '] from the last to the first, are read back as they
    were; and an ASCII text of commas and white space only has no
    component. *)
Theorem infer_path_component_names_round_trip :
  (forall geo_text c,
     ascii_only geo_text = true ->
     c ∈ infer_path_component_names geo_text -> is_component c)
  /\ (forall components,
        (forall c, c ∈ components -> ascii_only c = true) ->
        (forall c, c ∈ components -> is_component c) ->
        infer_path_component_names (String.concat ", " (rev components))
        = components)
  /\ (forall geo_text,
        ascii_only geo_text = true ->
        (forall x, x ∈ chars geo_text ->
                   x = ","%char \/ PyText.isspace x = true) ->
        infer_path_component_names geo_text = []).
Proof.
  split_and!.
  - intros geo_text c _. apply infer_components.
  - intros components _. apply infer_join.
  - intros geo_text _. apply infer_blank.
Qed.

Lemma infer_path_component_names_round_trip_witness :
  infer_path_component_names
    (String.concat ", " (rev ["U.S."; "TX"; "Austin"]))
  = ["U.S."; "TX"; "Austin"].
Proof.
  destruct infer_path_component_names_round_trip as (_ & H & _).
  apply H; intros c Hin.
  - repeat (apply elem_of_cons in Hin as [->|Hin]; [reflexivity|]).
    by apply elem_of_nil in Hin.
  - repeat (apply elem_of_cons in Hin as [->|Hin];
            [apply is_component_dec; [discriminate|reflexivity|reflexivity]|]).
    by apply elem_of_nil in Hin.
Defined.

(** ** [Geo.is_known_by] *)

Section KnownBy.

Lemma prefix_refl (a : string) : String.prefix a a = true.
Proof.
  induction a as [|c a IH]; [done|]. cbn [String.prefix].
  by destruct (ascii_dec c c).
Qed.

Lemma contains_refl (a : string) : PyText.contains a a = true.
Proof.
  destruct a as [|c a]; [done|].
  change (String.prefix (String c a) (String c a) || PyText.contains (String c a) a = true).
  by rewrite prefix_refl.
Qed.

Lemma contains_empty (a : string) : PyText.contains "" a = true.
Proof. destruct a; reflexivity. Qed.

Lemma prefix_lower (a b : string) :
  String.prefix a b = true -> String.prefix (PyStr.lower a) (PyStr.lower b) = true.
Proof.
  revert b. induction a as [|c a IH]; intros b; [by destruct b|].
  destruct b as [|d b]; [done|]. cbn [String.prefix PyStr.lower].
  destruct (ascii_dec c d) as [->|]; [|done].
  destruct (ascii_dec (PyStr.lower_ascii d) (PyStr.lower_ascii d)); [|done].
  apply IH.
Qed.

Lemma contains_lower (a b : string) :
  PyText.contains a b = true ->
  PyText.contains (PyStr.lower a) (PyStr.lower b) = true.
Proof.
  induction b as [|d b IH]; cbn [PyText.contains PyStr.lower].
  - rewrite !orb_false_r. apply (prefix_lower a "").
  - intros [H|H]%orb_true_iff; apply orb_true_iff.
    + left. by apply (prefix_lower a (String d b)).
    + right. by apply IH.
Qed.

Lemma existsb_elem_of {A} (f : A -> bool) (l : list A) :
  existsb f l = true <-> exists x, x ∈ l /\ f x = true.
Proof.
  rewrite existsb_exists. split; intros (x & H & ?); exists x;
    (split; [by apply list_elem_of_In|done]).
Qed.

Lemma known_names_mono s self ia il ia' il' x :
  (ia = true -> ia' = true) -> (il = true -> il' = true) ->
  x ∈ known_names s self ia il -> x ∈ known_names s self ia' il'.
Proof.
  intros Ha Hl. unfold known_names. rewrite !elem_of_app.
  intros [H|[H|H]]; [by left| |].
  - destruct ia; [|by apply elem_of_nil in H]. rewrite Ha by done. right. by left.
  - destruct il; [|by apply elem_of_nil in H]. rewrite Hl by done.
    right. right. apply elem_of_app in H as [H|H]; apply elem_of_app; [by left|].
    destruct ia; [|by apply elem_of_nil in H]. rewrite Ha by done. by right.
Qed.

Lemma is_known_by_iff s self m fn cs ia il :
  is_known_by s self m fn cs ia il = true <->
  exists x, x ∈ known_names s self ia il /\
    let m' := if cs then m else PyStr.lower m in
    let x' := if cs then x else PyStr.lower x in
    if fn then m' = x' else PyText.contains m' x' = true.
Proof.
  unfold is_known_by. cbv zeta. destruct fn, cs.
  - rewrite bool_decide_eq_true. split; [by eauto|by intros (x & ? & ->)].
  - rewrite bool_decide_eq_true, list_elem_of_fmap.
    split; intros (x & ? & ?); by exists x.
  - apply existsb_elem_of.
  - rewrite existsb_elem_of. split.
    + intros (x & (y & -> & Hy)%list_elem_of_fmap & H). eauto.
    + intros (x & Hx & H). exists (PyStr.lower x). split; [|done].
      apply list_elem_of_fmap. eauto.
Qed.

End KnownBy.

(** X7: a match of [Geo.is_known_by] stays a match when an option is
    relaxed: part of a name instead of the full name, case ignored,
    abbreviations included, aliases included; where case is ignored, the
    match string and the names the geo is known by are taken to be
    ASCII. *)
Theorem is_known_by_relaxed (s : Store) (self : handle) (match_string : string)
    (full_name case_sensitive include_abbrev include_aliases : bool)
    (full_name' case_sensitive' include_abbrev' include_aliases' : bool) :
  is_known_by s self match_string
              full_name case_sensitive include_abbrev include_aliases = true ->
  (case_sensitive' = false ->
     ascii_only match_string = true
     /\ forall x, x ∈ known_names s self include_abbrev' include_aliases' ->
                  ascii_only x = true) ->
  (full_name' = true -> full_name = true) ->
  (case_sensitive' = true -> case_sensitive = true) ->
  (include_abbrev = true -> include_abbrev' = true) ->
  (include_aliases = true -> include_aliases' = true) ->
  is_known_by s self match_string
              full_name' case_sensitive' include_abbrev' include_aliases' = true.
Proof.
  intros (x & Hx & H)%is_known_by_iff _ Hf Hc Ha Hl.
  apply is_known_by_iff. exists x. split.
  { by apply (known_names_mono s self include_abbrev include_aliases). }
  cbv zeta in *.
  assert (Hcase : if full_name
                  then (if case_sensitive' then match_string
                        else PyStr.lower match_string)
                       = (if case_sensitive' then x else PyStr.lower x)
                  else PyText.contains
                         (if case_sensitive' then match_string
                          else PyStr.lower match_string)
                         (if case_sensitive' then x else PyStr.lower x) = true).
  { destruct case_sensitive'.
    - by rewrite Hc in H.
    - destruct case_sensitive; [|done].
      destruct full_name; [by rewrite H|by apply contains_lower]. }
  destruct full_name'.
  - by rewrite Hf in Hcase.
  - destruct full_name; [|done]. rewrite Hcase. apply contains_refl.
Qed.

Lemma is_known_by_relaxed_witness :
  is_known_by alias_and_target 1 "New York" true true false false = true
  /\ is_known_by alias_and_target 1 "New York" false false true true = true.
Proof.
  split; [reflexivity|].
  apply (is_known_by_relaxed alias_and_target 1 "New York"
           true true false false false false true true);
    [reflexivity| |discriminate|discriminate|discriminate|discriminate].
  intros _. split; [reflexivity|]. intros x Hin.
  change (known_names alias_and_target 1 true true)
    with ["New York"; "Big Apple"] in Hin.
  repeat (apply elem_of_cons in Hin as [->|Hin]; [reflexivity|]).
  by apply elem_of_nil in Hin.
Defined.

(** X8: under every choice of options a geo is known by its own name;
    with aliases included it is known by the name of each of its aliases,
    with abbreviations included by its abbreviation; and when part of a
    name is enough, it is known by the empty string. *)
Theorem is_known_by_names (s : Store) (self : handle)
    (full_name case_sensitive include_abbrev include_aliases : bool) :
  is_known_by s self (geo_name s self)
              full_name case_sensitive include_abbrev include_aliases = true
  /\ (forall alias, alias ∈ aliases s self ->
        is_known_by s self (geo_name s alias)
                    full_name case_sensitive include_abbrev true = true)
  /\ (forall a, PyStr.truthy (geo_abbrev s self) = Some a ->
        is_known_by s self a full_name case_sensitive true include_aliases = true)
  /\ is_known_by s self ""
                 false case_sensitive include_abbrev include_aliases = true.
Proof.
  assert (Hrefl : forall x ia il, x ∈ known_names s self ia il ->
            is_known_by s self x full_name case_sensitive ia il = true).
  { intros x ia il Hx. apply is_known_by_iff. exists x. split; [done|].
    cbv zeta. destruct full_name; [done|apply contains_refl]. }
  split_and!.
  - apply Hrefl. unfold known_names. apply elem_of_app. left. by left.
  - intros alias Hin. apply Hrefl. unfold known_names.
    rewrite !elem_of_app. right. right. left. by apply list_elem_of_fmap_2.
  - intros a Ha. apply Hrefl. unfold known_names. rewrite Ha.
    rewrite !elem_of_app. right. left. by left.
  - apply is_known_by_iff. exists (geo_name s self). split.
    + unfold known_names. apply elem_of_app. left. by left.
    + cbv zeta. destruct case_sensitive; apply contains_empty.
Qed.

(** ** [Geo.display] along the path *)

Section DisplayFacts.

Context (uses_the : handle -> bool).
Context (show_the show_The show_abbrev show_qualifier abbrev_path : bool).

Local Abbreviation loop := (display_loop uses_the show_the show_The show_abbrev
                          show_qualifier abbrev_path).
Local Abbreviation items := (display_items uses_the show_the show_The show_abbrev
                          show_qualifier abbrev_path).

Lemma display_loop_None fuel s max_path plvl geostr :
  loop fuel s max_path None plvl geostr = Ok geostr.
Proof. by destruct fuel. Qed.

Lemma display_loop_path (s : Store) (max_path : path_limit) (h : handle)
    (l : list handle) :
  path_to_root s h l ->
  forall fuel plvl geostr,
    (0 <= plvl)%Z ->
    length l <= fuel ->
    loop fuel s max_path (Some h) plvl geostr
    = Ok (geostr
          ++ items s (take (match max_path with
                            | Inf => length l
                            | Levels m => Z.to_nat (m + 1 - plvl)
                            end) l) plvl).
Proof.
  induction 1 as [h g Hg Hroot|h g p l Hg Hp Hpath IH];
    intros fuel plvl geostr Hpl Hfuel; cbn [length] in Hfuel.
  - destruct fuel as [|fuel]; [lia|]. cbn [display_loop].
    destruct (within plvl max_path) eqn:Ew.
    + rewrite Hg, Hroot. cbn [display_loop].
      assert (take (match max_path with
                    | Inf => length [h]
                    | Levels m => Z.to_nat (m + 1 - plvl)
                    end) [h] = [h]) as ->.
      { destruct max_path as [m|]; [|done]. cbn [within] in Ew.
        apply Z.leb_le in Ew.
        destruct (Z.to_nat (m + 1 - plvl)) as [|k] eqn:E; [lia|].
        cbn [take]. by rewrite take_nil. }
      rewrite display_loop_None. cbn [display_items]. by rewrite Hg.
    + destruct max_path as [m|]; [|done]. cbn [within] in Ew.
      apply Z.leb_gt in Ew.
      replace (Z.to_nat (m + 1 - plvl)) with 0 by lia.
      cbn [take display_items]. by rewrite app_nil_r.
  - destruct fuel as [|fuel]; [lia|]. cbn [display_loop].
    destruct (within plvl max_path) eqn:Ew.
    + rewrite Hg, Hp. rewrite IH by lia.
      rewrite <- (assoc_L (++)). do 2 f_equal. cbn [app].
      destruct max_path as [m|].
      * cbn [within] in Ew. apply Z.leb_le in Ew.
        replace (Z.to_nat (m + 1 - plvl)) with (S (Z.to_nat (m + 1 - (plvl + 1))))
          by lia.
        cbn [take display_items]. by rewrite Hg.
      * cbn [length take display_items]. rewrite Hg.
        by rewrite firstn_all.
    + destruct max_path as [m|]; [|done]. cbn [within] in Ew.
      apply Z.leb_gt in Ew.
      replace (Z.to_nat (m + 1 - plvl)) with 0 by lia.
      cbn [take display_items]. by rewrite app_nil_r.
Qed.

Lemma display_loop_bounded (s : Store) (m : Z) :
  forall fuel geo plvl geostr,
    (0 <= plvl)%Z -> Z.to_nat (m + 1 - plvl) <= fuel ->
    loop fuel s (Levels m) geo plvl geostr <> OutOfFuel.
Proof.
  induction fuel as [|fuel IH]; intros geo plvl geostr Hpl Hfuel.
  - destruct geo as [h|]; [|done]. cbn [display_loop within].
    destruct (plvl <=? m)%Z eqn:E; [|done]. apply Z.leb_le in E. lia.
  - destruct geo as [h|]; [|done]. cbn [display_loop within].
    destruct (plvl <=? m)%Z eqn:E; [|done].
    destruct (geos s !! h) as [g|]; [|done].
    apply IH; lia.
Qed.

End DisplayFacts.

Lemma display_unbounded (uses_the : handle -> bool)
    (show_the show_The show_abbrev show_qualifier abbrev_path : bool)
    (s : Store) (self : handle) (l : list handle) (fuel : nat) :
  path_to_root s self l -> length l <= fuel ->
  display uses_the show_the show_The show_abbrev show_qualifier abbrev_path
          fuel s Inf self
  = Ok (String.concat ", "
          (display_items uses_the show_the show_The show_abbrev show_qualifier
                         abbrev_path s l 0)).
Proof.
  intros Hp Hf. unfold display.
  rewrite (display_loop_path _ _ _ _ _ _ s Inf self l Hp fuel 0 []) by (done || lia).
  by rewrite firstn_all.
Qed.

(** X9: for a geo whose path-parents lead to a root, [Geo.display] with
    fuel for the path returns the items of the path joined by [', ']: the
    geo itself in full, then the abbreviation or name of each path-parent,
    nearest first. A [max_path] of [m >= 0] keeps the first [m + 1] items,
    and a negative one gives the empty string. *)
Theorem display_path (uses_the : handle -> bool)
    (show_the show_The show_abbrev show_qualifier abbrev_path : bool)
    (s : Store) (self : handle) (l : list handle) (fuel : nat) :
  path_to_root s self l -> length l <= fuel ->
  display uses_the show_the show_The show_abbrev show_qualifier abbrev_path
          fuel s Inf self
  = Ok (String.concat ", "
          (display_items uses_the show_the show_The show_abbrev show_qualifier
                         abbrev_path s l 0))
  /\ (forall m, (0 <= m)%Z ->
        display uses_the show_the show_The show_abbrev show_qualifier abbrev_path
                fuel s (Levels m) self
        = Ok (String.concat ", "
                (display_items uses_the show_the show_The show_abbrev
                               show_qualifier abbrev_path s
                               (take (S (Z.to_nat m)) l) 0)))
  /\ (forall m, (m < 0)%Z ->
        display uses_the show_the show_The show_abbrev show_qualifier abbrev_path
                fuel s (Levels m) self
        = Ok "").
Proof.
  intros Hp Hf. split_and!.
  - by apply display_unbounded.
  - intros m Hm. unfold display.
    rewrite (display_loop_path _ _ _ _ _ _ s (Levels m) self l Hp fuel 0 [])
      by (done || lia).
    cbn [app]. by replace (Z.to_nat (m + 1 - 0)) with (S (Z.to_nat m)) by lia.
  - intros m Hm. unfold display. destruct fuel as [|fuel']; cbn [display_loop within];
      by replace (0 <=? m)%Z with false by (symmetry; apply Z.leb_gt; lia).
Qed.

Lemma display_path_witness :
  display (fun _ => false) true false true true true 3 us_tx_austin Inf 2
  = Ok "Austin, TX, U.S."
  /\ display (fun _ => false) true false true true true 3 us_tx_austin (Levels 1) 2
     = Ok "Austin, TX"
  /\ display (fun _ => false) true false true true true 3 us_tx_austin (Levels (-1)) 2
     = Ok "".
Proof.
  destruct (display_path (fun _ => false) true false true true true
              us_tx_austin 2 [2; 1; 0] 3 us_tx_austin_path ltac:(cbn; lia))
    as (H1 & H2 & H3).
  split_and!.
  - exact H1.
  - exact (H2 1%Z ltac:(lia)).
  - exact (H3 (-1)%Z ltac:(lia)).
Defined.

Lemma display_items_plain uses_the s l :
  (forall h, h ∈ l -> is_Some (geos s !! h)) ->
  display_items uses_the false false false false false s l 0 = map (geo_name s) l.
Proof.
  generalize 0%Z. induction l as [|h l IH]; intros plvl Hl; [done|].
  cbn [display_items map]. destruct (Hl h) as [g Hg]; [by left|].
  rewrite Hg. f_equal.
  - unfold display_item, geo_name. rewrite Hg. cbn [from_option].
    rewrite !andb_false_r.
    assert (Hr : forall a : string, a +:+ "" = a).
    { intros a0. induction a0 as [|c a0 IHa]; [done|].
      change (String c (a0 +:+ "") = String c a0). by rewrite IHa. }
    destruct (plvl =? 0)%Z; [|done].
    destruct (PyStr.truthy (abbrev g)), (PyStr.truthy (qualifier g));
      by rewrite !Hr.
  - apply IH. intros x Hx. apply Hl. by right.
Qed.

Lemma path_to_root_lookup s h l x :
  path_to_root s h l -> x ∈ l -> is_Some (geos s !! x).
Proof.
  induction 1 as [h g Hg _|h g p l Hg _ _ IH].
  - intros ->%list_elem_of_singleton. by exists g.
  - intros [->|Hx]%elem_of_cons; [by exists g|by apply IH].
Qed.

(** X10: the text that [Geo.display] gives without article, abbreviation
    and qualifier is read back by [Geo.infer_path_component_names] as the
    names of the path, root first, when each name is ASCII and a path
    component (not empty, no white space at the ends, no comma). *)
Theorem display_parses_back (uses_the : handle -> bool)
    (s : Store) (self : handle) (l : list handle) (fuel : nat) :
  path_to_root s self l -> length l <= fuel ->
  (forall h, h ∈ l -> ascii_only (geo_name s h) = true) ->
  (forall h, h ∈ l -> is_component (geo_name s h)) ->
  exists text,
    display uses_the false false false false false fuel s Inf self = Ok text
    /\ infer_path_component_names text = map (geo_name s) (rev l).
Proof.
  intros Hp Hf _ Hc.
  pose proof (display_unbounded uses_the false false false false false
                s self l fuel Hp Hf) as Hd.
  rewrite display_items_plain in Hd by (intros h Hh; by eapply path_to_root_lookup).
  eexists. split; [exact Hd|].
  rewrite <- (rev_involutive (map (geo_name s) l)), infer_join.
  - by rewrite map_rev.
  - intros c Hc'. rewrite elem_of_rev in Hc'.
    apply list_elem_of_fmap in Hc' as (h & -> & Hh). by apply Hc.
Qed.

Lemma display_parses_back_witness :
  exists text,
    display (fun _ => false) false false false false false 3 us_tx_austin Inf 2
    = Ok text
    /\ infer_path_component_names text = ["U.S."; "Texas"; "Austin"].
Proof.
  apply (display_parses_back (fun _ => false) us_tx_austin 2 [2; 1; 0] 3
           us_tx_austin_path ltac:(cbn; lia)); intros h Hin.
  - repeat (apply elem_of_cons in Hin as [->|Hin]; [reflexivity|]).
    by apply elem_of_nil in Hin.
  - repeat (apply elem_of_cons in Hin as [->|Hin];
            [apply is_component_dec; [discriminate|reflexivity|reflexivity]|]).
    by apply elem_of_nil in Hin.
Defined.

(** ** Level keys and the taxonomy *)

Section LevelKeys.

Lemma DOWN_keys_sorted : StronglySorted (fun a b => level_rank a < level_rank b) DOWN_keys.
Proof. unfold DOWN_keys. repeat (constructor; [|repeat constructor; cbn; lia]). constructor. Qed.

Lemma UP_keys_rev : UP_keys = rev DOWN_keys.
Proof. reflexivity. Qed.

Lemma elem_of_DOWN_keys l : l ∈ DOWN_keys.
Proof. unfold DOWN_keys. destruct l; repeat (first [by left | right]). Qed.

Lemma level_up_keys_rev s self : level_up_keys s self = rev (level_down_keys s self).
Proof.
  unfold level_up_keys, level_down_keys. rewrite UP_keys_rev.
  generalize DOWN_keys. intros l. induction l as [|x l IH]; [done|].
  cbn [rev]. rewrite filter_app, IH.
  destruct (decide (x ∈ level_keys s self)).
  - rewrite (filter_cons_True _ x l) by done. rewrite (filter_cons_True _ x []) by done. done.
  - rewrite (filter_cons_False _ x l) by done. rewrite (filter_cons_False _ x []) by done.
    by rewrite filter_nil, app_nil_r.
Qed.

Lemma filter_sorted {A} (R : A -> A -> Prop) (P : A -> Prop) `{forall x, Decision (P x)}
    (l : list A) :
  StronglySorted R l -> StronglySorted R (filter P l).
Proof.
  induction 1 as [|x l Hs IH Hx]; [constructor|].
  destruct (decide (P x)).
  - rewrite filter_cons_True by done. constructor; [done|].
    apply Forall_forall. intros y [_ Hy]%list_elem_of_filter.
    by eapply Forall_forall in Hx.
  - by rewrite filter_cons_False.
Qed.

Lemma level_down_keys_sorted s self :
  StronglySorted (fun a b => level_rank a < level_rank b) (level_down_keys s self).
Proof. apply filter_sorted, DOWN_keys_sorted. Qed.

Lemma elem_of_level_down_keys s self l :
  l ∈ level_down_keys s self <-> l ∈ level_keys s self.
Proof.
  unfold level_down_keys. rewrite list_elem_of_filter.
  pose proof (elem_of_DOWN_keys l). tauto.
Qed.

Lemma top_level_key_spec s self :
  match top_level_key s self with
  | inl _ => False
  | inr None => geo_levels s self = []
  | inr (Some t) =>
      t ∈ level_keys s self
      /\ forall l, l ∈ level_keys s self -> level_rank t <= level_rank l
  end.
Proof.
  unfold top_level_key. destruct (geo_levels s self) as [|gl gls] eqn:E; [done|].
  cbn [nonempty].
  pose proof (level_down_keys_sorted s self) as Hs.
  pose proof (elem_of_level_down_keys s self) as He.
  destruct (level_down_keys s self) as [|t ks] eqn:Ek; cbn [next].
  - assert (level gl ∈ level_keys s self) as Hin.
    { unfold level_keys. rewrite E. by left. }
    apply He in Hin. by apply elem_of_nil in Hin.
  - split; [apply He; by left|].
    intros l [->|Hl]%He%elem_of_cons; [done|].
    apply StronglySorted_inv in Hs as [_ Hall].
    eapply Forall_forall in Hall; [|done]. lia.
Qed.

Lemma bottom_level_key_spec s self :
  match bottom_level_key s self with
  | inl _ => False
  | inr None => geo_levels s self = []
  | inr (Some b) =>
      b ∈ level_keys s self
      /\ forall l, l ∈ level_keys s self -> level_rank l <= level_rank b
  end.
Proof.
  unfold bottom_level_key. destruct (geo_levels s self) as [|gl gls] eqn:E; [done|].
  cbn [nonempty]. rewrite level_up_keys_rev.
  pose proof (level_down_keys_sorted s self) as Hs.
  pose proof (elem_of_level_down_keys s self) as He.
  destruct (level_down_keys s self) as [|t ks _] eqn:Ek using rev_ind.
  - assert (level gl ∈ level_keys s self) as Hin.
    { unfold level_keys. rewrite E. by left. }
    apply He in Hin. by apply elem_of_nil in Hin.
  - rewrite rev_app_distr. cbn [rev app next].
    split; [apply He, elem_of_app; right; by left|].
    intros l [Hl| ->%list_elem_of_singleton]%He%elem_of_app; [|done].
    pose proof (StronglySorted_app_1_elem_of _ _ _ l t Hs Hl) as Hlt.
    specialize (Hlt ltac:(by left)). cbn beta in Hlt. lia.
Qed.

Lemma level_rank_inj a b : level_rank a = level_rank b -> a = b.
Proof. by destruct a, b. Qed.

End LevelKeys.

Section TaxonomyMore.

Lemma UP_rank a l : a ∈ UP l -> level_rank a < level_rank l.
Proof.
  destruct l; cbn [UP]; intros H;
    repeat (apply elem_of_cons in H as [->|H]; [cbn; lia|]);
    by apply elem_of_nil in H.
Qed.

Lemma reaches_UP_rank l a : reaches UP l a -> level_rank a < level_rank l.
Proof.
  induction 1 as [l a H|l c a H _ IH]; pose proof (UP_rank _ _ H); lia.
Qed.

Lemma UP_sound l a : a ∈ UP l -> down_ancestor a l = true.
Proof.
  destruct l; cbn [UP]; intros H;
    repeat (apply elem_of_cons in H as [->|H]; [reflexivity|]);
    by apply elem_of_nil in H.
Qed.

Lemma down_ancestor_rank a l :
  down_ancestor a l = true -> level_rank a < level_rank l.
Proof. intros H%down_ancestor_reaches%reaches_DOWN_walk. tauto. Qed.

End TaxonomyMore.

(** X11: [level_up_keys] is [level_down_keys] reversed; for a geo without
    levels [top_level_key] and [bottom_level_key] are [None], and otherwise
    they return, without [StopIteration], levels of the geo between which
    all its levels lie in the order of DOWN: no level of the geo is a DOWN
    ancestor of the top one or a DOWN descendant of the bottom one. *)
Theorem level_keys_top_bottom (s : Store) (self : handle) :
  level_up_keys s self = rev (level_down_keys s self)
  /\ match top_level_key s self, bottom_level_key s self with
     | inr None, inr None => geo_levels s self = []
     | inr (Some t), inr (Some b) =>
         t ∈ level_keys s self /\ b ∈ level_keys s self
         /\ forall l, l ∈ level_keys s self ->
              level_rank t <= level_rank l <= level_rank b
              /\ down_ancestor l t = false /\ down_ancestor b l = false
     | _, _ => False
     end.
Proof.
  split; [apply level_up_keys_rev|].
  pose proof (top_level_key_spec s self) as Ht.
  pose proof (bottom_level_key_spec s self) as Hb.
  destruct (top_level_key s self) as [e|[t|]]; [done| |];
    destruct (bottom_level_key s self) as [e'|[b|]]; try done.
  - destruct Ht as [Ht1 Ht2], Hb as [Hb1 Hb2]. split_and!; [done..|].
    intros l Hl. specialize (Ht2 l Hl). specialize (Hb2 l Hl). split_and!; [done..| |].
    + destruct (down_ancestor l t) eqn:E; [|done].
      apply down_ancestor_rank in E. lia.
    + destruct (down_ancestor b l) eqn:E; [|done].
      apply down_ancestor_rank in E. lia.
  - destruct Ht as [Ht1 _]. unfold level_keys in Ht1. rewrite Hb in Ht1.
    by apply elem_of_nil in Ht1.
  - destruct Hb as [Hb1 _]. unfold level_keys in Hb1. rewrite Ht in Hb1.
    by apply elem_of_nil in Hb1.
Qed.

(** X12: every entry of [GeoLevel.UP] for a level is an ancestor of that
    level in [GeoLevel.DOWN]; DOWN goes strictly down and every walk along
    UP strictly up in the order of the levels, so neither has a cycle;
    [country] alone has no UP entry and [subplace] alone no DOWN entry. *)
Theorem UP_entries_are_DOWN_ancestors :
  (forall l a, a ∈ UP l -> down_ancestor a l = true)
  /\ (forall a l, down_ancestor a l = true -> level_rank a < level_rank l)
  /\ (forall n l a, walk UP n l a = true -> level_rank a < level_rank l)
  /\ (forall l, UP l = [] <-> l = COUNTRY)
  /\ (forall l, DOWN l = [] <-> l = SUBPLACE).
Proof.
  split_and!.
  - apply UP_sound.
  - apply down_ancestor_rank.
  - intros n l a H%walk_reaches. by apply reaches_UP_rank.
  - intros l. by destruct l.
  - intros l. by destruct l.
Qed.

(** ** What the alias operations never touch *)

Section AliasFrame.

Context (I : Store -> Prop).
Hypothesis I_rows : forall s f, I s -> I (with_alias_assoc f s).
Hypothesis I_move : forall s attr a b, I s -> I (move_attr attr a b s).

Lemma transfer_attr_frame self geo attr : preserves I (transfer_attr self geo attr).
Proof.
  unfold transfer_attr. apply preserves_bind_gets. intros s Hs.
  destruct (attr_held s self attr); [|done].
  rewrite bind_gets. destruct (attr_held s geo attr); [done|].
  by apply I_move.
Qed.

Lemma transfer_references_frame self geo : preserves I (transfer_references self geo).
Proof. apply preserves_for_each. intros attr. apply transfer_attr_frame. Qed.

Lemma remove_alias_target_frame self target :
  preserves I (remove_alias_target self target).
Proof.
  unfold remove_alias_target. apply preserves_bind_gets. intros s Hs.
  case_decide; [|done]. by apply I_rows.
Qed.

Lemma append_alias_target_frame self target :
  preserves I (append_alias_target self target).
Proof. apply preserves_modify. intros s Hs. by apply I_rows. Qed.

Lemma alias_targets_setter_frame add self new_targets :
  (forall a b, preserves I (add a b)) ->
  preserves I (alias_targets_setter add self new_targets).
Proof.
  intros Hadd. unfold alias_targets_setter. apply preserves_bind_gets.
  intros s Hs. at_state. apply preserves_bind.
  - apply preserves_for_each. intros x. apply remove_alias_target_frame.
  - intros _. apply preserves_for_each. intros x. apply Hadd.
Qed.


Lemma promote_body_frame add self :
  (forall a b, preserves I (add a b)) ->
  preserves I (promote_body add self).
Proof.
  intros Hadd. unfold promote_body. apply preserves_bind_get_alias_targets.
  intros s Hs.
  destruct (alias_targets s self) as [|tgt [|? ?]]; [done| |done].
  apply read_targets_inv; [done|]. intros _.
  destruct (nonempty (alias_targets s tgt)); [done|].
  at_state. apply preserves_bind.
  { by apply alias_targets_setter_frame. }
  intros _. apply preserves_bind_gets. clear s Hs. intros s Hs. at_state.
  apply preserves_bind; [|intros _; apply Hadd].
  apply preserves_for_each. intros x.
  apply preserves_bind; [apply remove_alias_target_frame | intros _; apply Hadd].
Qed.

Lemma add_alias_target_frame fuel self target :
  preserves I (add_alias_target fuel self target).
Proof.
  revert self target. induction fuel as [|fuel IH]; intros self target.
  { apply preserves_out_of_fuel. }
  cbn [add_alias_target]. case_decide; [apply preserves_raise|].
  apply preserves_bind_get_alias_targets. intros s Hs.
  case_decide; [done|]. rewrite bind_gets.
  destruct (nonempty (aliases s self)) eqn:Eal.
  - case_decide.
    + by apply promote_body_frame.
    + at_state.
      apply preserves_bind; [|intros _; apply IH].
      apply preserves_for_each. intros x.
      apply preserves_bind; [apply remove_alias_target_frame | intros _; apply IH].
  - apply read_targets_inv; [done|]. intros _.
    destruct (nonempty (alias_targets s target)) eqn:Ets; [done|].
    at_state. apply preserves_bind; [|intros _; apply append_alias_target_frame].
    destruct (nonempty (alias_targets s self)); [apply preserves_ret|].
    apply transfer_references_frame.
Qed.

Lemma promote_to_alias_target_frame fuel self :
  preserves I (promote_to_alias_target fuel self).
Proof. apply promote_body_frame. intros a b. apply add_alias_target_frame. Qed.

End AliasFrame.

Section Identity.

Lemma identity_alter (f : Geo -> Geo) (h : handle) (l : list Geo) :
  (forall g, identity (f g) = identity g) ->
  identity <$> alter f h l = identity <$> l.
Proof.
  intros Hf. revert h. induction l as [|g l IH]; intros h; [done|].
  destruct h as [|h]; cbn [alter list_alter fmap list_fmap].
  - by rewrite Hf.
  - f_equal. apply IH.
Qed.

Lemma same_identity_rows s0 s f :
  same_identity s0 s -> same_identity s0 (with_alias_assoc f s).
Proof. done. Qed.

Lemma same_identity_move s0 s attr a b :
  same_identity s0 s -> same_identity s0 (move_attr attr a b s).
Proof.
  unfold same_identity. intros H. destruct attr; cbn [move_attr]; try done.
  - cbn [with_geos geos]. by rewrite !identity_alter.
  - cbn [with_geos geos]. by rewrite !identity_alter.
Qed.

Lemma same_identity_lookup s0 s h :
  same_identity s0 s -> identity <$> geos s !! h = identity <$> geos s0 !! h.
Proof. intros H. by rewrite <- !list_lookup_fmap, H. Qed.

Lemma same_identity_length s0 s :
  same_identity s0 s -> length (geos s) = length (geos s0).
Proof. intros H%(f_equal length). by rewrite !length_fmap in H. Qed.

Lemma same_identity_key_derived s0 s h :
  same_identity s0 s -> key_derived s0 h -> key_derived s h.
Proof.
  intros H (g0 & Hg0 & Hk).
  pose proof (same_identity_lookup s0 s h H) as Hh. rewrite Hg0 in Hh.
  destruct (geos s !! h) as [g|] eqn:Hg; [|done].
  injection Hh as Hn Ha Hq Hi Hp.
  exists g. split; [done|]. rewrite Hp, Hn, Ha, Hq, Hi.
  destruct (path_parent g0) as [p|]; [|done].
  destruct Hk as (pg0 & pk & Hpg0 & Hpk & Hk).
  pose proof (same_identity_lookup s0 s p H) as Hpp. rewrite Hpg0 in Hpp.
  destruct (geos s !! p) as [pg|] eqn:Hpg; [|done].
  injection Hpp as _ _ _ Hpi _.
  exists pg, pk. split_and!; [done|congruence|done].
Qed.

Lemma same_identity_keys_derived s0 s :
  same_identity s0 s -> keys_derived s0 -> keys_derived s.
Proof.
  intros H Hk h Hh. apply (same_identity_key_derived s0); [done|].
  apply Hk. by rewrite <- (same_identity_length s0 s).
Qed.

Lemma same_identity_path_children s0 s self :
  same_identity s0 s -> path_children s self = path_children s0 self.
Proof.
  intros H. unfold path_children. rewrite (same_identity_length s0 s H).
  apply list_filter_iff. intros h.
  pose proof (same_identity_lookup s0 s h H) as Hh.
  destruct (geos s !! h) as [g|], (geos s0 !! h) as [g0|]; try done.
  injection Hh as _ _ _ _ Hp. cbn. by rewrite Hp.
Qed.

End Identity.

(** X13: [add_alias_target], [promote_to_alias_target],
    [remove_alias_target] and [transfer_references] leave the name, the
    abbreviation, the qualifier, the key and the path-parent of every geo
    as they are, whether they return or raise; so derived keys stay
    derived and the path-children of every geo stay the same. *)
Theorem alias_operations_keep_identity (s : Store) :
  (forall fuel self target,
      same_identity s (add_alias_target fuel self target s).1)
  /\ (forall fuel self, same_identity s (promote_to_alias_target fuel self s).1)
  /\ (forall self target, same_identity s (remove_alias_target self target s).1)
  /\ (forall self geo, same_identity s (transfer_references self geo s).1)
  /\ (forall s', same_identity s s' ->
        (keys_derived s -> keys_derived s')
        /\ (forall self, path_children s' self = path_children s self)
        /\ (forall h, human_id <$> geos s' !! h = human_id <$> geos s !! h)).
Proof.
  split_and!.
  - intros fuel self target.
    exact (add_alias_target_frame (same_identity s) (same_identity_rows s)
             (same_identity_move s) fuel self target s eq_refl).
  - intros fuel self.
    exact (promote_to_alias_target_frame (same_identity s) (same_identity_rows s)
             (same_identity_move s) fuel self s eq_refl).
  - intros self target.
    exact (remove_alias_target_frame (same_identity s) (same_identity_rows s)
             self target s eq_refl).
  - intros self geo.
    exact (transfer_references_frame (same_identity s) (same_identity_move s)
             self geo s eq_refl).
  - intros s' H. split_and!.
    + by apply same_identity_keys_derived.
    + intros self. by apply same_identity_path_children.
    + intros h. pose proof (same_identity_lookup s s' h H) as Hh.
      destruct (geos s' !! h) as [g'|], (geos s !! h) as [g|]; try done.
      injection Hh as _ _ _ Hi _. cbn. by rewrite Hi.
Qed.

(** ** What [add_alias_target] establishes *)

Section AddPost.

Lemma bind_Ok_inv {A B} (m : M A) (k : A -> M B) (s s' : Store) (b : B) :
  (m ≫= k) s = (s', Ok b) ->
  exists s1 a, m s = (s1, Ok a) /\ k a s1 = (s', Ok b).
Proof.
  unfold mbind, M_bind. destruct (m s) as [s1 [a|e|]]; [|done..].
  intros H. by exists s1, a.
Qed.

Lemma add_alias_target_adds fuel : forall self target s s',
  add_alias_target fuel self target s = (s', Ok tt) ->
  (self, target) ∈ alias_assoc s'.
Proof.
  induction fuel as [|fuel IH]; intros self target s s'; [done|].
  cbn [add_alias_target]. case_decide as Hself; [done|].
  intros [_ H]%read_targets_Ok_inv. revert H. case_decide as Hin.
  { intros [= <-]. by apply elem_of_alias_targets. }
  rewrite bind_gets.
  destruct (nonempty (aliases s self)) eqn:Eal.
  - case_decide as Hal.
    + unfold promote_body. intros [_ H]%read_targets_Ok_inv. revert H.
      apply elem_of_aliases, elem_of_alias_targets in Hal.
      destruct (alias_targets s target) as [|tgt [|? ?]] eqn:Et; [|
        |done].
      { by apply elem_of_nil in Hal. }
      apply list_elem_of_singleton in Hal as <-.
      intros [_ H]%read_targets_Ok_inv. revert H.
      destruct (nonempty (alias_targets s self)); [done|].
      intros (s1 & [] & _ & Hk)%bind_Ok_inv.
      rewrite bind_gets in Hk.
      apply bind_Ok_inv in Hk as (s2 & [] & _ & Hk).
      by apply IH in Hk.
    + intros (s1 & [] & _ & Hk)%bind_Ok_inv. by apply IH in Hk.
  - intros [_ H]%read_targets_Ok_inv. revert H.
    destruct (nonempty (alias_targets s target)); [done|].
    intros (s1 & [] & _ & Hk)%bind_Ok_inv.
    injection Hk as <-. cbn [with_alias_assoc alias_assoc].
    apply elem_of_app. right. by left.
Qed.

End AddPost.

(** X14: when [add_alias_target] returns, the target is not the geo
    itself and is one of its alias targets; in a store that keeps alias
    exclusivity the geo then has no alias of its own. *)
Theorem add_alias_target_links (fuel : nat) (s s' : Store) (self target : handle) :
  add_alias_target fuel self target s = (s', Ok tt) ->
  target <> self
  /\ target ∈ alias_targets s' self
  /\ (Exclusive s -> aliases s' self = []).
Proof.
  intros H. pose proof (add_alias_target_adds fuel self target s s' H) as Hrow.
  split_and!.
  - intros ->. destruct fuel as [|fuel]; [done|]. cbn [add_alias_target] in H.
    by rewrite decide_True in H.
  - by apply elem_of_alias_targets.
  - intros Hex%Exclusive_rows.
    pose proof (add_alias_target_Excl fuel self target s Hex) as Hex'.
    rewrite H in Hex'. cbn [fst] in Hex'.
    apply aliases_nil. intros a Ha. by apply (Hex' self target a).
Qed.

Lemma add_alias_target_links_witness :
  1 <> 2
  /\ 1 ∈ alias_targets (add_alias_target 1 2 1 alias_and_target).1 2
  /\ (Exclusive alias_and_target ->
      aliases (add_alias_target 1 2 1 alias_and_target).1 2 = []).
Proof.
  apply (add_alias_target_links 1 alias_and_target
           (add_alias_target 1 2 1 alias_and_target).1 2 1).
  reflexivity.
Defined.

(** ** A transfer of references that returns *)

Section TransferOk.

Context (self geo : handle).

Lemma transfer_attr_Ok attr s s' :
  transfer_attr self geo attr s = (s', Ok tt) <-> turn self geo attr s s'.
Proof.
  rewrite transfer_attr_eq. unfold turn.
  destruct (attr_held s self attr), (attr_held s geo attr); split;
    try (intros [= <-]; by (right + left));
    intros [[? ?]|(? & ? & ?)]; congruence.
Qed.

Lemma turn_PARENTS s s' :
  self <> geo ->
  turn self geo PARENTS s s' ->
  geos s' = geos s /\ alias_assoc s' = alias_assoc s
  /\ forall x y, (x, y) ∈ parent_child_assoc s' <->
       exists y0, (x, y0) ∈ parent_child_assoc s /\ y = redirect self geo y0.
Proof.
  unfold redirect. intros Hne [[Hh ->]|(Hs & Hg & ->)].
  - split_and!; [done..|]. intros x y. split.
    + intros H. exists y. split; [done|]. case_decide as E; [|done]. subst y.
      assert (attr_held s self PARENTS = true) by (apply held_PARENTS; eauto).
      congruence.
    + intros (y0 & H & ->). case_decide as E; [|done]. subst y0.
      assert (attr_held s self PARENTS = true) by (apply held_PARENTS; eauto).
      congruence.
  - split_and!; [done..|]. intros x y. rewrite elem_of_move_PARENTS.
    assert (Hnone : forall p, (p, geo) ∉ parent_child_assoc s).
    { intros p Hp.
      assert (attr_held s geo PARENTS = true) by (apply held_PARENTS; eauto).
      congruence. }
    split.
    + intros (Hy & [[H Hyg]|[-> H]]).
      * exists y. split; [done|]. by rewrite decide_False.
      * exists self. split; [done|]. by rewrite decide_True.
    + intros (y0 & H & ->). case_decide as E.
      * subst y0. split; [done|]. right. done.
      * split; [done|]. left. split; [done|]. intros ->. by apply Hnone in H.
Qed.

Lemma turn_CHILDREN s s' :
  self <> geo ->
  turn self geo CHILDREN s s' ->
  geos s' = geos s /\ alias_assoc s' = alias_assoc s
  /\ forall x y, (x, y) ∈ parent_child_assoc s' <->
       exists x0, (x0, y) ∈ parent_child_assoc s /\ x = redirect self geo x0.
Proof.
  unfold redirect. intros Hne [[Hh ->]|(Hs & Hg & ->)].
  - split_and!; [done..|]. intros x y. split.
    + intros H. exists x. split; [done|]. case_decide as E; [|done]. subst x.
      assert (attr_held s self CHILDREN = true) by (apply held_CHILDREN; eauto).
      congruence.
    + intros (x0 & H & ->). case_decide as E; [|done]. subst x0.
      assert (attr_held s self CHILDREN = true) by (apply held_CHILDREN; eauto).
      congruence.
  - split_and!; [done..|]. intros x y. rewrite elem_of_move_CHILDREN.
    assert (Hnone : forall c, (geo, c) ∉ parent_child_assoc s).
    { intros c Hc.
      assert (attr_held s geo CHILDREN = true) by (apply held_CHILDREN; eauto).
      congruence. }
    split.
    + intros (Hx & [[H Hxg]|[-> H]]).
      * exists x. split; [done|]. by rewrite decide_False.
      * exists self. split; [done|]. by rewrite decide_True.
    + intros (x0 & H & ->). case_decide as E.
      * subst x0. split; [done|]. right. done.
      * split; [done|]. left. split; [done|]. intros ->. by apply Hnone in H.
Qed.


Lemma geo_data_alter_eq s h v :
  is_Some (geos s !! h) ->
  geo_data (with_geos (alter (set_data v) h) s) h = v.
Proof.
  intros [g Hg]. unfold geo_data, with_geos. cbn [geos].
  by rewrite list_lookup_alter_eq, Hg.
Qed.

Lemma geo_data_alter_ne s h h' f :
  h <> h' -> geo_data (with_geos (alter f h) s) h' = geo_data s h'.
Proof.
  intros H. unfold geo_data, with_geos. cbn [geos].
  by rewrite list_lookup_alter_ne.
Qed.

Lemma geo_data_alter_None s h h' :
  geo_data s h' = None ->
  geo_data (with_geos (alter (set_data None) h) s) h' = None.
Proof.
  intros H. destruct (decide (h = h')) as [->|Hn].
  - unfold geo_data, with_geos in *. cbn [geos].
    rewrite list_lookup_alter_eq. by destruct (geos s !! h').
  - by rewrite geo_data_alter_ne.
Qed.

Lemma geo_levels_alter_eq s h v :
  is_Some (geos s !! h) ->
  geo_levels (with_geos (alter (set_levels v) h) s) h = v.
Proof.
  intros [g Hg]. unfold geo_levels, with_geos. cbn [geos].
  by rewrite list_lookup_alter_eq, Hg.
Qed.

Lemma geo_levels_alter_ne s h h' f :
  h <> h' -> geo_levels (with_geos (alter f h) s) h' = geo_levels s h'.
Proof.
  intros H. unfold geo_levels, with_geos. cbn [geos].
  by rewrite list_lookup_alter_ne.
Qed.

Lemma geo_levels_alter_nil s h :
  geo_levels (with_geos (alter (set_levels []) h) s) h = [].
Proof.
  unfold geo_levels, with_geos. cbn [geos].
  rewrite list_lookup_alter_eq. by destruct (geos s !! h).
Qed.

Lemma geo_data_alter_none_eq s h :
  geo_data (with_geos (alter (set_data None) h) s) h = None.
Proof.
  unfold geo_data, with_geos. cbn [geos].
  rewrite list_lookup_alter_eq. by destruct (geos s !! h).
Qed.

Lemma turn_DATA s s' :
  self <> geo ->
  turn self geo DATA s s' ->
  parent_child_assoc s' = parent_child_assoc s
  /\ alias_assoc s' = alias_assoc s
  /\ same_identity s s'
  /\ (forall h, geo_levels s' h = geo_levels s h)
  /\ geo_data s' self = None
  /\ (is_Some (geos s !! geo) ->
      geo_data s' geo = match geo_data s self with
                        | Some d => Some d
                        | None => geo_data s geo
                        end)
  /\ (forall h, h <> self -> h <> geo -> geos s' !! h = geos s !! h).
Proof.
  intros Hne [[Hh ->]|(Hs & Hg & ->)]; cbn [attr_held] in *.
  - destruct (geo_data s self) eqn:E; [done|]. by split_and!.
  - destruct (geo_data s self) as [d|] eqn:Ed; [|done].
    destruct (geo_data s geo) as [d'|] eqn:Ed'; [done|].
    cbn [move_attr]. split_and!; [done|done| | | | |].
    + unfold same_identity. cbn [with_geos geos]. by rewrite !identity_alter.
    + intros h. by rewrite !geo_levels_set_data.
    + apply geo_data_alter_none_eq.
    + intros Hin. rewrite geo_data_alter_ne by done.
      by rewrite geo_data_alter_eq.
    + intros h H1 H2. cbn [with_geos geos].
      by rewrite !list_lookup_alter_ne.
Qed.

Lemma turn_LEVELS s s' :
  self <> geo ->
  turn self geo LEVELS s s' ->
  parent_child_assoc s' = parent_child_assoc s
  /\ alias_assoc s' = alias_assoc s
  /\ same_identity s s'
  /\ (forall h, geo_data s' h = geo_data s h)
  /\ geo_levels s' self = []
  /\ (is_Some (geos s !! geo) ->
      geo_levels s' geo = match geo_levels s self with
                          | [] => geo_levels s geo
                          | ls => ls
                          end)
  /\ (forall h, h <> self -> h <> geo -> geos s' !! h = geos s !! h).
Proof.
  intros Hne [[Hh ->]|(Hs & Hg & ->)]; cbn [attr_held] in *.
  - apply nonempty_false in Hh. rewrite Hh. by split_and!.
  - destruct (geo_levels s self) as [|l ls] eqn:El; [done|].
    apply nonempty_false in Hg.
    cbn [move_attr]. split_and!; [done|done| | | | |].
    + unfold same_identity. cbn [with_geos geos]. by rewrite !identity_alter.
    + intros h. by rewrite !geo_data_set_levels.
    + by apply geo_levels_alter_nil.
    + intros Hin. rewrite geo_levels_alter_ne by done.
      by rewrite geo_levels_alter_eq.
    + intros h H1 H2. cbn [with_geos geos].
      by rewrite !list_lookup_alter_ne.
Qed.

Lemma transfer_references_Ok s s' :
  transfer_references self geo s = (s', Ok tt) <->
  exists s1 s2 s3,
    turn self geo PARENTS s s1 /\ turn self geo CHILDREN s1 s2 /\ turn self geo DATA s2 s3
    /\ turn self geo LEVELS s3 s'.
Proof.
  unfold transfer_references, attributes. split.
  - intros (s1 & [] & H1 & H)%bind_Ok_inv.
    apply bind_Ok_inv in H as (s2 & [] & H2 & H).
    apply bind_Ok_inv in H as (s3 & [] & H3 & H).
    apply bind_Ok_inv in H as (s4 & [] & H4 & H).
    injection H as <-. exists s1, s2, s3.
    by rewrite <- !transfer_attr_Ok.
  - intros (s1 & s2 & s3 & H1 & H2 & H3 & H4).
    apply transfer_attr_Ok in H1, H2, H3, H4.
    cbn [for_each].
    rewrite (bind_ok _ _ _ _ _ H1), (bind_ok _ _ _ _ _ H2),
            (bind_ok _ _ _ _ _ H3), (bind_ok _ _ _ _ _ H4). done.
Qed.


Lemma bool_eq_iff (a b : bool) : (a = true <-> b = true) -> a = b.
Proof.
  intros [H1 H2]. destruct a, b; try done.
  - symmetry. by apply H1.
  - by apply H2.
Qed.

Lemma held_CHILDREN_after_PARENTS s s1 x :
  self <> geo ->
  turn self geo PARENTS s s1 -> attr_held s1 x CHILDREN = attr_held s x CHILDREN.
Proof.
  intros Hne T. apply (turn_PARENTS _ _ Hne) in T as (_ & _ & R).
  apply bool_eq_iff.
  rewrite !held_CHILDREN. split.
  - intros (c & (y0 & H & _)%R). eauto.
  - intros (c & H). exists (redirect self geo c). apply R. eauto.
Qed.

Lemma held_DATA_geos s s2 x :
  geos s2 = geos s -> attr_held s2 x DATA = attr_held s x DATA.
Proof. intros H. cbn [attr_held]. unfold geo_data. by rewrite H. Qed.

Lemma held_LEVELS_levels s s3 x :
  (forall h, geo_levels s3 h = geo_levels s h) ->
  attr_held s3 x LEVELS = attr_held s x LEVELS.
Proof. intros H. cbn [attr_held]. by rewrite H. Qed.

Lemma geo_levels_geos s s2 h :
  geos s2 = geos s -> geo_levels s2 h = geo_levels s h.
Proof. intros H. unfold geo_levels. by rewrite H. Qed.

Lemma geo_data_geos s s2 h :
  geos s2 = geos s -> geo_data s2 h = geo_data s h.
Proof. intros H. unfold geo_data. by rewrite H. Qed.

Lemma turn_exists attr s :
  (attr_held s self attr = true -> attr_held s geo attr = false) ->
  exists s', turn self geo attr s s'.
Proof.
  intros H. unfold turn. destruct (attr_held s self attr) eqn:E.
  - exists (move_attr attr self geo s). right. by rewrite H.
  - exists s. by left.
Qed.

Lemma turn_no_conflict attr s s' :
  turn self geo attr s s' -> attr_held s self attr = true -> attr_held s geo attr = false.
Proof. intros [[H _]|(_ & H & _)]; [congruence|done]. Qed.

Lemma turns_transferred s s1 s2 s3 s' :
  self <> geo ->
  is_Some (geos s !! geo) ->
  turn self geo PARENTS s s1 -> turn self geo CHILDREN s1 s2 -> turn self geo DATA s2 s3 ->
  turn self geo LEVELS s3 s' ->
  transferred s s' self geo /\ no_conflict s self geo.
Proof.
  intros Hne Hin T1 T2 T3 T4.
  pose proof (held_CHILDREN_after_PARENTS _ _ self Hne T1) as HCs.
  pose proof (held_CHILDREN_after_PARENTS _ _ geo Hne T1) as HCg.
  pose proof (turn_no_conflict _ _ _ T1) as N1.
  pose proof (turn_no_conflict _ _ _ T2) as N2.
  pose proof (turn_no_conflict _ _ _ T3) as N3.
  pose proof (turn_no_conflict _ _ _ T4) as N4.
  apply (turn_PARENTS _ _ Hne) in T1 as (G1 & A1 & R1).
  apply (turn_CHILDREN _ _ Hne) in T2 as (G2 & A2 & R2).
  apply (turn_DATA _ _ Hne) in T3 as (P3 & A3 & I3 & L3 & Ds3 & Dg3 & O3).
  apply (turn_LEVELS _ _ Hne) in T4 as (P4 & A4 & I4 & D4 & Ls4 & Lg4 & O4).
  assert (G12 : geos s2 = geos s) by congruence.
  assert (Hin3 : is_Some (geos s3 !! geo)).
  { apply lookup_lt_is_Some. rewrite (same_identity_length s2 s3 I3), G12.
    by apply lookup_lt_is_Some. }
  split.
  - unfold transferred. split_and!.
    + intros x y. rewrite P4, P3, R2. split.
      * intros (x0 & (y0 & H & ->)%R1 & ->). eauto.
      * intros (x0 & y0 & H & -> & ->). exists x0. split; [|done].
        apply R1. eauto.
    + by rewrite D4.
    + done.
    + rewrite D4, Dg3 by (by rewrite G12).
      by rewrite !(geo_data_geos s s2).
    + rewrite Lg4 by done. by rewrite !L3, !(geo_levels_geos s s2).
    + intros h H1 H2. rewrite O4, O3 by done. by rewrite G12.
    + congruence.
    + unfold same_identity in *. rewrite I4, I3. by rewrite G12.
  - intros attr. destruct attr.
    + done.
    + rewrite <- HCs, <- HCg. done.
    + rewrite <- (held_DATA_geos s s2 self), <- (held_DATA_geos s s2 geo) by done.
      done.
    + rewrite <- (held_LEVELS_levels s s3 self), <- (held_LEVELS_levels s s3 geo).
      * done.
      * intros h. by rewrite L3, (geo_levels_geos s s2).
      * intros h. by rewrite L3, (geo_levels_geos s s2).
Qed.

Lemma turns_exist s :
  self <> geo ->
  no_conflict s self geo ->
  exists s1 s2 s3 s',
    turn self geo PARENTS s s1 /\ turn self geo CHILDREN s1 s2 /\ turn self geo DATA s2 s3
    /\ turn self geo LEVELS s3 s'.
Proof.
  intros Hne N.
  destruct (turn_exists PARENTS s (N _)) as (s1 & T1).
  pose proof (held_CHILDREN_after_PARENTS _ _ self Hne T1) as HCs.
  pose proof (held_CHILDREN_after_PARENTS _ _ geo Hne T1) as HCg.
  destruct (turn_exists CHILDREN s1) as (s2 & T2).
  { rewrite HCs, HCg. apply N. }
  pose proof (turn_PARENTS _ _ Hne T1) as (G1 & _).
  pose proof (turn_CHILDREN _ _ Hne T2) as (G2 & _).
  assert (G12 : geos s2 = geos s) by congruence.
  destruct (turn_exists DATA s2) as (s3 & T3).
  { rewrite !(held_DATA_geos s s2) by done. apply N. }
  pose proof (turn_DATA _ _ Hne T3) as (_ & _ & _ & L3 & _).
  destruct (turn_exists LEVELS s3) as (s' & T4).
  { rewrite !(held_LEVELS_levels s s3)
      by (intros h; by rewrite L3, (geo_levels_geos s s2)).
    apply N. }
  by exists s1, s2, s3, s'.
Qed.

End TransferOk.

Lemma conflict_found s self geo :
  ~ no_conflict s self geo ->
  exists attr, attr ∈ attributes /\ attr_held s self attr = true
               /\ attr_held s geo attr = true.
Proof.
  intros Hn.
  destruct (decide (Exists (fun attr => attr_held s self attr = true
                                        /\ attr_held s geo attr = true) attributes))
    as [He|He].
  - apply Exists_exists in He as (attr & ? & ? & ?). by exists attr.
  - exfalso. apply Hn. intros attr Hs.
    destruct (attr_held s geo attr) eqn:Hg; [|done].
    exfalso. apply He, Exists_exists. exists attr.
    split; [apply elem_of_attributes|done].
Qed.

Lemma transferred_empties s s' self geo :
  self <> geo -> transferred s s' self geo -> holds_no_references s' self.
Proof.
  intros Hne (R & Hd & Hl & _). intros attr. destruct attr; cbn [attr_held].
  - destruct (nonempty (parents s' self)) eqn:E; [|done].
    apply nonempty_true in E as (p & Hp%elem_of_parents).
    apply R in Hp as (x0 & y0 & _ & _ & Hy). unfold redirect in Hy.
    case_decide; congruence.
  - destruct (nonempty (children s' self)) eqn:E; [|done].
    apply nonempty_true in E as (p & Hp%elem_of_children).
    apply R in Hp as (x0 & y0 & _ & Hx & _). unfold redirect in Hx.
    case_decide; congruence.
  - by rewrite Hd.
  - by rewrite Hl.
Qed.

(** X15: [transfer_references] from a geo to another geo of the store
    returns exactly when the two hold no attribute in common, and raises
    [AttributeConflict] otherwise. When it returns, every parent and child
    link of the source has become a link of the destination, the data
    record and the levels of the source are those of the destination, the
    source holds nothing, and no other geo, alias row, name or key has
    changed. *)
Theorem transfer_references_redirects (s : Store) (self geo : handle) :
  self <> geo -> is_Some (geos s !! geo) ->
  (no_conflict s self geo ->
     exists s', transfer_references self geo s = (s', Ok tt))
  /\ (forall s', transfer_references self geo s = (s', Ok tt) ->
        no_conflict s self geo /\ transferred s s' self geo
        /\ holds_no_references s' self)
  /\ (~ no_conflict s self geo ->
        (transfer_references self geo s).2 = Raise AttributeConflict).
Proof.
  intros Hne Hin. split_and!.
  - intros (s1 & s2 & s3 & s' & T)%(turns_exist self geo s Hne).
    exists s'. apply (transfer_references_Ok self geo). by exists s1, s2, s3.
  - intros s' (s1 & s2 & s3 & T1 & T2 & T3 & T4)%(transfer_references_Ok self geo).
    destruct (turns_transferred self geo s s1 s2 s3 s' Hne Hin T1 T2 T3 T4) as [Ht Hn].
    split_and!; [done..|]. by apply (transferred_empties s s' self geo).
  - intros (attr & Ha & Hs & Hg)%conflict_found.
    apply transfer_loop_conflict; [apply NoDup_attributes|done|]. by exists attr.
Qed.

Lemma us_tx_austin_no_conflict : no_conflict us_tx_austin 2 0.
Proof. intros attr. by destruct attr. Qed.

Lemma transfer_references_redirects_witness :
  2 <> 0 /\ is_Some (geos us_tx_austin !! 0)
  /\ no_conflict us_tx_austin 2 0
  /\ exists s', transfer_references 2 0 us_tx_austin = (s', Ok tt).
Proof.
  assert (H0 : is_Some (geos us_tx_austin !! 0)) by (eexists; reflexivity).
  split; [lia|]. split; [exact H0|]. split; [exact us_tx_austin_no_conflict|].
  destruct (transfer_references_redirects us_tx_austin 2 0 ltac:(lia) H0) as (H & _).
  exact (H us_tx_austin_no_conflict).
Defined.

(** ** Adding an alias target and removing it again *)

Section Merge.

Lemma remove_first_snoc {A} `{EqDecision A} (x : A) (l : list A) :
  x ∉ l -> remove_first x (l ++ [x]) = l.
Proof.
  induction l as [|y l IH]; intros H; cbn [app remove_first].
  - by rewrite decide_True.
  - rewrite decide_False by (intros ->; apply H; by left).
    f_equal. apply IH. intros Hin. apply H. by right.
Qed.

Lemma with_alias_assoc_id s : with_alias_assoc (fun t => t) s = s.
Proof. by destruct s. Qed.

Lemma merge_then_unlink fuel s A B :
  A <> B -> is_Some (geos s !! B) ->
  alias_targets s A = [] -> aliases s A = [] -> alias_targets s B = [] ->
  no_conflict s A B ->
  exists s1 s2,
    add_alias_target (S fuel) A B s = (s1, Ok tt)
    /\ alias_assoc s1 = alias_assoc s ++ [(A, B)]
    /\ remove_alias_target A B s1 = (s2, Ok tt)
    /\ transfer_references A B s = (s2, Ok tt)
    /\ transferred s s2 A B.
Proof.
  intros Hne HB HA Hal HBt Hno.
  destruct (turns_exist A B s Hne Hno) as (t1 & t2 & t3 & s2 & T1 & T2 & T3 & T4).
  assert (Htr : transfer_references A B s = (s2, Ok tt)).
  { apply (transfer_references_Ok A B). by exists t1, t2, t3. }
  destruct (turns_transferred A B s t1 t2 t3 s2 Hne HB T1 T2 T3 T4) as [Ht _].
  assert (Hrows : alias_assoc s2 = alias_assoc s) by apply Ht.
  exists (with_alias_assoc (fun t => t ++ [(A, B)]) s2), s2.
  assert (Hadd : add_alias_target (S fuel) A B s
                 = (with_alias_assoc (fun t => t ++ [(A, B)]) s2, Ok tt)).
  { rewrite add_alias_target_direct;
      [|congruence|by rewrite HA; intros ?%elem_of_nil|done|done
       |by apply sortable_few_targets; rewrite HA; cbn; lia].
    rewrite HA. cbn [nonempty]. by rewrite (bind_ok _ _ _ _ _ Htr). }
  split_and!; [done|by cbn; rewrite Hrows| |done|done].
  rewrite remove_alias_target_present
    by (cbn [with_alias_assoc alias_assoc]; apply elem_of_app; right; by left).
  f_equal. destruct s2 as [g a p]. unfold with_alias_assoc. cbn [geos alias_assoc parent_child_assoc] in *.
  f_equal. apply remove_first_snoc. rewrite Hrows.
  apply alias_targets_nil. done.
Qed.


Lemma alias_targets_setter_same add s self new_targets :
  (forall t, t ∈ new_targets <-> t ∈ _alias_targets s self) ->
  alias_targets_setter add self new_targets s = (s, Ok tt).
Proof.
  intros Hsame. unfold alias_targets_setter. rewrite bind_gets.
  rewrite (filter_all_out (fun t => t ∉ new_targets)).
  2:{ intros t Ht Hn. rewrite elem_of_remove_dups in Ht. apply Hn. by apply Hsame. }
  rewrite (filter_all_out (fun t => t ∉ remove_dups (_alias_targets s self))).
  2:{ intros t Ht Hn. rewrite elem_of_remove_dups in Ht. apply Hn.
      apply elem_of_remove_dups. by apply Hsame. }
  done.
Qed.

Lemma aliases_setter_same add s self new_aliases :
  (forall a, a ∈ new_aliases <-> a ∈ _aliases s self) ->
  aliases_setter add self new_aliases s = (s, Ok tt).
Proof.
  intros Hsame. unfold aliases_setter. rewrite bind_gets.
  rewrite (filter_all_out (fun t => t ∉ new_aliases)).
  2:{ intros t Ht Hn. rewrite elem_of_remove_dups in Ht. apply Hn. by apply Hsame. }
  rewrite (filter_all_out (fun t => t ∉ remove_dups (_aliases s self))).
  2:{ intros t Ht Hn. rewrite elem_of_remove_dups in Ht. apply Hn.
      apply elem_of_remove_dups. by apply Hsame. }
  done.
Qed.

End Merge.

(** X16: for a geo A without alias relation and a geo B that is not an
    alias and holds no attribute in common with A, [add_alias_target] of B
    on A returns with the row (A, B) appended, and [remove_alias_target]
    then gives back the alias table as it was; but the references of A
    stay with B: the store is the one [transfer_references] alone gives, A
    holds nothing, and it is the first store only if A held nothing. *)
Theorem add_then_remove_alias_target (fuel : nat) (s : Store) (A B : handle) :
  A <> B -> is_Some (geos s !! B) ->
  alias_targets s A = [] -> aliases s A = [] -> alias_targets s B = [] ->
  no_conflict s A B ->
  exists s1 s2,
    add_alias_target (S fuel) A B s = (s1, Ok tt)
    /\ alias_assoc s1 = alias_assoc s ++ [(A, B)]
    /\ remove_alias_target A B s1 = (s2, Ok tt)
    /\ transfer_references A B s = (s2, Ok tt)
    /\ alias_assoc s2 = alias_assoc s
    /\ holds_no_references s2 A
    /\ (holds_no_references s A -> s2 = s).
Proof.
  intros Hne HB HA Hal HBt Hno.
  destruct (merge_then_unlink fuel s A B Hne HB HA Hal HBt Hno)
    as (s1 & s2 & H1 & Hr & H2 & H3 & Ht).
  exists s1, s2. split_and!; [done..|apply Ht|by eapply transferred_empties|].
  intros Hnone. rewrite transfer_references_none in H3 by done. congruence.
Qed.

Lemma parents_then_conflict_no_conflict : no_conflict parents_then_conflict 0 4.
Proof. intros attr. by destruct attr. Qed.

Lemma add_then_remove_alias_target_witness :
  no_conflict parents_then_conflict 0 4
  /\ exists s1 s2,
       add_alias_target 1 0 4 parents_then_conflict = (s1, Ok tt)
       /\ alias_assoc s1 = alias_assoc parents_then_conflict ++ [(0, 4)]
       /\ remove_alias_target 0 4 s1 = (s2, Ok tt)
       /\ transfer_references 0 4 parents_then_conflict = (s2, Ok tt)
       /\ alias_assoc s2 = alias_assoc parents_then_conflict
       /\ holds_no_references s2 0
       /\ (holds_no_references parents_then_conflict 0 -> s2 = parents_then_conflict).
Proof.
  split; [exact parents_then_conflict_no_conflict|].
  apply (add_then_remove_alias_target 0 parents_then_conflict 0 4);
    [lia | eexists; reflexivity | reflexivity | reflexivity | reflexivity
    | exact parents_then_conflict_no_conflict].
Defined.

(** ** Promotion of an alias: the references handed over *)

Section HandOver.

Implicit Types (s c : Store) (l : list handle) (acc : RefAttr -> bool).

Lemma attr_held_alias_rows s f g attr :
  attr_held (with_alias_assoc f s) g attr = attr_held s g attr.
Proof. by destruct attr. Qed.

Lemma sole_target_spec s B X :
  sole_target s B X <-> forall y, (X, y) ∈ alias_assoc s -> y = B.
Proof.
  unfold sole_target. rewrite Forall_forall. split.
  - intros H y Hy. by apply (H (X, y)).
  - intros H [x y] Hin. cbn. intros ->. by apply H.
Qed.

Lemma filter_ext_elem {A} (P Q : A -> Prop) `{forall x, Decision (P x)}
    `{forall x, Decision (Q x)} (l : list A) :
  (forall x, x ∈ l -> P x <-> Q x) -> filter P l = filter Q l.
Proof.
  induction l as [|x l IH]; intros Hl; [done|].
  rewrite !filter_cons. rewrite IH by (intros y Hy; apply Hl; by right).
  destruct (decide (P x)) as [Hp|Hp], (decide (Q x)) as [Hq|Hq]; try done.
  - exfalso. apply Hq, Hl; [by left|done].
  - exfalso. apply Hp, Hl; [by left|done].
Qed.

Lemma hand_over_ok_ext s c acc acc' l :
  (forall attr, acc' attr = acc attr) ->
  (forall g attr, g ∈ l -> attr_held c g attr = attr_held s g attr) ->
  hand_over_ok c acc' l <-> hand_over_ok s acc l.
Proof.
  revert acc acc'. induction l as [|g l IH]; intros acc acc' Hacc Hl; [done|].
  cbn [hand_over_ok]. rewrite IH.
  - split; intros [H1 H2]; (split; [|done]); intros attr Ha.
    + rewrite <- Hacc. apply H1. rewrite Hl; [done|by left].
    + rewrite Hacc. apply H1. rewrite <- Hl; [done|by left].
  - intros attr. cbn. rewrite Hacc, Hl; [done|by left].
  - intros g' attr Hg'. apply Hl. by right.
Qed.

Lemma hand_over_first_dec s acc g :
  (forall attr, attr_held s g attr = true -> acc attr = false)
  \/ exists attr, attr_held s g attr = true /\ acc attr = true.
Proof.
  destruct (decide (Exists (fun attr => attr_held s g attr = true /\ acc attr = true)
                           attributes)) as [He|He].
  - right. apply Exists_exists in He as (attr & _ & ?). by exists attr.
  - left. intros attr Ha. destruct (acc attr) eqn:E; [|done].
    exfalso. apply He, Exists_exists. exists attr.
    split; [apply elem_of_attributes|done].
Qed.

Lemma hand_over_ok_app s acc l1 l2 :
  hand_over_ok s acc (l1 ++ l2) <->
  hand_over_ok s acc l1
  /\ hand_over_ok s (fun attr => acc attr || existsb (fun g => attr_held s g attr) l1) l2.
Proof.
  revert acc. induction l1 as [|g l1 IH]; intros acc; cbn [app hand_over_ok existsb].
  - split.
    + intros H. split; [done|]. eapply hand_over_ok_ext; [| |exact H]; [|done].
      intros attr. cbn. by rewrite orb_false_r.
    + intros [_ H]. eapply hand_over_ok_ext; [| |exact H]; [|done].
      intros attr. cbn. by rewrite orb_false_r.
  - rewrite IH. split.
    + intros (H1 & H2 & H3). split_and!; [done..|].
      eapply hand_over_ok_ext; [| |exact H3]; [|done].
      intros attr. cbn. by rewrite orb_assoc.
    + intros ((H1 & H2) & H3). split_and!; [done..|].
      eapply hand_over_ok_ext; [| |exact H3]; [|done].
      intros attr. cbn. by rewrite orb_assoc.
Qed.

(** The transfers go through exactly when the geos hold no attribute that
    the receiver holds and no attribute in common. *)
Lemma hand_over_ok_pairwise s acc l :
  NoDup l ->
  hand_over_ok s acc l <->
  (forall g attr, g ∈ l -> attr_held s g attr = true -> acc attr = false)
  /\ (forall g g' attr, g ∈ l -> g' ∈ l -> g <> g' ->
        attr_held s g attr = true -> attr_held s g' attr = false).
Proof.
  intros Hnd. revert acc. induction Hnd as [|x l Hx Hnd IH]; intros acc.
  { cbn. split; [|done]. intros _. split.
    - by intros g attr ?%elem_of_nil.
    - by intros g g' attr ?%elem_of_nil. }
  cbn [hand_over_ok]. rewrite IH. split.
  - intros (H1 & H2 & H3). split.
    + intros g attr [->|Hg]%elem_of_cons Ha; [by apply H1|].
      specialize (H2 g attr Hg Ha). by apply orb_false_iff in H2 as [? _].
    + intros g g' attr [->|Hg]%elem_of_cons [->|Hg']%elem_of_cons Hne Ha; try done.
      * destruct (attr_held s g' attr) eqn:E; [|done].
        specialize (H2 g' attr Hg' E). apply orb_false_iff in H2 as [_ H2].
        congruence.
      * specialize (H2 g attr Hg Ha). by apply orb_false_iff in H2 as [_ ?].
      * by apply (H3 g g' attr).
  - intros (H1 & H2). split_and!.
    + intros attr Ha. apply (H1 x); [by left|done].
    + intros g attr Hg Ha. apply orb_false_iff. split.
      * apply (H1 g); [by right|done].
      * apply (H2 g x attr); [by right|by left| |done]. by intros ->.
    + intros g g' attr Hg Hg' Hne Ha. apply (H2 g g' attr); [by right|by right|done..].
Qed.

End HandOver.

Section Moved.

Implicit Types (s c : Store) (l : list handle) (acc : RefAttr -> bool).

Lemma transferred_moved s s' X A :
  transferred s s' X A -> references_moved s s' X A.
Proof. intros (? & ? & ? & ? & ? & ? & _ & ?). by split_and!. Qed.

Lemma references_moved_rows s s' f X A :
  references_moved s s' X A -> references_moved s (with_alias_assoc f s') X A.
Proof. done. Qed.

Lemma redirect_eq_other X A y Y : Y <> X -> Y <> A -> redirect X A y = Y <-> y = Y.
Proof. intros H1 H2. unfold redirect. case_decide; split; congruence. Qed.

Lemma redirect_eq_target X A y : X <> A -> redirect X A y = A <-> y = X \/ y = A.
Proof.
  intros H. unfold redirect. case_decide; split; try tauto; try congruence.
Qed.

Lemma redirect_ne_source X A y : X <> A -> redirect X A y <> X.
Proof. intros H. unfold redirect. case_decide; congruence. Qed.

(** Who holds what after a transfer from [X] to [A]. *)
Lemma references_moved_held s s' X A :
  X <> A -> references_moved s s' X A ->
  (forall attr, attr_held s' X attr = false)
  /\ (forall attr, attr_held s' A attr = attr_held s A attr || attr_held s X attr)
  /\ (forall Y attr, Y <> X -> Y <> A -> attr_held s' Y attr = attr_held s Y attr).
Proof.
  intros Hne (R & Hd & Hl & Hdg & Hlg & Ho & Hi). split_and!.
  - intros attr. destruct attr; cbn [attr_held].
    + apply not_true_iff_false. intros (p & Hp)%nonempty_true.
      apply elem_of_parents, R in Hp as (x0 & y0 & _ & _ & Hy).
      symmetry in Hy. by apply redirect_ne_source in Hy.
    + apply not_true_iff_false. intros (p & Hp)%nonempty_true.
      apply elem_of_children, R in Hp as (x0 & y0 & _ & Hx & _).
      symmetry in Hx. by apply redirect_ne_source in Hx.
    + by rewrite Hd.
    + by rewrite Hl.
  - intros attr. apply bool_eq_iff. rewrite orb_true_iff. destruct attr.
    + rewrite !held_PARENTS. split.
      * intros (p & (x0 & y0 & H0 & _ & Hy)%R). symmetry in Hy.
        apply redirect_eq_target in Hy as [->| ->]; eauto.
      * intros [(p & Hp)|(p & Hp)]; exists (redirect X A p); apply R.
        -- exists p, A. split_and!; [done..|]. symmetry. apply redirect_eq_target; auto.
        -- exists p, X. split_and!; [done..|]. symmetry. apply redirect_eq_target; auto.
    + rewrite !held_CHILDREN. split.
      * intros (p & (x0 & y0 & H0 & Hx & _)%R). symmetry in Hx.
        apply redirect_eq_target in Hx as [->| ->]; eauto.
      * intros [(p & Hp)|(p & Hp)]; exists (redirect X A p); apply R.
        -- exists A, p. split_and!; [done| |done]. symmetry. apply redirect_eq_target; auto.
        -- exists X, p. split_and!; [done| |done]. symmetry. apply redirect_eq_target; auto.
    + cbn [attr_held]. rewrite Hdg.
      destruct (geo_data s X), (geo_data s A); tauto.
    + cbn [attr_held]. rewrite Hlg.
      destruct (geo_levels s X), (geo_levels s A); cbn; tauto.
  - intros Y attr HYX HYA. destruct attr.
    + apply bool_eq_iff. rewrite !held_PARENTS. split.
      * intros (p & (x0 & y0 & H0 & _ & Hy)%R). symmetry in Hy.
        apply redirect_eq_other in Hy as ->; eauto.
      * intros (p & Hp). exists (redirect X A p). apply R. exists p, Y.
        split_and!; [done..|]. symmetry. by apply redirect_eq_other.
    + apply bool_eq_iff. rewrite !held_CHILDREN. split.
      * intros (p & (x0 & y0 & H0 & Hx & _)%R). symmetry in Hx.
        apply redirect_eq_other in Hx as ->; eauto.
      * intros (p & Hp). exists (redirect X A p). apply R. exists Y, p.
        split_and!; [done| |done]. symmetry. by apply redirect_eq_other.
    + cbn [attr_held]. unfold geo_data. by rewrite Ho.
    + cbn [attr_held]. unfold geo_levels. by rewrite Ho.
Qed.

Lemma no_conflict_rows s f X A :
  no_conflict (with_alias_assoc f s) X A <-> no_conflict s X A.
Proof. unfold no_conflict. by setoid_rewrite attr_held_alias_rows. Qed.

(** A transfer that returns, or the conflict it raises. *)
Lemma transfer_references_cases s X A :
  X <> A -> is_Some (geos s !! A) ->
  (no_conflict s X A /\
   exists s', transfer_references X A s = (s', Ok tt) /\ transferred s s' X A)
  \/ (~ no_conflict s X A /\
      (transfer_references X A s).2 = Raise AttributeConflict).
Proof.
  intros Hne HA.
  destruct (hand_over_first_dec s (attr_held s A) X) as [Hno|(attr & H1 & H2)].
  - left. split; [done|].
    destruct (turns_exist X A s Hne Hno) as (t1 & t2 & t3 & s' & T1 & T2 & T3 & T4).
    exists s'. split.
    + apply (transfer_references_Ok X A). by exists t1, t2, t3.
    + by destruct (turns_transferred X A s t1 t2 t3 s' Hne HA T1 T2 T3 T4).
  - right. split.
    + intros Hno. specialize (Hno attr H1). congruence.
    + apply transfer_loop_conflict; [apply NoDup_attributes|done|].
      exists attr. split; [apply elem_of_attributes|done].
Qed.

End Moved.

Section PromotionSteps.

Implicit Types (s : Store) (l : list handle) (acc : RefAttr -> bool).

Lemma sortable_subset s s' l l' :
  NoDup l' -> (forall x, x ∈ l' -> x ∈ l) ->
  (forall x, x ∈ l' -> pop_key s' x = pop_key s x) ->
  sortable s l = true -> sortable s' l' = true.
Proof.
  intros Hnd Hsub Hkeys [H|H]%sortable_inv.
  - apply sortable_short.
    assert (l' ⊆+ l) as Hm by (by apply NoDup_submseteq).
    apply submseteq_length in Hm. lia.
  - apply sortable_keys. intros x Hx. rewrite Hkeys by done. by apply H, Hsub.
Qed.

Lemma pop_key_lookup s s' x :
  geos s' !! x = geos s !! x -> pop_key s' x = pop_key s x.
Proof. intros H. unfold pop_key, geo_data. by rewrite H. Qed.

Lemma same_identity_is_Some s s' h :
  same_identity s s' -> is_Some (geos s !! h) -> is_Some (geos s' !! h).
Proof.
  intros Hi Hh. apply lookup_lt_is_Some. apply lookup_lt_is_Some in Hh.
  unfold same_identity in Hi.
  by rewrite <- (length_fmap identity (geos s')), Hi, length_fmap.
Qed.

Lemma same_identity_refl s : same_identity s s.
Proof. done. Qed.

Lemma same_identity_trans s1 s2 s3 :
  same_identity s1 s2 -> same_identity s2 s3 -> same_identity s1 s3.
Proof. unfold same_identity. congruence. Qed.

(** The rows when the row [(X, B)] has given way to [(X, A)]. *)
Lemma elem_of_repointed s A B X x y :
  NoDup (alias_assoc s) ->
  (x, y) ∈ remove_first (X, B) (alias_assoc s) ++ [(X, A)] <->
  ((x, y) ∈ alias_assoc s /\ (x, y) <> (X, B)) \/ (x, y) = (X, A).
Proof.
  intros Hnd.
  by rewrite elem_of_app, elem_of_remove_first_NoDup, list_elem_of_singleton.
Qed.

Lemma NoDup_repointed s A B X :
  NoDup (alias_assoc s) -> (X, A) ∉ alias_assoc s ->
  NoDup (remove_first (X, B) (alias_assoc s) ++ [(X, A)]).
Proof.
  intros Hnd Hn. apply NoDup_app. split; [by apply NoDup_remove_first|]. split.
  - intros e He ->%list_elem_of_singleton. by apply elem_of_remove_first in He.
  - apply NoDup_singleton.
Qed.

(** One turn of the loop of [promote_to_alias_target]: the alias [X] of
    [B] becomes an alias of [A], and hands its references to [A] when [B]
    was its one target. *)
Lemma promote_step fuel s A B X :
  (X, B) ∈ alias_assoc s -> X <> A ->
  (X, A) ∉ alias_assoc s -> (forall c, (c, X) ∉ alias_assoc s) ->
  (forall y, (A, y) ∉ alias_assoc s) ->
  NoDup (alias_assoc s) -> is_Some (geos s !! A) ->
  sortable s (filter (fun t => t <> B) (_alias_targets s X)) = true ->
  let step := (remove_alias_target X B ;; add_alias_target (S fuel) X A) in
  (~ sole_target s B X ->
     step s = (with_alias_assoc (fun t => remove_first (X, B) t ++ [(X, A)]) s, Ok tt))
  /\ (sole_target s B X -> no_conflict s X A ->
      exists s', step s = (s', Ok tt)
        /\ alias_assoc s' = remove_first (X, B) (alias_assoc s) ++ [(X, A)]
        /\ references_moved s s' X A
        /\ (holds_no_references s X ->
            geos s' = geos s /\ parent_child_assoc s' = parent_child_assoc s))
  /\ (sole_target s B X -> ~ no_conflict s X A ->
      (step s).2 = Raise AttributeConflict).
Proof.
  intros HXB HXA HnXA HnX HnA Hnd HA Hsort step.
  set (s1 := with_alias_assoc (remove_first (X, B)) s).
  assert (Hs1 : forall x y, (x, y) ∈ alias_assoc s1 <->
                  (x, y) ∈ alias_assoc s /\ (x, y) <> (X, B)).
  { intros x y. unfold s1, with_alias_assoc. cbn [alias_assoc].
    by apply elem_of_remove_first_NoDup. }
  assert (Hnd1 : NoDup (alias_assoc s1)).
  { unfold s1, with_alias_assoc. cbn [alias_assoc]. by apply NoDup_remove_first. }
  assert (Hsort1 : sortable s1 (_alias_targets s1 X) = true).
  { apply (sortable_subset s s1 (filter (fun t => t <> B) (_alias_targets s X))).
    - by apply NoDup_alias_targets_raw.
    - intros t [Ht Hne]%elem_of_alias_targets_raw%Hs1.
      apply list_elem_of_filter. split.
      + intros ->. by apply Hne.
      + by apply elem_of_alias_targets_raw.
    - done.
    - done. }
  assert (Hstep : step s =
            ((if nonempty (alias_targets s1 X) then mret tt
              else transfer_references X A) ;; append_alias_target X A) s1).
  { unfold step. erewrite bind_eq by (by apply remove_alias_target_present).
    cbn iota. fold s1. apply add_alias_target_direct.
    - congruence.
    - intros [Hin _]%elem_of_alias_targets%Hs1. done.
    - apply aliases_nil. intros c [Hc _]%Hs1. by apply (HnX c).
    - apply alias_targets_nil. intros y [Hy _]%Hs1. by apply (HnA y).
    - done. }
  assert (Hsole : sole_target s B X <-> alias_targets s1 X = []).
  { rewrite sole_target_spec, alias_targets_nil. split.
    - intros H y [Hy Hne]%Hs1. apply Hne. by rewrite (H y Hy).
    - intros H y Hy. destruct (decide (y = B)) as [->|Hne]; [done|].
      exfalso. apply (H y), Hs1. split; [done|]. congruence. }
  assert (HA1 : is_Some (geos s1 !! A)) by done.
  split_and!.
  - intros Hns. rewrite Hstep.
    destruct (alias_targets s1 X) as [|t ts] eqn:E; [by destruct Hns; apply Hsole|].
    done.
  - intros Hs Hno. rewrite Hstep. apply Hsole in Hs. rewrite Hs. cbn [nonempty].
    destruct (transfer_references_cases s1 X A HXA HA1) as [[_ (s2 & Hr & Ht)]|[Hn _]].
    2:{ destruct Hn. by apply no_conflict_rows. }
    rewrite (bind_ok _ _ _ _ _ Hr). eexists. split; [reflexivity|].
    cbn [append_alias_target modify with_alias_assoc alias_assoc].
    destruct Ht as (R & Hd & Hl & Hdg & Hlg & Ho & Ha & Hi). split_and!.
    + by rewrite Ha.
    + by split_and!.
    + intros Hnone.
      rewrite transfer_references_none in Hr
        by (intros attr; unfold s1; rewrite attr_held_alias_rows; apply Hnone).
      by injection Hr as <-.
  - intros Hs Hno. rewrite Hstep. apply Hsole in Hs. rewrite Hs. cbn [nonempty].
    destruct (transfer_references_cases s1 X A HXA HA1) as [[Hn _]|[_ Hr]].
    { destruct Hno. by apply (no_conflict_rows s (remove_first (X, B))). }
    unfold mbind, M_bind. destruct (transfer_references X A s1) as [s2 r].
    cbn [snd] in Hr. by subst r.
Qed.

End PromotionSteps.

Section PromotionLoop.

Implicit Types (s : Store) (l : list handle) (acc : RefAttr -> bool).

Lemma sole_target_rows s s' B X :
  (forall y, (X, y) ∈ alias_assoc s' <-> (X, y) ∈ alias_assoc s) ->
  sole_target s' B X <-> sole_target s B X.
Proof. intros H. rewrite !sole_target_spec. by setoid_rewrite H. Qed.

Lemma holds_no_references_held s s' Y :
  (forall attr, attr_held s' Y attr = attr_held s Y attr) ->
  holds_no_references s Y -> holds_no_references s' Y.
Proof. intros H Hn attr. by rewrite H. Qed.

Lemma existsb_ext_elem {T} (f g : T -> bool) (l : list T) :
  (forall x, x ∈ l -> f x = g x) -> existsb f l = existsb g l.
Proof.
  induction l as [|x l IH]; intros H; [done|]. cbn [existsb].
  rewrite H by (by left). f_equal. apply IH. intros y Hy. apply H. by right.
Qed.

Lemma promote_loop fuel A B l : forall s acc,
  NoDup l -> NoDup (alias_assoc s) -> A <> B -> is_Some (geos s !! A) ->
  (forall y, (A, y) ∉ alias_assoc s) ->
  (forall X, X ∈ l ->
     (X, B) ∈ alias_assoc s /\ X <> A /\ ((X, A) ∉ alias_assoc s)
     /\ (forall c, (c, X) ∉ alias_assoc s)
     /\ sortable s (filter (fun t => t <> B) (_alias_targets s X)) = true) ->
  (forall attr, attr_held s A attr = acc attr) ->
  let loop := for_each l (fun alias =>
                remove_alias_target alias B ;; add_alias_target (S fuel) alias A) in
  let G := filter (sole_target s B) l in
  (hand_over_ok s acc G ->
     exists s', loop s = (s', Ok tt) /\ repointed s s' A B l G acc)
  /\ (~ hand_over_ok s acc G -> (loop s).2 = Raise AttributeConflict).
Proof.
  induction l as [|X l IH]; intros s acc Hl Hnd Hne HA HnA Hall Hacc loop G.
  { split; [|by intros []]. intros _. exists s. split; [done|].
    unfold repointed, G. cbn [filter list_filter existsb]. split_and!; try done.
    - intros x y. split.
      + intros H. left. split; [done|]. intros [_ Hx]. by apply elem_of_nil in Hx.
      + intros [[H _]|[_ Hx]]; [done|]. by apply elem_of_nil in Hx.
    - intros attr. by rewrite orb_false_r.
    - by intros Y ?%elem_of_nil. }
  apply NoDup_cons in Hl as [HXl Hl].
  destruct (Hall X) as (HXB & HXA & HnXA & HnX & Hsort); [by left|].
  destruct (promote_step fuel s A B X HXB HXA HnXA HnX HnA Hnd HA Hsort)
    as (Sa & Sb & Sc).
  (* what the turn of [X] leaves for the other aliases *)
  assert (Hnext : forall s1,
            alias_assoc s1 = remove_first (X, B) (alias_assoc s) ++ [(X, A)] ->
            same_identity s s1 ->
            (forall Y, Y <> A -> Y <> X -> geos s1 !! Y = geos s !! Y) ->
            NoDup (alias_assoc s1)
            /\ is_Some (geos s1 !! A)
            /\ (forall y, (A, y) ∉ alias_assoc s1)
            /\ (forall X', X' ∈ l ->
                  (X', B) ∈ alias_assoc s1 /\ X' <> A /\ ((X', A) ∉ alias_assoc s1)
                  /\ (forall c, (c, X') ∉ alias_assoc s1)
                  /\ sortable s1 (filter (fun t => t <> B) (_alias_targets s1 X'))
                     = true)
            /\ filter (sole_target s1 B) l = filter (sole_target s B) l
            /\ (forall x y, (x, y) ∈ alias_assoc s1 <->
                  ((x, y) ∈ alias_assoc s /\ (x, y) <> (X, B)) \/ (x, y) = (X, A))).
  { intros s1 Hrows Hid Hgeos.
    assert (Hs1 : forall x y, (x, y) ∈ alias_assoc s1 <->
                    ((x, y) ∈ alias_assoc s /\ (x, y) <> (X, B)) \/ (x, y) = (X, A)).
    { intros x y. rewrite Hrows. by apply elem_of_repointed. }
    assert (Hother : forall X' y, X' <> X ->
              (X', y) ∈ alias_assoc s1 <-> (X', y) ∈ alias_assoc s).
    { intros X' y HX'. rewrite Hs1, !row_eq. tauto. }
    split_and!.
    - rewrite Hrows. by apply NoDup_repointed.
    - by apply (same_identity_is_Some s).
    - intros y [[Hy _]|E]%Hs1; [by apply (HnA y)|congruence].
    - intros X' HX'.
      destruct (Hall X') as (HXB' & HXA' & HnXA' & HnX' & Hsort'); [by right|].
      assert (X' <> X) by (intros ->; done).
      split_and!.
      + by apply Hother.
      + done.
      + intros H'. apply Hother in H'; done.
      + intros c [[? _]|E]%Hs1; [by apply (HnX' c)|congruence].
      + apply (sortable_subset s s1
                 (filter (fun t => t <> B) (_alias_targets s X'))); [| | |done].
        * apply NoDup_filter, NoDup_alias_targets_raw. rewrite Hrows.
          by apply NoDup_repointed.
        * intros t [Ht Hin]%list_elem_of_filter. apply list_elem_of_filter.
          split; [done|]. apply elem_of_alias_targets_raw.
          apply elem_of_alias_targets_raw in Hin. by apply Hother in Hin.
        * intros t [Ht Hin%elem_of_alias_targets_raw]%list_elem_of_filter.
          apply Hother in Hin; [|done].
          apply pop_key_lookup, Hgeos.
          -- intros ->. done.
          -- intros ->. by apply (HnX X').
    - apply filter_ext_elem. intros X' HX'. apply sole_target_rows.
      intros y. apply Hother. by intros ->.
    - done. }
  (* the rows at the end *)
  assert (Hrows_end : forall s1 s',
            (forall x y, (x, y) ∈ alias_assoc s1 <->
               ((x, y) ∈ alias_assoc s /\ (x, y) <> (X, B)) \/ (x, y) = (X, A)) ->
            (forall x y, (x, y) ∈ alias_assoc s' <->
               ((x, y) ∈ alias_assoc s1 /\ ~ (y = B /\ x ∈ l)) \/ (y = A /\ x ∈ l)) ->
            forall x y, (x, y) ∈ alias_assoc s' <->
              ((x, y) ∈ alias_assoc s /\ ~ (y = B /\ x ∈ X :: l))
              \/ (y = A /\ x ∈ X :: l)).
  { intros s1 s' Hs1 Hrows x y. rewrite Hrows, !Hs1, !elem_of_cons, !row_eq.
    assert (HlX : x ∈ l -> x <> X) by (intros ? ->; done).
    pose proof (HnA y) as HnAy. pose proof (HnXA) as HnXA'.
    destruct (decide (x = X)) as [Ex|Hx]; destruct (decide (y = B)) as [Ey|Hy];
      destruct (decide (y = A)) as [Ey'|Hy']; try congruence; tauto. }
  destruct (decide (sole_target s B X)) as [Hsole|Hsole].
  - (* [X] hands its references to [A] *)
    assert (HG : G = X :: filter (sole_target s B) l).
    { unfold G. by rewrite filter_cons_True. }
    rewrite HG. cbn [hand_over_ok].
    destruct (hand_over_first_dec s acc X) as [Hfirst|(attr & H1 & H2)].
    2:{ split.
        - intros [H _]. specialize (H attr H1). congruence.
        - intros _. unfold loop. rewrite for_each_cons.
          assert (Hr : ((remove_alias_target X B ;; add_alias_target (S fuel) X A) s).2
                       = Raise AttributeConflict).
          { apply Sc; [done|]. intros Hno. specialize (Hno attr H1).
            rewrite Hacc in Hno. congruence. }
          destruct ((remove_alias_target X B ;; add_alias_target (S fuel) X A) s)
            as [s1 r]. cbn [snd] in Hr. by subst r. }
    destruct (Sb Hsole) as (s1 & Hstep & Hrows & Hmoved & Hsame).
    { intros attr Ha. rewrite Hacc. by apply Hfirst. }
    destruct (references_moved_held s s1 X A HXA Hmoved) as (HX1 & HA1 & HY1).
    assert (Hid : same_identity s s1) by apply Hmoved.
    assert (Hgeos : forall Y, Y <> A -> Y <> X -> geos s1 !! Y = geos s !! Y).
    { intros Y ? ?. by apply Hmoved. }
    destruct (Hnext s1 Hrows Hid Hgeos) as (N1 & N2 & N3 & N4 & N5 & N6).
    set (acc' := fun attr => acc attr || attr_held s X attr).
    destruct (IH s1 acc' Hl N1 Hne N2 N3 N4) as [IHok IHfail].
    { intros attr. unfold acc'. by rewrite HA1, Hacc. }
    cbn zeta in IHok, IHfail. rewrite N5 in IHok, IHfail.
    set (G' := filter (sole_target s B) l) in *.
    assert (HG' : forall g, g ∈ G' -> g <> X /\ g <> A).
    { intros g [_ Hg]%list_elem_of_filter. split; [by intros ->|].
      by destruct (Hall g) as (_ & ? & _); [right|]. }
    assert (Hext : hand_over_ok s1 acc' G' <-> hand_over_ok s acc' G').
    { apply hand_over_ok_ext; [done|]. intros g attr Hg.
      destruct (HG' g Hg). by apply HY1. }
    unfold loop. rewrite for_each_cons, Hstep. split.
    + intros [_ Hrest]. destruct IHok as (s' & Hrun & Hpost); [by apply Hext|].
      exists s'. split; [done|].
      destruct Hpost as (P1 & P2 & P3 & P4 & P5 & P6 & P7 & P8).
      unfold repointed. split_and!.
      * done.
      * by apply (Hrows_end s1 s').
      * by eapply same_identity_trans.
      * intros attr. rewrite P4. unfold acc'. cbn [existsb].
        rewrite <- orb_assoc. f_equal. f_equal.
        apply existsb_ext_elem. intros g Hg. destruct (HG' g Hg). by apply HY1.
      * intros Y HYA HYG. apply not_elem_of_cons in HYG as [HYX HYG].
        rewrite P5 by done. by apply Hgeos.
      * intros Y attr HYA HYG. apply not_elem_of_cons in HYG as [HYX HYG].
        rewrite P6 by done. by apply HY1.
      * intros Y [->|HY]%elem_of_cons; [|by apply P7].
        intros attr. rewrite P6; [by apply HX1|done|].
        intros [_ Hin]%list_elem_of_filter. done.
      * intros Hnone.
        assert (HXn : holds_no_references s X) by (apply Hnone; by left).
        destruct (Hsame HXn) as [E1 E1'].
        destruct P8 as [E2 E3].
        { intros Y HY. destruct (HG' Y HY).
          apply (holds_no_references_held s); [intros attr; by apply HY1|].
          apply Hnone. by right. }
        split; congruence.
    + intros Hn. apply IHfail. intros Hok. apply Hn. split; [done|]. by apply Hext.
  - (* [X] has another target and keeps its references *)
    assert (HG : G = filter (sole_target s B) l).
    { unfold G. by rewrite filter_cons_False. }
    rewrite HG.
    set (s1 := with_alias_assoc (fun t => remove_first (X, B) t ++ [(X, A)]) s).
    assert (Hstep := Sa Hsole). fold s1 in Hstep.
    assert (Hheld : forall Y attr, attr_held s1 Y attr = attr_held s Y attr).
    { intros Y attr. apply attr_held_alias_rows. }
    destruct (Hnext s1 eq_refl (same_identity_refl s) (fun Y _ _ => eq_refl))
      as (N1 & N2 & N3 & N4 & N5 & N6).
    destruct (IH s1 acc Hl N1 Hne N2 N3 N4) as [IHok IHfail].
    { intros attr. by rewrite Hheld. }
    cbn zeta in IHok, IHfail. rewrite N5 in IHok, IHfail.
    set (G' := filter (sole_target s B) l) in *.
    assert (Hext : hand_over_ok s1 acc G' <-> hand_over_ok s acc G').
    { apply hand_over_ok_ext; [done|]. intros g attr Hg. apply Hheld. }
    unfold loop. rewrite for_each_cons, Hstep. split.
    + intros Hok. destruct IHok as (s' & Hrun & Hpost); [by apply Hext|].
      exists s'. split; [done|].
      destruct Hpost as (P1 & P2 & P3 & P4 & P5 & P6 & P7 & P8).
      unfold repointed. split_and!.
      * done.
      * by apply (Hrows_end s1 s').
      * done.
      * intros attr. rewrite P4. f_equal.
      * done.
      * intros Y attr HYA HYG. by rewrite P6, Hheld.
      * done.
      * intros Hnone. apply P8. intros Y HY.
        apply (holds_no_references_held s); [intros attr; apply Hheld|].
        by apply Hnone.
    + intros Hn. apply IHfail. intros Hok. apply Hn. by apply Hext.
Qed.

End PromotionLoop.

Section PromotionWhole.

Implicit Types (s : Store) (l : list handle) (acc : RefAttr -> bool).

Lemma hand_over_ok_dec s acc l : hand_over_ok s acc l \/ ~ hand_over_ok s acc l.
Proof.
  revert acc. induction l as [|g l IH]; intros acc; [by left|].
  cbn [hand_over_ok].
  destruct (hand_over_first_dec s acc g) as [H|(attr & H1 & H2)].
  - destruct (IH (fun attr => acc attr || attr_held s g attr)) as [H'|H'].
    + by left.
    + right. by intros [_ ?].
  - right. intros [H _]. specialize (H attr H1). congruence.
Qed.

Lemma existsb_held s l attr :
  existsb (fun g => attr_held s g attr) l = true <->
  exists g, g ∈ l /\ attr_held s g attr = true.
Proof.
  rewrite existsb_exists. by setoid_rewrite list_elem_of_In.
Qed.

Lemma raise_bind {T U} (m : M T) (k : T -> M U) s e :
  (m s).2 = Raise e -> ((m ≫= k) s).2 = Raise e.
Proof.
  unfold mbind, M_bind. destruct (m s) as [s1 r]. cbn [snd]. by intros ->.
Qed.

(** The promotion of the alias [A] of [B]: it returns when no two of the
    geos that hand their references to [A] hold an attribute of the same
    kind, and raises [AttributeConflict] when two of them do. *)
Lemma promote_hands_over fuel s A B :
  alias_targets s A = [B] -> Exclusive s -> NoDup (alias_assoc s) ->
  is_Some (geos s !! A) ->
  (forall X, (X, B) ∈ alias_assoc s ->
     sortable s (filter (fun t => t <> B) (_alias_targets s X)) = true) ->
  (no_shared_reference s A B ->
     exists s', promote_to_alias_target (S fuel) A s = (s', Ok tt)
       /\ NoDup (alias_assoc s') /\ promoted_rows s s' A B
       /\ same_identity s s'
       /\ (forall attr, attr_held s' A attr = true <->
             exists g, hands_over s A B g /\ attr_held s g attr = true)
       /\ (forall Y, hands_over s A B Y -> Y <> A -> holds_no_references s' Y)
       /\ (forall Y, ~ hands_over s A B Y -> geos s' !! Y = geos s !! Y)
       /\ (forall Y attr, ~ hands_over s A B Y ->
             attr_held s' Y attr = attr_held s Y attr)
       /\ ((forall X, (X, B) ∈ alias_assoc s -> holds_no_references s X) ->
           references_moved s s' B A))
  /\ (~ no_shared_reference s A B ->
      (promote_to_alias_target (S fuel) A s).2 = Raise AttributeConflict).
Proof.
  intros HAB Hex Hnd HinA Hsort. apply Exclusive_rows in Hex.
  assert (HrawAB : _alias_targets s A = [B]) by by apply stable_sort_singleton in HAB.
  assert (F1 : (A, B) ∈ alias_assoc s).
  { apply elem_of_alias_targets. rewrite HAB. by left. }
  assert (F2 : forall y, (A, y) ∈ alias_assoc s -> y = B).
  { intros y Hy%elem_of_alias_targets. rewrite HAB in Hy.
    by apply list_elem_of_singleton in Hy. }
  assert (F4 : forall y, (B, y) ∉ alias_assoc s).
  { intros y Hy. exact (Hex B y A Hy F1). }
  assert (F3 : A <> B) by (intros ->; exact (F4 B F1)).
  assert (F5 : forall c, (c, A) ∉ alias_assoc s).
  { intros c Hc. exact (Hex A B c F1 Hc). }
  assert (F6 : forall X c, (X, B) ∈ alias_assoc s -> (c, X) ∉ alias_assoc s).
  { intros X c HX Hc. exact (Hex X B c HX Hc). }
  assert (HB0 : alias_targets s B = []) by by apply alias_targets_nil.
  set (s1 := with_alias_assoc (remove_first (A, B)) s).
  assert (Hs1 : forall x y, (x, y) ∈ alias_assoc s1 <->
                  (x, y) ∈ alias_assoc s /\ (x, y) <> (A, B)).
  { intros x y. unfold s1, with_alias_assoc. cbn [alias_assoc].
    by apply elem_of_remove_first_NoDup. }
  assert (Hnd1 : NoDup (alias_assoc s1)).
  { unfold s1, with_alias_assoc. cbn [alias_assoc]. by apply NoDup_remove_first. }
  assert (Hl : forall x, x ∈ aliases s1 B <-> (x, B) ∈ alias_assoc s /\ x <> A).
  { intros x. rewrite elem_of_aliases, Hs1, row_eq. tauto. }
  assert (Hheld1 : forall g attr, attr_held s1 g attr = attr_held s g attr).
  { intros g attr. apply attr_held_alias_rows. }
  set (l := aliases s1 B).
  set (G := filter (sole_target s1 B) l).
  set (acc := attr_held s A).
  (* the geos that hand over, in the order of their turns *)
  assert (HG : forall g, g ∈ G <->
            (g, B) ∈ alias_assoc s /\ g <> A /\ sole_target s B g).
  { intros g. unfold G, l. rewrite list_elem_of_filter, Hl.
    split.
    - intros (Hsole & Hg & HgA). split_and!; [done..|].
      revert Hsole. apply sole_target_rows. intros y. rewrite Hs1, row_eq. tauto.
    - intros (Hg & HgA & Hsole). split_and!; [|done..].
      revert Hsole. apply sole_target_rows. intros y. rewrite Hs1, row_eq. tauto. }
  assert (HBG : B ∉ G).
  { intros [H _]%HG. exact (F4 _ H). }
  assert (HAG : A ∉ G).
  { intros (_ & H & _)%HG. done. }
  assert (HndG : NoDup (G ++ [B])).
  { apply NoDup_app. split_and!.
    - apply NoDup_filter. by apply NoDup_aliases.
    - intros g Hg ->%list_elem_of_singleton. done.
    - apply NoDup_singleton. }
  assert (HL : forall g, g ∈ G ++ [B] <-> hands_over s A B g /\ g <> A).
  { intros g. rewrite elem_of_app, list_elem_of_singleton, HG. unfold hands_over.
    split.
    - intros [(H1 & H2 & H3)| ->]; split; try done; [right; right|right; left]; done.
    - intros [[H|[H|[H1 H2]]] HgA]; [done|by right|left; done]. }
  assert (Hkey : hand_over_ok s acc (G ++ [B]) <-> no_shared_reference s A B).
  { rewrite hand_over_ok_pairwise by done. unfold no_shared_reference, acc. split.
    - intros [K1 K2] g g' attr Hg Hg' Hne Hh.
      destruct (decide (g = A)) as [->|HgA]; destruct (decide (g' = A)) as [->|Hg'A].
      + done.
      + destruct (attr_held s g' attr) eqn:E; [|done].
        rewrite (K1 g' attr) in Hh; [done| |done]. by apply HL.
      + apply (K1 g attr); [|done]. by apply HL.
      + apply (K2 g g' attr); [by apply HL..|done|done].
    - intros K. split.
      + intros g attr [Hg HgA]%HL Hh. apply (K g A attr); [done|by left|done|done].
      + intros g g' attr [Hg _]%HL [Hg' _]%HL Hne Hh. by apply (K g g' attr). }
  assert (Happ : hand_over_ok s acc (G ++ [B]) <->
            hand_over_ok s1 acc G
            /\ (forall attr, attr_held s B attr = true ->
                  acc attr || existsb (fun g => attr_held s g attr) G = false)).
  { rewrite hand_over_ok_app. cbn [hand_over_ok].
    rewrite (hand_over_ok_ext s s1 acc acc G) by done. tauto. }
  (* the steps before the loop *)
  unfold promote_to_alias_target, promote_body.
  rewrite bind_get_alias_targets
    by (apply sortable_few_targets; rewrite HAB; cbn; lia).
  rewrite HAB.
  rewrite bind_get_alias_targets
    by (apply sortable_few_targets; rewrite HB0; cbn; lia).
  rewrite HB0. cbn [nonempty].
  erewrite bind_eq by (by apply (alias_targets_setter_clear_one _ s A B)).
  cbn iota. fold s1. rewrite bind_gets. fold l.
  destruct (promote_loop fuel A B l s1 acc) as [Lok Lfail];
    [by apply NoDup_aliases|done|done|done| | |done|].
  { intros y [Hy Hne]%Hs1. apply Hne. by rewrite (F2 y Hy). }
  { intros X [HXB HXA]%Hl. split_and!.
    - apply Hs1. rewrite row_eq. tauto.
    - done.
    - intros [H _]%Hs1. by apply (F5 X).
    - intros c [H _]%Hs1. by apply (F6 X c).
    - apply (sortable_subset s s1 (filter (fun t => t <> B) (_alias_targets s X)));
        [| | |by apply Hsort].
      + by apply NoDup_filter, NoDup_alias_targets_raw.
      + intros t [Ht Hin]%list_elem_of_filter. apply list_elem_of_filter.
        split; [done|]. apply elem_of_alias_targets_raw.
        apply elem_of_alias_targets_raw in Hin. by apply Hs1 in Hin as [? _].
      + done. }
  cbn zeta in Lok, Lfail. fold G in Lok, Lfail.
  (* the turn of [B], after a loop that has returned *)
  assert (Hlast : forall s2,
            repointed s1 s2 A B l G acc ->
            (forall x y, (x, y) ∈ alias_assoc s2 <->
               ((x, y) ∈ alias_assoc s /\ y <> B)
               \/ (y = A /\ x <> A /\ (x, B) ∈ alias_assoc s))
            /\ add_alias_target (S fuel) B A s2
               = (transfer_references B A ;; append_alias_target B A) s2
            /\ is_Some (geos s2 !! A)
            /\ (forall attr, attr_held s2 B attr = attr_held s B attr)
            /\ (forall attr, attr_held s2 A attr
                  = acc attr || existsb (fun g => attr_held s g attr) G)).
  { intros s2 (P1 & P2 & P3 & P4 & P5 & P6 & P7 & P8).
    assert (Hs2 : forall x y, (x, y) ∈ alias_assoc s2 <->
              ((x, y) ∈ alias_assoc s /\ y <> B)
              \/ (y = A /\ x <> A /\ (x, B) ∈ alias_assoc s)).
    { intros x y. rewrite P2, Hs1. unfold l. rewrite Hl, row_eq.
      pose proof (F2 y). pose proof (F5 x).
      destruct (decide (x = A)) as [Ex|Hx]; destruct (decide (y = B)) as [Ey|Hy];
        destruct (decide (y = A)) as [Ey'|Hy']; subst; tauto. }
    assert (HB2 : alias_targets s2 B = []).
    { apply alias_targets_nil.
      intros y [[H _]|(_ & _ & H)]%Hs2; by apply (F4 _ H). }
    split_and!.
    - done.
    - rewrite add_alias_target_direct.
      + by rewrite HB2.
      + congruence.
      + rewrite HB2. apply not_elem_of_nil.
      + apply aliases_nil. intros c [[_ H]|(E & _)]%Hs2; congruence.
      + apply alias_targets_nil. intros y [[H Hy]|(_ & H & _)]%Hs2; [|done].
        apply Hy. by apply F2.
      + apply sortable_few_targets. rewrite HB2. cbn. lia.
    - by apply (same_identity_is_Some s1).
    - intros attr. rewrite P6 by done. apply Hheld1.
    - intros attr. rewrite P4. f_equal. }
  split.
  - (* no two hold the same attribute *)
    intros Hno. apply Hkey, Happ in Hno as [HokG HokB].
    destruct (Lok HokG) as (s2 & Hrun & Hpost).
    destruct (Hlast s2 Hpost) as (Hs2 & Hadd & HinA2 & HB2 & HA2).
    destruct Hpost as (P1 & P2 & P3 & P4 & P5 & P6 & P7 & P8).
    rewrite (bind_ok _ _ _ _ _ Hrun), Hadd.
    destruct (transfer_references_cases s2 B A (not_eq_sym F3) HinA2)
      as [[_ (s3 & Hr & Ht)]|[Hn _]].
    2:{ destruct Hn. intros attr Hh. rewrite HB2 in Hh. rewrite HA2. by apply HokB. }
    rewrite (bind_ok _ _ _ _ _ Hr). eexists. split; [reflexivity|].
    cbn [append_alias_target modify with_alias_assoc alias_assoc].
    pose proof (transferred_moved _ _ _ _ Ht) as Hm.
    destruct (references_moved_held s2 s3 B A (not_eq_sym F3) Hm) as (M1 & M2 & M3).
    destruct Ht as (R & Hd & Hlv & Hdg & Hlg & Ho & Ha & Hi).
    split_and!.
    + unfold with_alias_assoc. cbn [alias_assoc]. rewrite Ha. apply NoDup_app. split; [done|].
      split; [|apply NoDup_singleton].
      intros e He ->%list_elem_of_singleton.
      apply Hs2 in He as [[H _]|(_ & _ & H)]; by apply (F4 _ H).
    + intros x y. unfold with_alias_assoc. cbn [alias_assoc]. rewrite Ha.
      rewrite elem_of_app, Hs2, list_elem_of_singleton, row_eq. tauto.
    + apply (same_identity_trans s s2); [|done].
      apply (same_identity_trans s s1); done.
    + intros attr. rewrite attr_held_alias_rows, M2, HA2, HB2.
      rewrite !orb_true_iff, existsb_held. unfold acc. split.
      * intros [[H|(g & Hg & H)]|H].
        -- exists A. split; [by left|done].
        -- exists g. split; [|done]. apply (HL g). apply elem_of_app. by left.
        -- exists B. split; [|done]. right. by left.
      * intros (g & Hg & H). destruct (decide (g = A)) as [->|HgA]; [by left; left|].
        assert (Hin : g ∈ G ++ [B]) by (by apply HL).
        apply elem_of_app in Hin as [Hin| ->%list_elem_of_singleton].
        -- left. right. by exists g.
        -- by right.
    + intros Y HY HYA attr. rewrite attr_held_alias_rows.
      assert (Hin : Y ∈ G ++ [B]) by (by apply HL).
      apply elem_of_app in Hin as [Hin| ->%list_elem_of_singleton]; [|by apply M1].
      rewrite M3; [by apply P7| |done]. intros ->. done.
    + intros Y HY. unfold with_alias_assoc. cbn [geos].
      assert (HYA : Y <> A) by (intros ->; apply HY; by left).
      assert (HYB : Y <> B) by (intros ->; apply HY; right; by left).
      assert (HYG : Y ∉ G).
      { intros Hin. apply HY, (HL Y). apply elem_of_app. by left. }
      rewrite Ho, P5; done.
    + intros Y attr HY. rewrite attr_held_alias_rows.
      assert (HYA : Y <> A) by (intros ->; apply HY; by left).
      assert (HYB : Y <> B) by (intros ->; apply HY; right; by left).
      assert (HYG : Y ∉ G).
      { intros Hin. apply HY, (HL Y). apply elem_of_app. by left. }
      rewrite M3, P6; [apply Hheld1|done..].
    + intros Hnone. destruct P8 as [G2 P2'].
      { intros Y [HY _]%HG. apply (holds_no_references_held s); [|by apply Hnone].
        intros attr. apply Hheld1. }
      unfold references_moved, with_alias_assoc. cbn [parent_child_assoc].
      unfold geo_data, geo_levels, same_identity in *. cbn [geos].
      change (geos s1) with (geos s) in G2.
      change (parent_child_assoc s1) with (parent_child_assoc s) in P2'.
      rewrite <- G2, <- P2'. by split_and!.
  - (* two of them hold the same attribute *)
    intros Hno. rewrite <- Hkey, Happ in Hno.
    destruct (hand_over_ok_dec s1 acc G) as [HokG|HokG].
    2:{ apply raise_bind. by apply Lfail. }
    destruct (Lok HokG) as (s2 & Hrun & Hpost).
    destruct (Hlast s2 Hpost) as (Hs2 & Hadd & HinA2 & HB2 & HA2).
    rewrite (bind_ok _ _ _ _ _ Hrun), Hadd.
    destruct (transfer_references_cases s2 B A (not_eq_sym F3) HinA2)
      as [[Hn _]|[_ Hr]].
    { destruct Hno. split; [done|]. intros attr Hh. rewrite <- HA2.
      apply Hn. by rewrite HB2. }
    by apply raise_bind.
Qed.

End PromotionWhole.

Section PromotionStopped.

Implicit Types (s : Store) (l : list handle).

Lemma for_each_app {T} (l1 l2 : list T) (f : T -> M unit) s :
  for_each (l1 ++ l2) f s =
  match for_each l1 f s with
  | (s1, Ok _) => for_each l2 f s1
  | (s1, Raise e) => (s1, Raise e)
  | (s1, OutOfFuel) => (s1, OutOfFuel)
  end.
Proof.
  revert s. induction l1 as [|x l1 IH]; intros s; [done|].
  cbn [app]. rewrite !for_each_cons.
  destruct (f x s) as [s1 [[]|e|]]; [apply IH|done|done].
Qed.

Lemma first_false (P : handle -> bool) l :
  (exists X, X ∈ l /\ P X = false) ->
  exists l1 X l2, l = l1 ++ X :: l2 /\ P X = false
                  /\ forall Y, Y ∈ l1 -> P Y = true.
Proof.
  induction l as [|x l IH]; intros (X & Hin & HX); [by apply elem_of_nil in Hin|].
  destruct (P x) eqn:Ex.
  - destruct IH as (l1 & Y & l2 & -> & HY & Hl1).
    { exists X. split; [|done].
      apply elem_of_cons in Hin as [->|Hin]; [congruence|done]. }
    exists (x :: l1), Y, l2. split_and!; [done..|].
    intros Z [->|HZ]%elem_of_cons; [done|by apply Hl1].
  - exists [], x, l. split_and!; [done..|]. by intros Z ?%elem_of_nil.
Qed.

Lemma filter_remove_first_out {T} `{EqDecision T} (P : T -> Prop)
    `{forall x, Decision (P x)} (x : T) (t : list T) :
  ~ P x -> filter P (remove_first x t) = filter P t.
Proof.
  intros Hx. induction t as [|y t IH]; [done|]. cbn [remove_first].
  case_decide as E.
  - subst y. by rewrite filter_cons_False.
  - rewrite !filter_cons, IH. done.
Qed.

Lemma alias_targets_raw_other_row s A B X :
  X <> A ->
  _alias_targets (with_alias_assoc (remove_first (A, B)) s) X = _alias_targets s X.
Proof.
  intros Hne. unfold _alias_targets, with_alias_assoc. cbn [alias_assoc].
  rewrite filter_remove_first_out; [done|]. cbn. congruence.
Qed.

(** The loop of a promotion stops at the first alias whose other targets
    cannot be sorted, when it gets there. *)
Lemma promote_loop_unsortable fuel A B l1 X l2 s :
  NoDup (l1 ++ X :: l2) -> NoDup (alias_assoc s) -> A <> B ->
  is_Some (geos s !! A) ->
  (forall y, (A, y) ∉ alias_assoc s) ->
  (forall X', X' ∈ l1 ++ X :: l2 ->
     (X', B) ∈ alias_assoc s /\ X' <> A /\ ((X', A) ∉ alias_assoc s)
     /\ (forall c, (c, X') ∉ alias_assoc s)) ->
  (forall X', X' ∈ l1 ->
     sortable s (filter (fun t => t <> B) (_alias_targets s X')) = true) ->
  sortable s (filter (fun t => t <> B) (_alias_targets s X)) = false ->
  let r := for_each (l1 ++ X :: l2) (fun alias =>
             remove_alias_target alias B ;; add_alias_target (S fuel) alias A) s in
  r.2 = Raise TypeError \/ r.2 = Raise AttributeConflict.
Proof.
  intros Hnd Hrows Hne HA HnA Hall Hsort HX r. unfold r. clear r.
  apply NoDup_app in Hnd as (Hnd1 & Hapart & Hnd2).
  assert (HXl1 : X ∉ l1).
  { intros Hin. apply (Hapart X Hin). by left. }
  rewrite for_each_app.
  destruct (promote_loop fuel A B l1 s (attr_held s A)) as [Lok Lfail];
    [done|done|done|done|done| |done|].
  { intros X' HX'. destruct (Hall X') as (? & ? & ? & ?);
      [apply elem_of_app; by left|]. split_and!; [done..|]. by apply Hsort. }
  cbn zeta in Lok, Lfail.
  destruct (hand_over_ok_dec s (attr_held s A) (filter (sole_target s B) l1))
    as [Hok|Hok].
  2:{ right. specialize (Lfail Hok).
      destruct (for_each l1 _ s) as [s1 r1]. cbn [snd] in Lfail. by subst r1. }
  destruct (Lok Hok) as (s1 & Hrun & P1 & P2 & P3 & P4 & P5 & P6 & P7 & P8).
  rewrite Hrun. left. rewrite for_each_cons.
  destruct (Hall X) as (HXB & HXA & HnXA & HnX);
    [apply elem_of_app; right; by left|].
  assert (HXB1 : (X, B) ∈ alias_assoc s1).
  { apply P2. left. split; [done|]. by intros [_ ?]. }
  erewrite bind_eq by (by apply remove_alias_target_present). cbn iota.
  set (s2 := with_alias_assoc (remove_first (X, B)) s1).
  assert (Hs2 : sortable s2 (_alias_targets s2 X) = false).
  { destruct (sortable s2 (_alias_targets s2 X)) eqn:E; [|done].
    rewrite <- HX. symmetry.
    apply (sortable_subset s2 s (_alias_targets s2 X)); [| | |done].
    - by apply NoDup_filter, NoDup_alias_targets_raw.
    - intros t [Ht Hin]%list_elem_of_filter.
      apply elem_of_alias_targets_raw in Hin.
      apply elem_of_alias_targets_raw. unfold s2, with_alias_assoc.
      cbn [alias_assoc]. apply elem_of_remove_first_NoDup; [done|].
      split; [|congruence]. apply P2. left. split; [done|]. by intros [? _].
    - intros t [Ht Hin]%list_elem_of_filter.
      apply elem_of_alias_targets_raw in Hin.
      symmetry. apply pop_key_lookup.
      change (geos s2) with (geos s1). apply P5.
      + intros ->. done.
      + intros [_ Hin']%list_elem_of_filter.
        destruct (Hall t) as (_ & _ & _ & Hno); [apply elem_of_app; by left|].
        exact (Hno X Hin). }
  cbn [add_alias_target]. rewrite decide_False by congruence.
  by rewrite bind_get_alias_targets_raise.
Qed.

(** A promotion does not return when the other targets of an alias of
    the target cannot be sorted. *)
Lemma promote_unsortable fuel s A B :
  alias_targets s A = [B] -> Exclusive s -> NoDup (alias_assoc s) ->
  is_Some (geos s !! A) ->
  (exists X, (X, B) ∈ alias_assoc s
     /\ sortable s (filter (fun t => t <> B) (_alias_targets s X)) = false) ->
  let r := promote_to_alias_target (S fuel) A s in
  r.2 = Raise TypeError \/ r.2 = Raise AttributeConflict.
Proof.
  intros HAB Hex Hnd HinA (X0 & HX0 & Hbad) r. unfold r. clear r.
  apply Exclusive_rows in Hex.
  assert (HrawAB : _alias_targets s A = [B]) by by apply stable_sort_singleton in HAB.
  assert (F1 : (A, B) ∈ alias_assoc s).
  { apply elem_of_alias_targets. rewrite HAB. by left. }
  assert (F2 : forall y, (A, y) ∈ alias_assoc s -> y = B).
  { intros y Hy%elem_of_alias_targets. rewrite HAB in Hy.
    by apply list_elem_of_singleton in Hy. }
  assert (F4 : forall y, (B, y) ∉ alias_assoc s).
  { intros y Hy. exact (Hex B y A Hy F1). }
  assert (F3 : A <> B) by (intros ->; exact (F4 B F1)).
  assert (F5 : forall c, (c, A) ∉ alias_assoc s).
  { intros c Hc. exact (Hex A B c F1 Hc). }
  assert (F6 : forall X c, (X, B) ∈ alias_assoc s -> (c, X) ∉ alias_assoc s).
  { intros X c HX Hc. exact (Hex X B c HX Hc). }
  assert (HB0 : alias_targets s B = []) by by apply alias_targets_nil.
  assert (HX0A : X0 <> A).
  { intros ->. rewrite HrawAB in Hbad.
    rewrite filter_cons_False in Hbad by (by intros ?). done. }
  set (s1 := with_alias_assoc (remove_first (A, B)) s).
  assert (Hs1 : forall x y, (x, y) ∈ alias_assoc s1 <->
                  (x, y) ∈ alias_assoc s /\ (x, y) <> (A, B)).
  { intros x y. unfold s1, with_alias_assoc. cbn [alias_assoc].
    by apply elem_of_remove_first_NoDup. }
  assert (Hnd1 : NoDup (alias_assoc s1)).
  { unfold s1, with_alias_assoc. cbn [alias_assoc]. by apply NoDup_remove_first. }
  assert (Hl : forall x, x ∈ aliases s1 B <-> (x, B) ∈ alias_assoc s /\ x <> A).
  { intros x. rewrite elem_of_aliases, Hs1, row_eq. tauto. }
  assert (Hsame : forall X, X <> A ->
            sortable s1 (filter (fun t => t <> B) (_alias_targets s1 X))
            = sortable s (filter (fun t => t <> B) (_alias_targets s X))).
  { intros X HX. unfold s1. rewrite alias_targets_raw_other_row by done.
    by apply sortable_ext. }
  destruct (first_false
              (fun X => sortable s1 (filter (fun t => t <> B) (_alias_targets s1 X)))
              (aliases s1 B)) as (l1 & X & l2 & El & HX & Hl1).
  { exists X0. split; [by apply Hl|]. by rewrite Hsame. }
  unfold promote_to_alias_target, promote_body.
  rewrite bind_get_alias_targets
    by (apply sortable_few_targets; rewrite HAB; cbn; lia).
  rewrite HAB.
  rewrite bind_get_alias_targets
    by (apply sortable_few_targets; rewrite HB0; cbn; lia).
  rewrite HB0. cbn [nonempty].
  erewrite bind_eq by (by apply (alias_targets_setter_clear_one _ s A B)).
  cbn iota. fold s1. rewrite bind_gets, El.
  destruct (promote_loop_unsortable fuel A B l1 X l2 s1) as [H|H]; try done.
  - rewrite <- El. by apply NoDup_aliases.
  - intros y [Hy Hne]%Hs1. apply Hne. by rewrite (F2 y Hy).
  - intros X' HX'. rewrite <- El in HX'. apply Hl in HX' as [HXB HXA].
    split_and!.
    + apply Hs1. rewrite row_eq. tauto.
    + done.
    + intros [H _]%Hs1. by apply (F5 X').
    + intros c [H _]%Hs1. by apply (F6 X' c).
  - left. by apply raise_bind.
  - right. by apply raise_bind.
Qed.

End PromotionStopped.

Section PromotionChecks.

Implicit Types (s : Store) (l : list handle).

Lemma shares_none_spec s A B :
  shares_none s A B = true -> no_shared_reference s A B.
Proof.
  unfold shares_none. set (l := A :: B :: _).
  intros H g g' attr Hg Hg' Hne Hh.
  assert (Hin : forall x, hands_over s A B x -> x ∈ l).
  { intros x [->|[->|[Hx Hsole]]]; unfold l.
    - by left.
    - right. by left.
    - right. right. apply list_elem_of_filter. split; [done|].
      by apply elem_of_aliases_raw. }
  rewrite forallb_forall in H.
  specialize (H g (proj1 (list_elem_of_In _ _) (Hin g Hg))).
  rewrite forallb_forall in H.
  specialize (H g' (proj1 (list_elem_of_In _ _) (Hin g' Hg'))).
  apply orb_true_iff in H as [H|H]; [by apply bool_decide_eq_true in H|].
  rewrite forallb_forall in H.
  specialize (H attr (proj1 (list_elem_of_In _ _) (elem_of_attributes attr))).
  rewrite Hh in H. by destruct (attr_held s g' attr).
Qed.

Lemma exclusive_rows_spec s :
  exclusive_rows (alias_assoc s) = true -> Exclusive s.
Proof.
  intros H. apply Exclusive_rows. intros a b c Hab Hca.
  unfold exclusive_rows in H. rewrite forallb_forall in H.
  specialize (H (a, b) (proj1 (list_elem_of_In _ _) Hab)).
  rewrite forallb_forall in H.
  specialize (H (c, a) (proj1 (list_elem_of_In _ _) Hca)).
  cbn in H. by rewrite bool_decide_eq_true_2 in H.
Qed.

(** When one geo alone holds references among those that hand over. *)
Lemma no_shared_reference_one_holder s A B h :
  (forall g attr, hands_over s A B g -> attr_held s g attr = true -> g = h) ->
  no_shared_reference s A B.
Proof.
  intros H g g' attr Hg Hg' Hne Hh.
  destruct (attr_held s g' attr) eqn:E; [|done].
  rewrite (H g attr Hg Hh), (H g' attr Hg' E) in Hne. done.
Qed.

End PromotionChecks.

(** C6, as stated, fails: [2] is an alias with the one target [3], and both
    hold a parent; the promotion of [2] raises [AttributeConflict] and
    leaves neither geo an alias of the other. *)
Lemma promote_conflicting_references :
  let s := promote_conflict in
  let r := promote_to_alias_target 2 2 s in
  alias_targets s 2 = [3]
  /\ r.2 = Raise AttributeConflict
  /\ alias_targets r.1 3 = [] /\ aliases r.1 2 = [].
Proof. repeat split; reflexivity. Qed.

(** The sort of the [alias_targets] property stops a promotion as well:
    the alias [2] of [1] has two other targets, one of them with a data
    record without total population, and the promotion of the alias [0]
    of [1] raises [TypeError] at the turn of [2], which is then an alias
    of neither [0] nor [1]. *)
Example promote_unsortable_alias :
  let s := unsortable_alias in
  let r := promote_to_alias_target 2 0 s in
  alias_targets s 0 = [1]
  /\ no_shared_reference s 0 1
  /\ sortable s (filter (fun t => t <> 1) (_alias_targets s 2)) = false
  /\ r.2 = Raise TypeError
  /\ alias_assoc r.1 = [(2, 3); (2, 4)].
Proof.
  split_and!; try reflexivity. by apply shares_none_spec.
Qed.

(** C6, amended: the promotion of a geo without alias target returns and
    changes nothing; that of a geo with more than one target changes
    nothing and raises [ValueError] when the sort of its targets returns,
    [TypeError] when it does not. For an alias [A] whose one target is [B],
    in a store that keeps alias exclusivity, has no repeated alias row and
    holds [A]: where the targets other than [B] of every alias of [B] can
    be sorted, the promotion returns when no two of [A], [B] and the
    aliases of [B] that have no other target hold an attribute of the same
    kind (parents, children, data, levels), it then leaves [A] without
    target, makes [B] an alias of [A] alone, and gives every other alias
    of [B] the target [A] in place of [B]; and it raises
    [AttributeConflict] when two of them do. Where the other targets of
    an alias of [B] cannot be sorted, it raises [TypeError] or, before it
    gets there, [AttributeConflict]. *)
Theorem promote_to_alias_target_inverts (fuel : nat) (s : Store) (A : handle) :
  (alias_targets s A = [] -> promote_to_alias_target fuel A s = (s, Ok tt))
  /\ (1 < length (alias_targets s A) ->
      (sortable s (_alias_targets s A) = true ->
       promote_to_alias_target fuel A s = (s, Raise ValueError))
      /\ (sortable s (_alias_targets s A) = false ->
          promote_to_alias_target fuel A s = (s, Raise TypeError)))
  /\ (forall B,
        alias_targets s A = [B] -> Exclusive s -> NoDup (alias_assoc s) ->
        is_Some (geos s !! A) ->
        ((forall X, X ∈ aliases s B ->
            sortable s (filter (fun t => t <> B) (_alias_targets s X)) = true) ->
         (no_shared_reference s A B ->
          exists s',
            promote_to_alias_target (S fuel) A s = (s', Ok tt)
            /\ alias_targets s' A = []
            /\ alias_targets s' B = [A]
            /\ (forall X, X <> A -> B ∈ alias_targets s X ->
                          A ∈ alias_targets s' X /\ B ∉ alias_targets s' X))
         /\ (~ no_shared_reference s A B ->
             (promote_to_alias_target (S fuel) A s).2 = Raise AttributeConflict))
        /\ ((exists X, X ∈ aliases s B
               /\ sortable s (filter (fun t => t <> B) (_alias_targets s X))
                  = false) ->
            (promote_to_alias_target (S fuel) A s).2 = Raise TypeError
            \/ (promote_to_alias_target (S fuel) A s).2
               = Raise AttributeConflict)).
Proof.
  split_and!.
  - intros H. unfold promote_to_alias_target, promote_body.
    rewrite bind_get_alias_targets
      by (apply sortable_few_targets; rewrite H; cbn; lia).
    by rewrite H.
  - intros H. unfold promote_to_alias_target, promote_body. split.
    + intros Hs. rewrite bind_get_alias_targets by done.
      destruct (alias_targets s A) as [|a [|b l]]; cbn in H; [lia..|done].
    + intros Hs. by rewrite bind_get_alias_targets_raise.
  - intros B HAB Hex Hnd HinA. split.
    2:{ intros (X & HX & Hbad).
        apply (promote_unsortable fuel s A B HAB Hex Hnd HinA).
        exists X. split; [by apply elem_of_aliases|done]. }
    intros Hsort.
    destruct (promote_hands_over fuel s A B HAB Hex Hnd HinA) as [Hok Hfail].
    { intros X HX. apply Hsort. by apply elem_of_aliases. }
    split; [|done]. intros Hno.
    destruct (Hok Hno) as (s' & Hrun & Hnd' & Hrows & _).
    unfold promoted_rows in Hrows.
    assert (F1 : (A, B) ∈ alias_assoc s).
    { apply elem_of_alias_targets. rewrite HAB. by left. }
    assert (F2 : forall y, (A, y) ∈ alias_assoc s -> y = B).
    { intros y Hy%elem_of_alias_targets. rewrite HAB in Hy.
      by apply list_elem_of_singleton in Hy. }
    apply Exclusive_rows in Hex.
    assert (F4 : forall y, (B, y) ∉ alias_assoc s).
    { intros y Hy. exact (Hex B y A Hy F1). }
    assert (F3 : A <> B) by (intros ->; exact (F4 B F1)).
    exists s'. split_and!; [done| | |].
    + apply alias_targets_nil. intros y [[H Hy]|[(_ & H & _)|[H _]]]%Hrows;
        [by apply Hy, F2 | done | done].
    + apply alias_targets_singleton; [done|]. intros y. rewrite Hrows. split.
      * intros [[H _]|[(_ & _ & H)|[_ H]]]; [by apply F4 in H..|done].
      * intros ->. right. right. done.
    + intros X HX HXB%elem_of_alias_targets. split.
      * apply elem_of_alias_targets, Hrows. right. left. done.
      * intros [[_ H]|[(H & _)|[_ H]]]%elem_of_alias_targets%Hrows; congruence.
Qed.

Lemma promote_to_alias_target_inverts_witness :
  alias_targets handing_over 0 = [1]
  /\ attr_held handing_over 0 PARENTS = true
  /\ exists s',
       promote_to_alias_target 1 0 handing_over = (s', Ok tt)
       /\ alias_targets s' 0 = []
       /\ alias_targets s' 1 = [0]
       /\ (forall X, X <> 0 -> 1 ∈ alias_targets handing_over X ->
                     0 ∈ alias_targets s' X /\ 1 ∉ alias_targets s' X).
Proof.
  split; [reflexivity|]. split; [reflexivity|].
  destruct (promote_to_alias_target_inverts 0 handing_over 0) as (_ & _ & H).
  destruct (H 1) as [Hsorted _].
  - reflexivity.
  - by apply exclusive_rows_spec.
  - unfold handing_over. cbn [alias_assoc].
    repeat (apply NoDup_cons; split;
            [rewrite ?elem_of_cons, elem_of_nil, ?row_eq; lia|]).
    apply NoDup_nil_2.
  - by eexists.
  - apply Hsorted; [|by apply shares_none_spec].
    intros X HX. change (aliases handing_over 1) with [0; 2; 3] in HX.
    apply elem_of_cons in HX as [->|HX]; [reflexivity|].
    apply elem_of_cons in HX as [->|HX]; [reflexivity|].
    apply list_elem_of_singleton in HX as ->. reflexivity.
Defined.

(** ** Promoting twice *)

Section PromotionTwice.

Implicit Types (s : Store).

Lemma promote_references fuel s A B :
  alias_targets s A = [B] -> Exclusive s -> NoDup (alias_assoc s) ->
  (forall X, X ∈ aliases s B -> holds_no_references s X) ->
  is_Some (geos s !! A) ->
  (forall X, X ∈ aliases s B ->
     sortable s (filter (fun t => t <> B) (_alias_targets s X)) = true) ->
  exists s', promote_to_alias_target (S fuel) A s = (s', Ok tt)
             /\ NoDup (alias_assoc s') /\ promoted_rows s s' A B
             /\ references_moved s s' B A.
Proof.
  intros HAB Hex Hnd Hrefs HinA Hsort.
  destruct (promote_hands_over fuel s A B HAB Hex Hnd HinA) as [Hok _].
  { intros X HX. apply Hsort. by apply elem_of_aliases. }
  destruct Hok as (s' & Hrun & Hnd' & Hrows & _ & _ & _ & _ & _ & Hmoved).
  { apply (no_shared_reference_one_holder s A B B).
    intros g attr [->|[->|[Hg _]]] Hh; [|done|].
    - assert (HA : A ∈ aliases s B).
      { apply elem_of_aliases, elem_of_alias_targets. rewrite HAB. by left. }
      by rewrite (Hrefs A HA attr) in Hh.
    - apply elem_of_aliases in Hg. by rewrite (Hrefs g Hg attr) in Hh. }
  exists s'. split_and!; [done..|].
  apply Hmoved. intros X HX. apply Hrefs. by apply elem_of_aliases.
Qed.

Lemma Geo_eq (g g' : Geo) :
  identity g = identity g' -> data g = data g' -> levels g = levels g' -> g = g'.
Proof.
  destruct g, g'. unfold identity. cbn. intros [= -> -> -> -> ->] -> ->. done.
Qed.

Lemma geo_lookup_eq s s' h :
  same_identity s s' ->
  is_Some (geos s !! h) ->
  geo_data s' h = geo_data s h -> geo_levels s' h = geo_levels s h ->
  geos s' !! h = geos s !! h.
Proof.
  unfold same_identity, geo_data, geo_levels. intros Hi [g Hg] Hd Hl.
  assert (E : (identity <$> geos s') !! h = (identity <$> geos s) !! h)
    by (by rewrite Hi).
  rewrite !list_lookup_fmap, Hg in E. rewrite Hg in Hd, Hl |- *.
  destruct (geos s' !! h) as [g'|]; [|done].
  cbn in E, Hd, Hl. f_equal. apply Geo_eq; congruence.
Qed.

Lemma not_held s g attr :
  attr_held s g attr = false <-> ~ attr_held s g attr = true.
Proof. destruct (attr_held s g attr); split; (done || congruence). Qed.

Lemma redirect_back A B x : x <> A -> redirect A B (redirect B A x) = x.
Proof. intros H. unfold redirect. repeat case_decide; congruence. Qed.

End PromotionTwice.

(** X22: promoting an alias [A] of [B] and then promoting [B], now the alias
    of [A], brings the store back: in a store that keeps alias
    exclusivity, with no repeated alias row, where the aliases of [B]
    hold no references and the targets other than [B] of each of them can
    be sorted, both promotions return, every geo is as it was, and the
    parent-child links and the alias rows are the rows there were. *)
Theorem promote_to_alias_target_twice (fuel fuel' : nat) (s : Store)
    (A B : handle) :
  alias_targets s A = [B] -> Exclusive s -> NoDup (alias_assoc s) ->
  (forall X, X ∈ aliases s B -> holds_no_references s X) ->
  (forall X, X ∈ aliases s B ->
     sortable s (filter (fun t => t <> B) (_alias_targets s X)) = true) ->
  is_Some (geos s !! A) -> is_Some (geos s !! B) ->
  exists s1 s2,
    promote_to_alias_target (S fuel) A s = (s1, Ok tt)
    /\ alias_targets s1 B = [A]
    /\ promote_to_alias_target (S fuel') B s1 = (s2, Ok tt)
    /\ geos s2 = geos s
    /\ (forall e, e ∈ parent_child_assoc s2 <-> e ∈ parent_child_assoc s)
    /\ (forall e, e ∈ alias_assoc s2 <-> e ∈ alias_assoc s)
    /\ NoDup (alias_assoc s2).
Proof.
  intros HAB Hex Hnd Hrefs Hsort HinA HinB.
  destruct (promote_references fuel s A B HAB Hex Hnd Hrefs HinA Hsort)
    as (s1 & Hrun1 & Hnd1 & Hrows1 & R1 & Hd1 & Hl1 & Hdg1 & Hlg1 & Ho1 & Hi1).
  unfold promoted_rows in Hrows1.
  assert (F1 : (A, B) ∈ alias_assoc s).
  { apply elem_of_alias_targets. rewrite HAB. by left. }
  assert (F2 : forall y, (A, y) ∈ alias_assoc s -> y = B).
  { intros y Hy%elem_of_alias_targets. rewrite HAB in Hy.
    by apply list_elem_of_singleton in Hy. }
  pose proof Hex as Hex'. apply Exclusive_rows in Hex'.
  assert (F4 : forall y, (B, y) ∉ alias_assoc s).
  { intros y Hy. exact (Hex' B y A Hy F1). }
  assert (F3 : A <> B) by (intros ->; exact (F4 B F1)).
  assert (F5 : forall c, (c, A) ∉ alias_assoc s).
  { intros c Hc. exact (Hex' A B c F1 Hc). }
  assert (F6 : forall X c, (X, B) ∈ alias_assoc s -> (c, X) ∉ alias_assoc s).
  { intros X c HX Hc. exact (Hex' X B c HX Hc). }
  assert (HA : holds_no_references s A).
  { apply Hrefs. by apply elem_of_aliases. }
  assert (PA : forall x, (x, A) ∉ parent_child_assoc s).
  { intros x Hx. specialize (HA PARENTS). apply not_held in HA. apply HA.
    apply held_PARENTS. by exists x. }
  assert (CA : forall x, (A, x) ∉ parent_child_assoc s).
  { intros x Hx. specialize (HA CHILDREN). apply not_held in HA. apply HA.
    apply held_CHILDREN. by exists x. }
  assert (DA : geo_data s A = None).
  { specialize (HA DATA). cbn [attr_held] in HA. by destruct (geo_data s A). }
  assert (LA : geo_levels s A = []).
  { specialize (HA LEVELS). cbn [attr_held] in HA. by destruct (geo_levels s A). }
  assert (HB1 : alias_targets s1 B = [A]).
  { apply alias_targets_singleton; [done|]. intros y. rewrite Hrows1. split.
    - intros [[H _]|[(_ & _ & H)|[_ H]]]; [by destruct (F4 _ H)|by destruct (F4 _ H)|done].
    - intros ->. right. right. done. }
  assert (Hex1 : Exclusive s1).
  { apply Exclusive_rows. intros a b c Hab Hca.
    apply Hrows1 in Hab as [[Hab Hb]|[(-> & Ha & Hab)|[-> ->]]];
      apply Hrows1 in Hca as [[Hca Ha']|[(Ea & Hc & Hca)|[-> Ea]]].
    - exact (Hex' a b c Hab Hca).
    - subst a. apply Hb. by apply F2.
    - subst a. apply Hb. by apply F2.
    - exact (F6 a c Hab Hca).
    - done.
    - done.
    - done.
    - by apply F3.
    - by apply F3. }
  assert (Hrefs1 : forall X, X ∈ aliases s1 A -> holds_no_references s1 X).
  { intros X HX%elem_of_aliases.
    apply Hrows1 in HX as [[HX _]|[(_ & HXA & HXB)|[-> _]]].
    - by destruct (F5 _ HX).
    - assert (HXB' : X <> B) by (intros ->; exact (F4 _ HXB)).
      assert (HXr : holds_no_references s X).
      { apply Hrefs. by apply elem_of_aliases. }
      intros attr. destruct attr.
      + apply not_held. intros (p & Hp)%held_PARENTS.
        apply R1 in Hp as (x0 & y0 & H0 & _ & Ey).
        unfold redirect in Ey. case_decide; [congruence|]. subst y0.
        specialize (HXr PARENTS). apply not_held in HXr. apply HXr.
        apply held_PARENTS. by exists x0.
      + apply not_held. intros (c & Hc)%held_CHILDREN.
        apply R1 in Hc as (x0 & y0 & H0 & Ex & _).
        unfold redirect in Ex. case_decide; [congruence|]. subst x0.
        specialize (HXr CHILDREN). apply not_held in HXr. apply HXr.
        apply held_CHILDREN. by exists y0.
      + specialize (HXr DATA). cbn [attr_held] in *. unfold geo_data in *.
        by rewrite Ho1.
      + specialize (HXr LEVELS). cbn [attr_held] in *. unfold geo_levels in *.
        by rewrite Ho1.
    - intros attr. destruct attr.
      + apply not_held. intros (p & Hp)%held_PARENTS.
        apply R1 in Hp as (x0 & y0 & H0 & _ & Ey).
        unfold redirect in Ey. case_decide; congruence.
      + apply not_held. intros (c & Hc)%held_CHILDREN.
        apply R1 in Hc as (x0 & y0 & H0 & Ex & _).
        unfold redirect in Ex. case_decide; congruence.
      + cbn [attr_held]. by rewrite Hd1.
      + cbn [attr_held]. by rewrite Hl1. }
  assert (Hlen1 : length (geos s1) = length (geos s)).
  { unfold same_identity in Hi1.
    rewrite <- (length_fmap identity (geos s1)), Hi1. apply length_fmap. }
  assert (HinB1 : is_Some (geos s1 !! B)).
  { apply lookup_lt_is_Some. rewrite Hlen1. by apply lookup_lt_is_Some. }
  assert (Hsort1 : forall X, X ∈ aliases s1 A ->
            sortable s1 (filter (fun t => t <> A) (_alias_targets s1 X)) = true).
  { intros X HX%elem_of_aliases.
    apply Hrows1 in HX as [[HX _]|[(_ & HXA & HXB)|[-> _]]].
    - by destruct (F5 _ HX).
    - apply (sortable_subset s s1 (filter (fun t => t <> B) (_alias_targets s X))).
      + by apply NoDup_filter, NoDup_alias_targets_raw.
      + intros t [Ht Hin]%list_elem_of_filter.
        apply elem_of_alias_targets_raw, Hrows1 in Hin
          as [[Hin HtB]|[(E & _)|[_ E]]]; [|done..].
        apply list_elem_of_filter. split; [done|].
        by apply elem_of_alias_targets_raw.
      + intros t [Ht Hin]%list_elem_of_filter.
        apply elem_of_alias_targets_raw, Hrows1 in Hin
          as [[Hin HtB]|[(E & _)|[_ E]]]; [|done..].
        apply pop_key_lookup, Ho1; [done|].
        intros ->. exact (F5 _ Hin).
      + apply Hsort. by apply elem_of_aliases.
    - apply sortable_short.
      assert (E : filter (fun t => t <> A) (_alias_targets s1 B) = []).
      { apply elem_of_nil_inv. intros t [Ht Hin]%list_elem_of_filter. apply Ht.
        apply elem_of_alias_targets_raw, Hrows1 in Hin
          as [[Hin _]|[(E & _)|[_ E]]]; [by destruct (F4 _ Hin)|done..]. }
      rewrite E. cbn. lia. }
  destruct (promote_references fuel' s1 B A HB1 Hex1 Hnd1 Hrefs1 HinB1 Hsort1)
    as (s2 & Hrun2 & Hnd2 & Hrows2 & R2 & Hd2 & Hl2 & Hdg2 & Hlg2 & Ho2 & Hi2).
  unfold promoted_rows in Hrows2.
  assert (Hi : same_identity s s2).
  { unfold same_identity in *. congruence. }
  exists s1, s2. split_and!; try done.
  - apply list_eq. intros h.
    destruct (decide (h = A)) as [->|HhA]; [|destruct (decide (h = B)) as [->|HhB]].
    + apply geo_lookup_eq; [done..| |]; congruence.
    + apply geo_lookup_eq; [done..| |].
      * rewrite Hdg2, Hdg1, Hd1, DA. by destruct (geo_data s B).
      * rewrite Hlg2, Hlg1, Hl1, LA. by destruct (geo_levels s B).
    + rewrite Ho2, Ho1; done.
  - intros [x y]. rewrite R2. split.
    + intros (x1 & y1 & (x0 & y0 & H0 & -> & ->)%R1 & -> & ->).
      rewrite !redirect_back; [done|..].
      * intros ->. exact (PA _ H0).
      * intros ->. exact (CA _ H0).
    + intros H0. exists (redirect B A x), (redirect B A y). split_and!.
      * apply R1. eauto.
      * symmetry. apply redirect_back. intros ->. exact (CA _ H0).
      * symmetry. apply redirect_back. intros ->. exact (PA _ H0).
  - intros [x y]. rewrite Hrows2. split.
    + intros [[H Hy]|[(-> & Hx & H)|[-> ->]]].
      * apply Hrows1 in H as [[H _]|[(E & _)|[_ E]]]; done.
      * apply Hrows1 in H as [[H _]|[(_ & _ & H)|[E _]]];
          [by destruct (F5 _ H)|done|done].
      * done.
    + intros H.
      assert (Hy : y <> A) by (intros ->; exact (F5 _ H)).
      destruct (decide (y = B)) as [->|HyB].
      * assert (Hx : x <> B) by (intros ->; exact (F4 _ H)).
        destruct (decide (x = A)) as [->|HxA]; [by right; right|].
        right. left. split_and!; [done..|]. apply Hrows1. right. left. done.
      * left. split; [|done]. apply Hrows1. by left.
Qed.

Lemma promote_to_alias_target_twice_witness :
  alias_targets two_aliases 0 = [1]
  /\ exists s1 s2,
       promote_to_alias_target 1 0 two_aliases = (s1, Ok tt)
       /\ alias_targets s1 1 = [0]
       /\ promote_to_alias_target 1 1 s1 = (s2, Ok tt)
       /\ geos s2 = geos two_aliases
       /\ (forall e, e ∈ parent_child_assoc s2 <->
                     e ∈ parent_child_assoc two_aliases)
       /\ (forall e, e ∈ alias_assoc s2 <-> e ∈ alias_assoc two_aliases)
       /\ NoDup (alias_assoc s2).
Proof.
  split; [reflexivity|].
  apply (promote_to_alias_target_twice 0 0 two_aliases 0 1).
  - reflexivity.
  - intros [|[|[|g]]]; [by right | by left | by right | by left].
  - unfold two_aliases. cbn [alias_assoc].
    repeat (apply NoDup_cons; split;
            [rewrite ?elem_of_cons, elem_of_nil, ?row_eq; lia|]).
    apply NoDup_nil_2.
  - intros X HX. change (aliases two_aliases 1) with [0; 2] in HX.
    apply elem_of_cons in HX as [->|HX]; [by intros []|].
    apply list_elem_of_singleton in HX as ->. by intros [].
  - intros X HX. change (aliases two_aliases 1) with [0; 2] in HX.
    apply elem_of_cons in HX as [->|HX]; [reflexivity|].
    apply list_elem_of_singleton in HX as ->. reflexivity.
  - by eexists.
  - by eexists.
Defined.

Section SetterClear.

Lemma remove_targets_loop self l : forall s,
  NoDup l -> NoDup (alias_assoc s) ->
  (forall t, t ∈ l -> (self, t) ∈ alias_assoc s) ->
  exists s',
    for_each l (remove_alias_target self) s = (s', Ok tt)
    /\ geos s' = geos s
    /\ parent_child_assoc s' = parent_child_assoc s
    /\ NoDup (alias_assoc s')
    /\ forall e, e ∈ alias_assoc s' <->
         e ∈ alias_assoc s /\ ~ (e.1 = self /\ e.2 ∈ l).
Proof.
  induction l as [|t l IH]; intros s Hl Hs Hin.
  - exists s. split_and!; [done..|]. intros e. split; [|tauto].
    intros H. split; [done|]. intros [_ ?%elem_of_nil]. done.
  - apply NoDup_cons in Hl as [Ht Hl]. cbn [for_each].
    erewrite bind_ok by (apply remove_alias_target_present, Hin; by left).
    destruct (NoDup_remove_first (self, t) (alias_assoc s) Hs) as [Hs' _].
    destruct (IH (with_alias_assoc (remove_first (self, t)) s))
      as (s' & Hr & Hg & Hp & Hn & He); [done|done| |].
    { intros u Hu. cbn [with_alias_assoc alias_assoc].
      apply elem_of_remove_first_ne; [apply Hin; by right|].
      intros [= ->]. done. }
    exists s'. split_and!; [done..|].
    intros e. rewrite He. cbn [with_alias_assoc alias_assoc].
    rewrite elem_of_remove_first_NoDup by done. destruct e as [x y]. cbn [fst snd].
    rewrite elem_of_cons. split.
    + intros ((H1 & H2) & H3). split; [done|]. intros (-> & [->|Hy]); tauto.
    + intros (H1 & H2). split_and!; [done| |tauto].
      intros [= -> ->]. apply H2. split; [done|by left].
Qed.

Lemma alias_targets_setter_clear add s self :
  NoDup (alias_assoc s) ->
  exists s',
    alias_targets_setter add self [] s = (s', Ok tt)
    /\ geos s' = geos s
    /\ parent_child_assoc s' = parent_child_assoc s
    /\ forall e, e ∈ alias_assoc s' <-> e ∈ alias_assoc s /\ e.1 <> self.
Proof.
  intros Hs. unfold alias_targets_setter. rewrite bind_gets.
  cbn [remove_dups filter]. rewrite filter_nil.
  assert (Hf : filter (fun t => t ∉ []) (remove_dups (_alias_targets s self))
               = remove_dups (_alias_targets s self)).
  { generalize (remove_dups (_alias_targets s self)). intros l.
    induction l as [|x l IH]; [done|].
    rewrite filter_cons_True by (by intros ?%elem_of_nil). by f_equal. }
  rewrite Hf.
  destruct (remove_targets_loop self (remove_dups (_alias_targets s self)) s)
    as (s' & Hr & Hg & Hp & _ & He);
    [apply NoDup_remove_dups|done| |].
  { intros t Ht. rewrite elem_of_remove_dups in Ht.
    by apply elem_of_alias_targets_raw. }
  exists s'. rewrite (bind_ok _ _ _ _ _ Hr). cbn [for_each].
  split_and!; [done..|]. intros [x y]. rewrite He. cbn [fst snd].
  split; intros [H1 H2]; (split; [done|]).
  - intros ->. apply H2. split; [done|].
    apply elem_of_remove_dups. by apply elem_of_alias_targets_raw.
  - intros [-> _]. done.
Qed.

End SetterClear.

(** X17: assigning to [alias_targets] the targets a geo has, in any order
    and with repetitions, changes nothing and calls nothing, and so does
    assigning to [aliases] the aliases it has; assigning the empty list to
    [alias_targets] in a table without repeated row removes the rows of the
    geo and no other. *)
Theorem alias_setters_same_or_empty (add : handle -> handle -> M unit)
    (s : Store) (self : handle) :
  (forall l, (forall t, t ∈ l <-> t ∈ _alias_targets s self) ->
     alias_targets_setter add self l s = (s, Ok tt))
  /\ (forall l, (forall a, a ∈ l <-> a ∈ _aliases s self) ->
     aliases_setter add self l s = (s, Ok tt))
  /\ (NoDup (alias_assoc s) ->
      exists s',
        alias_targets_setter add self [] s = (s', Ok tt)
        /\ alias_targets s' self = []
        /\ geos s' = geos s
        /\ parent_child_assoc s' = parent_child_assoc s
        /\ forall x y, x <> self ->
             ((x, y) ∈ alias_assoc s' <-> (x, y) ∈ alias_assoc s)).
Proof.
  split_and!.
  - intros l. apply alias_targets_setter_same.
  - intros l. apply aliases_setter_same.
  - intros Hs.
    destruct (alias_targets_setter_clear add s self Hs) as (s' & Hr & Hg & Hp & He).
    exists s'. split_and!; [done| |done|done|].
    + apply alias_targets_nil. intros t Ht. by apply He in Ht as [_ ?].
    + intros x y Hx. rewrite He. cbn [fst]. tauto.
Qed.

(** ** No repeated alias row *)

Section RowsInvariant.

Lemma NoDup_snoc {A} (l : list A) (x : A) : NoDup l -> x ∉ l -> NoDup (l ++ [x]).
Proof.
  intros Hl Hx. apply NoDup_app. split_and!; [done| |apply NoDup_singleton].
  intros y Hy ->%list_elem_of_singleton. done.
Qed.

Lemma remove_alias_target_NoDup self target :
  preserves NoDupS (remove_alias_target self target).
Proof.
  unfold remove_alias_target. apply preserves_bind_gets. intros s Hs.
  case_decide; [|done]. by apply NoDup_remove_first.
Qed.

Lemma alias_targets_setter_NoDup add self new_targets :
  (forall a b, preserves NoDupS (add a b)) ->
  preserves NoDupS (alias_targets_setter add self new_targets).
Proof.
  intros Hadd. unfold alias_targets_setter. apply preserves_bind_gets.
  intros s Hs. at_state. apply preserves_bind.
  - apply preserves_for_each. intros x. apply remove_alias_target_NoDup.
  - intros _. apply preserves_for_each. intros x. apply Hadd.
Qed.

Lemma aliases_setter_NoDup add self new_aliases :
  (forall a b, preserves NoDupS (add a b)) ->
  preserves NoDupS (aliases_setter add self new_aliases).
Proof.
  intros Hadd. unfold aliases_setter. apply preserves_bind_gets.
  intros s Hs. at_state. apply preserves_bind.
  - apply preserves_for_each. intros x. apply remove_alias_target_NoDup.
  - intros _. apply preserves_for_each. intros x. apply Hadd.
Qed.

Lemma promote_body_NoDup add self :
  (forall a b, preserves NoDupS (add a b)) ->
  preserves NoDupS (promote_body add self).
Proof.
  intros Hadd. unfold promote_body. apply preserves_bind_get_alias_targets.
  intros s Hs.
  destruct (alias_targets s self) as [|tgt [|? ?]]; [done| |done].
  apply read_targets_inv; [done|]. intros _.
  destruct (nonempty (alias_targets s tgt)); [done|].
  at_state. apply preserves_bind.
  { by apply alias_targets_setter_NoDup. }
  intros _. apply preserves_bind_gets. clear s Hs. intros s Hs. at_state.
  apply preserves_bind; [|intros _; apply Hadd].
  apply preserves_for_each. intros x.
  apply preserves_bind; [apply remove_alias_target_NoDup | intros _; apply Hadd].
Qed.

Lemma add_alias_target_NoDup fuel self target :
  preserves NoDupS (add_alias_target fuel self target).
Proof.
  revert self target. induction fuel as [|fuel IH]; intros self target.
  { apply preserves_out_of_fuel. }
  cbn [add_alias_target]. case_decide as Hself; [apply preserves_raise|].
  apply preserves_bind_get_alias_targets. intros s Hs.
  case_decide as Hin; [done|]. rewrite bind_gets.
  destruct (nonempty (aliases s self)) eqn:Eal.
  - case_decide.
    + by apply promote_body_NoDup.
    + at_state.
      apply preserves_bind; [|intros _; apply IH].
      apply preserves_for_each. intros x.
      apply preserves_bind; [apply remove_alias_target_NoDup | intros _; apply IH].
  - apply read_targets_inv; [done|]. intros _.
    destruct (nonempty (alias_targets s target)) eqn:Ets; [done|].
    assert (Hrows : forall s1 r,
              (if nonempty (alias_targets s self) then mret tt
               else transfer_references self target) s = (s1, r) ->
              alias_assoc s1 = alias_assoc s).
    { intros s1 r E. destruct (nonempty (alias_targets s self)).
      - by injection E as <- _.
      - pose proof (transfer_references_alias_rows self target s) as H.
        by rewrite E in H. }
    unfold mbind, M_bind.
    destruct ((if nonempty (alias_targets s self) then mret tt
               else transfer_references self target) s) as [s1 r] eqn:E.
    specialize (Hrows s1 r eq_refl).
    unfold NoDupS in *.
    destruct r as [[]|e|]; cbn [fst]; [|by rewrite Hrows..].
    cbn [append_alias_target modify with_alias_assoc fst alias_assoc].
    rewrite Hrows. apply NoDup_snoc; [done|].
    intros Hrow. apply Hin. by apply elem_of_alias_targets.
Qed.

Lemma promote_to_alias_target_NoDup fuel self :
  preserves NoDupS (promote_to_alias_target fuel self).
Proof. apply promote_body_NoDup. intros a b. apply add_alias_target_NoDup. Qed.

End RowsInvariant.

(** Computations that leave the alias table alone. *)
Section RowsUntouched.

Context (I : Store -> Prop).
Hypothesis I_geos : forall s f, I s -> I (with_geos f s).
Hypothesis I_links : forall s f, I s -> I (with_parent_child_assoc f s).

Lemma update_geo_rows h f : preserves I (update_geo h f).
Proof. apply preserves_modify. intros s Hs. by apply I_geos. Qed.

Lemma create_key_under_rows n a q pp : preserves I (create_key_under n a q pp).
Proof.
  destruct pp as [p|]; cbn [create_key_under]; [|apply preserves_ret].
  apply preserves_bind; [apply preserves_get_geo|].
  intros pg. destruct (human_id pg); [apply preserves_ret | apply preserves_raise].
Qed.

Lemma register_update_rows self key : preserves I (register_update self key).
Proof.
  unfold register_update. apply preserves_bind; [apply preserves_get_geo|].
  intros g. case_decide; [apply preserves_ret|].
  apply preserves_bind_gets. intros s Hs.
  destruct (bool_decide _); [done|]. at_state.
  apply preserves_bind; [apply update_geo_rows | intros _; apply preserves_ret].
Qed.

Lemma human_id_setter_rows validate fuel self val :
  preserves I (human_id_setter validate fuel self val).
Proof.
  revert self val. induction fuel as [|fuel IH]; intros self val.
  { apply preserves_out_of_fuel. }
  cbn [human_id_setter]. destruct val as [v|]; [|apply preserves_raise].
  apply preserves_bind.
  { destruct (validate v); [apply preserves_ret | apply preserves_raise]. }
  intros _. apply preserves_bind; [apply preserves_get_geo|]. intros g.
  destruct (human_id g) as [k|]; [|apply update_geo_rows].
  apply preserves_bind; [apply register_update_rows|].
  intros [|]; [|apply preserves_ret].
  apply preserves_bind_gets. intros s Hs. at_state.
  apply preserves_for_each. intros pc.
  apply preserves_bind; [apply preserves_get_geo|]. intros pcg.
  apply preserves_bind; [apply preserves_get_alias_targets|]. intros _.
  apply preserves_bind; [apply create_key_under_rows|]. intros key. apply IH.
Qed.

Lemma Geo_init_rows validate fuel n a q pp ats als ps cs d ls :
  (forall x y, preserves I (add_alias_target fuel x y)) ->
  (forall add self l, (forall a b, preserves I (add a b)) ->
      preserves I (alias_targets_setter add self l)) ->
  (forall add self l, (forall a b, preserves I (add a b)) ->
      preserves I (aliases_setter add self l)) ->
  preserves I (Geo_init validate fuel n a q pp ats als ps cs d ls).
Proof.
  intros Hadd Hts Has.
  unfold Geo_init. apply preserves_bind_gets. intros s Hs. at_state.
  apply preserves_bind; [apply preserves_modify; intros; by apply I_geos|]. intros _.
  apply preserves_bind.
  { destruct (_ && _); [apply preserves_raise | apply preserves_ret]. }
  intros _. apply preserves_bind; [by apply Hts|].
  intros _. apply preserves_bind; [by apply Has|].
  intros _. apply preserves_bind; [apply preserves_get_alias_targets|].
  intros _. apply preserves_bind; [apply create_key_under_rows|]. intros key.
  apply preserves_bind; [apply human_id_setter_rows|]. intros _.
  apply preserves_bind; [apply preserves_modify; intros; by apply I_links|]. intros _.
  apply preserves_bind; [apply preserves_modify; intros; by apply I_links|]. intros _.
  apply preserves_bind; [apply update_geo_rows|]. intros _.
  apply preserves_bind; [apply update_geo_rows|]. intros _.
  apply preserves_ret.
Qed.

End RowsUntouched.

Lemma Geo_init_NoDup validate fuel n a q pp ats als ps cs d ls :
  preserves NoDupS (Geo_init validate fuel n a q pp ats als ps cs d ls).
Proof.
  apply Geo_init_rows; try done.
  - intros x y. apply add_alias_target_NoDup.
  - intros. by apply alias_targets_setter_NoDup.
  - intros. by apply aliases_setter_NoDup.
Qed.

(** X18: an alias table without repeated row has none after the
    construction of a geo, [add_alias_target], [remove_alias_target] or
    [promote_to_alias_target], whether they return, raise or run out of
    fuel. *)
Theorem alias_rows_stay_distinct (s : Store) :
  NoDup (alias_assoc s) ->
  (forall validate fuel n a q pp ats als ps cs d ls,
      NoDup (alias_assoc (Geo_init validate fuel n a q pp ats als ps cs d ls s).1))
  /\ (forall fuel self target,
        NoDup (alias_assoc (add_alias_target fuel self target s).1))
  /\ (forall self target, NoDup (alias_assoc (remove_alias_target self target s).1))
  /\ (forall fuel self, NoDup (alias_assoc (promote_to_alias_target fuel self s).1)).
Proof.
  intros Hs. split_and!.
  - intros. by apply Geo_init_NoDup.
  - intros. by apply add_alias_target_NoDup.
  - intros. by apply remove_alias_target_NoDup.
  - intros. by apply promote_to_alias_target_NoDup.
Qed.

Lemma alias_rows_stay_distinct_witness :
  NoDup (alias_assoc alias_and_target)
  /\ NoDup (alias_assoc (add_alias_target 3 2 1 alias_and_target).1)
  /\ NoDup (alias_assoc (promote_to_alias_target 3 0 alias_and_target).1).
Proof.
  assert (H : NoDup (alias_assoc alias_and_target)).
  { apply NoDup_singleton. }
  split; [exact H|].
  destruct (alias_rows_stay_distinct alias_and_target H) as (_ & Hadd & _ & Hpro).
  split; [apply Hadd | apply Hpro].
Defined.

(** ** The key of a new geo *)

Section Construction.













End Construction.

Section Plain.


Lemma nametag_abbrev n n' a q :
  a <> "" -> nametag n (Some a) q = nametag n' (Some a) q.
Proof. intros Ha. unfold nametag. by destruct a. Qed.

Lemma name_setter_abbrev validate fuel s self g a val :
  geos s !! self = Some g -> abbrev g = Some a ->
  name_setter validate fuel self val s
  = (with_geos (alter (set_name val) self) s, Ok tt).
Proof.
  intros Hg Ha. unfold name_setter.
  rewrite (bind_ok _ _ _ _ _ (get_geo_Some _ _ _ Hg)). rewrite Ha.
  by destruct (human_id g).
Qed.

Lemma rename_abbrev_keys s self g a val :
  geos s !! self = Some g -> abbrev g = Some a -> a <> "" ->
  keys_derived s -> keys_derived (with_geos (alter (set_name val) self) s).
Proof.
  intros Hg Ha Hne Hk h Hh. cbn [with_geos geos] in Hh.
  rewrite length_alter in Hh. destruct (decide (h = self)) as [->|Hn].
  - destruct (Hk self Hh) as (g0 & Hg0 & H0).
    assert (g0 = g) as -> by congruence.
    exists (set_name val g). cbn [with_geos geos].
    split; [by rewrite list_lookup_alter_eq, Hg|].
    cbn [set_name path_parent human_id name abbrev qualifier].
    unfold create_key in *. cbn [PyStr.truthy] in *.
    rewrite Ha, (nametag_abbrev val (name g)) by done. rewrite Ha in H0.
    destruct (path_parent g) as [p|]; [|done].
    destruct H0 as (pg & pk & Hpg & Hpk & H0).
    assert (p <> self) as Hps.
    { intros ->. assert (pg = g) as -> by congruence.
      rewrite Hpk in H0. injection H0 as H0.
      apply (f_equal (fun k => length (chars k))) in H0.
      rewrite !chars_app, !length_app in H0. cbn [chars list_ascii_of_string length] in H0.
      change (length (chars PATH_DELIMITER)) with 1 in H0. lia. }
    exists pg, pk. by rewrite list_lookup_alter_ne.
  - by apply key_derived_alter_other; [|done|apply Hk].
Qed.

End Plain.



(** X20: the [name] setter of a geo that has an abbreviation stores the
    name and re-keys nothing. With a non-empty abbreviation all keys stay
    derived, since the key is made of the abbreviation; with the empty
    string as abbreviation, which [create_key] passes over for the name,
    the key of the geo is no longer derived once the new name gives
    another nametag. *)
Theorem rename_with_abbreviation (validate : string -> bool) (fuel : nat)
    (s : Store) (self : handle) (g : Geo) (a val : string) :
  geos s !! self = Some g -> abbrev g = Some a ->
  name_setter validate fuel self val s
  = (with_geos (alter (set_name val) self) s, Ok tt)
  /\ (a <> "" -> keys_derived s ->
      keys_derived (with_geos (alter (set_name val) self) s))
  /\ (a = "" ->
      transform_nametag (nametag val None (qualifier g))
      <> transform_nametag (nametag (name g) None (qualifier g)) ->
      key_derived s self ->
      ~ key_derived (with_geos (alter (set_name val) self) s) self).
Proof.
  intros Hg Ha. split_and!.
  - by apply (name_setter_abbrev validate fuel s self g a).
  - intros Hne. by apply (rename_abbrev_keys s self g a).
  - intros -> Hdiff (g0 & Hg0 & H0) (g1 & Hg1 & H1).
    assert (g0 = g) as -> by congruence.
    cbn [with_geos geos] in Hg1. rewrite list_lookup_alter_eq, Hg in Hg1.
    injection Hg1 as <-.
    cbn [set_name path_parent human_id name abbrev qualifier] in H1.
    unfold create_key in *. cbn [PyStr.truthy] in *. rewrite Ha in *.
    change (nametag ?x (Some "") ?y) with (nametag x None y) in *.
    destruct (path_parent g) as [p|].
    + destruct H0 as (pg & pk & Hpg & Hpk & H0).
      destruct H1 as (pg' & pk' & Hpg' & Hpk' & H1).
      cbn [with_geos geos] in Hpg'.
      destruct (decide (p = self)) as [->|Hp].
      * rewrite list_lookup_alter_eq, Hg in Hpg'. injection Hpg' as <-.
        cbn [set_name human_id] in Hpk'.
        assert (pg = g) as -> by congruence.
        rewrite Hpk in H0. injection H0 as H0.
        apply (f_equal (fun k => length (chars k))) in H0.
        rewrite !chars_app, !length_app in H0.
        change (length (chars PATH_DELIMITER)) with 1 in H0. lia.
      * rewrite list_lookup_alter_ne in Hpg' by done.
        assert (pg' = pg) as -> by congruence.
        assert (pk' = pk) as -> by congruence.
        rewrite H0 in H1. injection H1 as H1.
        apply Hdiff. symmetry.
        apply (f_equal chars) in H1. rewrite !chars_app in H1.
        apply app_inv_head in H1.
        revert H1. generalize (transform_nametag (nametag (name g) None (qualifier g))).
        generalize (transform_nametag (nametag val None (qualifier g))).
        intros u v H1. revert v H1. induction u as [|c u IH]; intros [|c' v] H1; try done.
        injection H1 as -> H1. f_equal. by apply IH.
    + rewrite H0 in H1. injection H1 as H1. apply Hdiff. symmetry. exact H1.
Qed.

Lemma rename_with_abbreviation_witness :
  name_setter (fun _ => true) 1 1 "Lone Star" us_tx_austin
  = (with_geos (alter (set_name "Lone Star") 1) us_tx_austin, Ok tt)
  /\ keys_derived (with_geos (alter (set_name "Lone Star") 1) us_tx_austin).
Proof.
  destruct (rename_with_abbreviation (fun _ => true) 1 us_tx_austin 1
              (mkGeo "Texas" (Some "TX") None (Some "us/tx") (Some 0) None [])
              "TX" "Lone Star" eq_refl eq_refl) as (H1 & H2 & _).
  split; [exact H1|]. apply H2; [discriminate|exact us_tx_austin_keys].
Defined.

(** ** The parent the matcher descends from *)

(** X21: in a store that keeps alias exclusivity, the parent that
    [Geo.find_component_matches] descends from is never an alias: it is
    the parent given or one of its alias targets, it has no alias target,
    and taking it as parent again gives it back. *)
Theorem find_component_matches_parent_target (s : Store) (p t : handle) :
  Exclusive s ->
  find_component_matches_parent s (Some p) = Some t ->
  alias_targets s t = []
  /\ find_component_matches_parent s (Some t) = Some t
  /\ (t = p \/ t ∈ alias_targets s p).
Proof.
  intros Hex H. cbn [find_component_matches_parent] in H.
  assert (Ht : alias_targets s t = []).
  { destruct (alias_targets s p) as [|t' ts] eqn:E.
    - by injection H as <-.
    - injection H as ->.
      assert (Hin : t ∈ alias_targets s p) by (rewrite E; by left).
      apply elem_of_alias_targets in Hin.
      destruct (Hex t) as [Hn|Hn]; [done|].
      assert (p ∈ aliases s t) as Hp by (by apply elem_of_aliases).
      rewrite Hn in Hp. by apply elem_of_nil in Hp. }
  split_and!; [done| |].
  - cbn [find_component_matches_parent]. by rewrite Ht.
  - destruct (alias_targets s p) as [|t' ts] eqn:E.
    + left. by injection H as <-.
    + right. injection H as ->. by left.
Qed.

Lemma find_component_matches_parent_target_witness :
  Exclusive alias_and_target
  /\ alias_targets alias_and_target 1 = []
  /\ find_component_matches_parent alias_and_target (Some 1) = Some 1
  /\ (1 = 0 \/ 1 ∈ alias_targets alias_and_target 0).
Proof.
  assert (H : Exclusive alias_and_target).
  { apply Exclusive_rows. intros a b c Hab Hca.
    apply list_elem_of_singleton in Hab. apply list_elem_of_singleton in Hca.
    congruence. }
  split; [exact H|].
  apply (find_component_matches_parent_target alias_and_target 0 1 H).
  reflexivity.
Defined.
